(** * golang-talk: a shallow embedding of the snippets of [go_exp.go]

    The file [go_exp.go] is a sequence of small Go programs, each of them a
    [main] of its own.  Each program is embedded in a module named after what
    it shows; inside the module the definitions keep the names of the source
    ([main], [doit], [Query], ...).

    - sequential programs (slices, interfaces) are functions on an explicit
      heap or on values;
    - concurrent programs (goroutines and unbuffered channels) are
      transition systems: a state records the program point of every
      goroutine, [step] fires one atomic action chosen by the scheduler and
      [exec] runs a whole schedule.  A property of "every execution" is a
      statement about every schedule. *)

From Stdlib Require Import ZArith Lia Bool.
From Stdlib Require Import Strings.Byte Strings.String Strings.Ascii.
From stdpp Require Import base option list list_numbers strings gmap.

Set Default Proof Using "Type".
Local Open Scope nat_scope.

(* ===================================================================== *)
(** * Interfaces holding a nil pointer (go_exp.go, lines 341-415)         *)
(* ===================================================================== *)

Module Iface.

(** A pointer is nil or the address of an object.  The only objects of
    the snippets are values of type [struct{}], which carry no data, so an
    address is all there is to a non-nil pointer. *)
Inductive ptr : Type := PNil | PAddr (a : N).

(** The dynamic types that the snippets store in an [interface{}]. *)
Inductive dyntype : Type := TPtrByte | TPtrEmptyStruct.

(** An interface value is the pair of a dynamic type and a value; the nil
    interface has neither ("Interface variables will be nil only when
    their type and value fields are nil"). *)
Inductive iface : Type :=
| INil
| IBox (t : dyntype) (p : ptr).

(** [in == nil] on an interface value. *)
Definition is_nil (i : iface) : bool :=
  match i with INil => true | IBox _ _ => false end.

(** [data == nil] on a pointer. *)
Definition ptr_is_nil (p : ptr) : bool :=
  match p with PNil => true | PAddr _ => false end.

(** What [fmt.Println] shows for an interface value. *)
Definition show (i : iface) : string :=
  match i with
  | INil | IBox _ PNil => "<nil>"
  | IBox _ (PAddr _) => "&{}"
  end.

(** [&struct{}{}]: the address of a fresh value of size zero. *)
Definition zerobase : N := 1%N.
Definition new_struct : ptr := PAddr zerobase.

End Iface.

(** Lines 355-365: a nil [*byte] stored in an interface. *)
Module IfaceVar.
Import Iface.

Definition main : list (string * bool) :=
  let data := PNil in
  let in_ := INil in
  let l1 := ("<nil>"%string, ptr_is_nil data) in
  let l2 := (show in_, is_nil in_) in
  let in_ := IBox TPtrByte data in
  let l3 := (show in_, is_nil in_) in
  [l1; l2; l3].

End IfaceVar.

(** Lines 375-390, "Incorrect": the closure returns the pointer variable. *)
Module IfaceTyped.
Import Iface.

Definition doit (arg : Z) : iface :=
  let result := PNil in
  let result := if (arg >? 0)%Z then new_struct else result in
  IBox TPtrEmptyStruct result.

Definition main : list string :=
  let res := doit (-1) in
  if negb (is_nil res) then [("good result: " ++ show res)%string] else [].

End IfaceTyped.

(** Lines 397-415, "Works": the closure returns an explicit [nil]. *)
Module IfaceExplicit.
Import Iface.

Definition doit (arg : Z) : iface :=
  let result := PNil in
  if (arg >? 0)%Z then
    let result := new_struct in
    IBox TPtrEmptyStruct result
  else INil.

Definition main : list string :=
  let res := doit (-1) in
  if negb (is_nil res) then [("good result: " ++ show res)%string]
  else ["bad result (res is nil)"%string].

End IfaceExplicit.

(* ===================================================================== *)
(** * Byte slices sharing an array (go_exp.go, lines 207-266)             *)
(* ===================================================================== *)

Module Slice.

Abbreviation byte := Byte.byte.

(** The heap is the list of the backing arrays, in allocation order; an
    array never moves and never changes its length. *)
Abbreviation heap := (list (list byte)).

(** A slice header: the array it points into, where it starts there, its
    length and its capacity (both counted from [off]). *)
Record slice : Type := MkSlice {
  arr : nat;
  off : nat;
  len : nat;
  cap : nat
}.

Definition alloc (h : heap) (a : list byte) : heap * nat :=
  (h ++ [a], length h).

(** The bytes a slice shows: [s[0], ..., s[len(s)-1]]. *)
Definition contents (h : heap) (s : slice) : list byte :=
  match h !! arr s with
  | Some a => take (len s) (drop (off s) a)
  | None => []
  end.

(** [string(s)] *)
Definition to_string (h : heap) (s : slice) : string :=
  string_of_list_byte (contents h s).

(** [bytes.IndexByte(s, c)]: the index of the first [c], or -1. *)
Fixpoint index_from (i : Z) (l : list byte) (c : byte) : Z :=
  match l with
  | [] => (-1)%Z
  | b :: l' => if Byte.eqb b c then i else index_from (i + 1)%Z l' c
  end.

Definition IndexByte (h : heap) (s : slice) (c : byte) : Z :=
  index_from 0 (contents h s) c.

(** An index of the program is an [int]; a negative one panics. *)
Definition idx (i : Z) : option nat :=
  if (0 <=? i)%Z then Some (Z.to_nat i) else None.

(** The header of [s[lo:hi:max]], once the bounds are known to be fine. *)
Definition reslice (s : slice) (lo hi max : nat) : slice :=
  {| arr := arr s; off := off s + lo; len := hi - lo; cap := max - lo |}.

(** [s[lo:hi:max]] panics ([None]) unless [0 <= lo <= hi <= max <= cap(s)]. *)
Definition slice3 (s : slice) (lo hi max : Z) : option slice :=
  lo ← idx lo; hi ← idx hi; max ← idx max;
  if (lo <=? hi) && (hi <=? max) && (max <=? cap s)
  then Some (reslice s lo hi max) else None.

(** [s[:hi]] keeps the whole capacity of [s]; it panics unless
    [0 <= hi <= cap(s)]. *)
Definition slice_to (s : slice) (hi : Z) : option slice :=
  hi ← idx hi;
  if hi <=? cap s then Some (reslice s 0 hi (cap s)) else None.

(** [s[lo:]] ends at [len(s)] and keeps the capacity left after [lo]; it
    panics unless [0 <= lo <= len(s)]. *)
Definition slice_from (s : slice) (lo : Z) : option slice :=
  lo ← idx lo;
  if lo <=? len s then Some (reslice s lo (len s) (cap s)) else None.

(** Overwrite [a[i], ..., a[i + len(bs) - 1]] with [bs]. *)
Definition write_at (a : list byte) (i : nat) (bs : list byte) : list byte :=
  take i a ++ bs ++ drop (i + length bs) a.

(** The nil slice: no elements and no capacity. *)
Definition nil_slice : slice := {| arr := 0; off := 0; len := 0; cap := 0 |}.

Fixpoint join_bytes (sep : list byte) (parts : list (list byte)) : list byte :=
  match parts with
  | [] => []
  | [p] => p
  | p :: ps => p ++ sep ++ join_bytes sep ps
  end.

Section Runtime.

(** How much room the runtime leaves behind the bytes it allocates is
    its own business: [spare n] bytes after a conversion of [n] bytes
    and [extra c n] bytes when a slice of capacity [c] grows to a
    length of [n]. *)
Variable spare : nat -> nat.
Variable extra : nat -> nat -> nat.

(** [[]byte(str)] *)
Definition of_string (h : heap) (str : string) : heap * slice :=
  let bs := list_byte_of_string str in
  let n := length bs in
  let '(h', id) := alloc h (bs ++ repeat x00 (spare n)) in
  (h', {| arr := id; off := 0; len := n; cap := n + spare n |}).

(** [[]byte{b1, ..., bn}] *)
Definition of_bytes (h : heap) (bs : list byte) : heap * slice :=
  let n := length bs in
  let '(h', id) := alloc h bs in
  (h', {| arr := id; off := 0; len := n; cap := n |}).

(** [append(s, bs...)]: in place when the capacity suffices, into a
    fresh array otherwise. *)
Definition append (h : heap) (s : slice) (bs : list byte) : heap * slice :=
  let n := len s + length bs in
  if n <=? cap s then
    (alter (fun a => write_at a (off s + len s) bs) (arr s) h,
     {| arr := arr s; off := off s; len := n; cap := cap s |})
  else
    let '(h', id) :=
      alloc h (contents h s ++ bs ++ repeat x00 (extra (cap s) n)) in
    (h', {| arr := id; off := 0; len := n; cap := n + extra (cap s) n |}).

(** [bytes.Join(ss, sep)].  Without parts it returns [[]byte{}]; one part
    is copied with [append([]byte(nil), ss[0]...)], so the copy gets the
    capacity that [append] chooses; two parts or more go, separated, into
    a fresh array of exactly their length. *)
Definition Join (h : heap) (ss : list slice) (sep : slice) : heap * slice :=
  match ss with
  | [] => of_bytes h []
  | [s] => append h nil_slice (contents h s)
  | _ => of_bytes h (join_bytes (contents h sep) (map (contents h) ss))
  end.

End Runtime.

(** What a run of one of the two programs leaves behind. *)
Record result : Type := MkResult {
  out : list string;        (* the lines printed *)
  final : heap;
  path0 : slice;            (* the slice [path] was bound to at first *)
  dir1 : slice;
  dir2 : slice;
  path : slice
}.

Definition println2 (a b : string) : string := (a ++ " " ++ b)%string.

End Slice.

(** Lines 220-235: [dir1] is the plain reslice [path[:sepIndex]]. *)
Module SliceAlias.
Import Slice.

Definition main (spare : nat -> nat) (extra : nat -> nat -> nat)
  : option result :=
  let '(h, path) := of_string spare [] "AAAA/BBBBBBBBB" in
  let path0 := path in
  let sepIndex := IndexByte h path "/"%byte in
  dir1 ← slice_to path sepIndex;
  dir2 ← slice_from path (sepIndex + 1)%Z;
  let o1 := println2 "dir1 =>" (to_string h dir1) in
  let o2 := println2 "dir2 =>" (to_string h dir2) in
  let '(h, dir1) := append extra h dir1 (list_byte_of_string "suffix") in
  let '(h, sep) := of_bytes h ["/"%byte] in
  let '(h, path) := Join extra h [dir1; dir2] sep in
  let o3 := println2 "dir1 =>" (to_string h dir1) in
  let o4 := println2 "dir2 =>" (to_string h dir2) in
  let o5 := println2 "new path =>" (to_string h path) in
  Some {| out := [o1; o2; o3; o4; o5]; final := h; path0 := path0;
          dir1 := dir1; dir2 := dir2; path := path |}.

End SliceAlias.

(** Lines 251-266: [dir1] is the full slice expression
    [path[:sepIndex:sepIndex]]. *)
Module SliceFull.
Import Slice.

Definition main (spare : nat -> nat) (extra : nat -> nat -> nat)
  : option result :=
  let '(h, path) := of_string spare [] "AAAA/BBBBBBBBB" in
  let path0 := path in
  let sepIndex := IndexByte h path "/"%byte in
  dir1 ← slice3 path 0 sepIndex sepIndex;
  dir2 ← slice_from path (sepIndex + 1)%Z;
  let o1 := println2 "dir1 =>" (to_string h dir1) in
  let o2 := println2 "dir2 =>" (to_string h dir2) in
  let '(h, dir1) := append extra h dir1 (list_byte_of_string "suffix") in
  let '(h, sep) := of_bytes h ["/"%byte] in
  let '(h, path) := Join extra h [dir1; dir2] sep in
  let o3 := println2 "dir1 =>" (to_string h dir1) in
  let o4 := println2 "dir2 =>" (to_string h dir2) in
  let o5 := println2 "new path =>" (to_string h path) in
  Some {| out := [o1; o2; o3; o4; o5]; final := h; path0 := path0;
          dir1 := dir1; dir2 := dir2; path := path |}.

End SliceFull.

(* ===================================================================== *)
(** * Goroutines, schedules and channels                                  *)
(* ===================================================================== *)

(** A concurrent program is a function [step]: the scheduler names the
    action to fire, [step a s] is the state after it, or [None] when the
    action cannot fire in [s] (its goroutine is blocked or gone).  A
    schedule is a list of such choices. *)
Section Exec.
Context {A S : Type}.
Variable step : A -> S -> option S.

Fixpoint exec (sched : list A) (s : S) : option S :=
  match sched with
  | [] => Some s
  | a :: rest =>
      match step a s with
      | Some s' => exec rest s'
      | None => None
      end
  end.

(** No action can fire: every goroutine is blocked or has returned. *)
Definition stuck (s : S) : Prop := forall a, step a s = None.

End Exec.

Module Chan.

Inductive outcome (A : Type) : Type :=
| Ok (a : A)
| Blocked
| Panic (msg : string).
Arguments Ok {A} a.
Arguments Blocked {A}.
Arguments Panic {A} msg.

(** All the channels of the snippets are unbuffered: a value passes only
    when a sender and a receiver meet, so the channel itself holds
    nothing but the fact of having been closed. *)
Record chan : Type := Mk { closed : bool }.

(** [make(chan T)] *)
Definition make : chan := Mk false.

(** [close(c)] *)
Definition close (c : chan) : outcome chan :=
  if closed c then Panic "close of closed channel" else Ok (Mk true).

(** [c <- v], with or without a receiver waiting on [c]: "Sending data to
    a closed channel causes a panic". *)
Definition send (c : chan) (receiver : bool) : outcome unit :=
  if closed c then Panic "send on closed channel"
  else if receiver then Ok tt else Blocked.

(** [<-c] can go ahead when a sender waits or when [c] is closed
    ("Receiving from a closed channel is safe"). *)
Definition can_recv (c : chan) (sender : bool) : bool :=
  closed c || sender.

(** The operations on channels, as a run logs them. *)
Inductive op : Type := OSend | ORecv | OClose.

End Chan.

(* ===================================================================== *)
(** * The worker pool (go_exp.go, lines 54-103)                           *)
(* ===================================================================== *)

Module Pool.

Inductive goroutine : Type := Main | Worker (w : nat).
Inductive chname : Type := Wq | Done.

(** Program points of [main]: in the first loop with [i] workers
    started, in the second loop with [i] items sent, before
    [close(done)], in [wg.Wait()], before the last [Println], returned. *)
Inductive mpc : Type :=
| MSpawn (i : nat)
| MSend (i : nat)
| MClose
| MWait
| MPrint
| MExit.

(** Program points of [doit]: before its first [Printf], at the
    [select], holding the item [m] it received, returned. *)
Inductive wpc : Type :=
| WStart
| WSelect
| WGot (m : nat)
| WExit.

(** A worker goroutine: its argument [workerId] and where it stands. *)
Record worker : Type := MkWorker { workerId : nat; pc : wpc }.

(** The lines printed. *)
Inductive line : Type :=
| Running (id : nat)          (* [%v] is running *)
| Handled (id : nat) (m : nat) (* [%v] m => %v *)
| IsDone (id : nat)           (* [%v] is done *)
| AllDone.                    (* all done! *)

Record event : Type := MkEvent {
  who : goroutine;
  on : chname;
  what : Chan.op
}.

Record state : Type := MkState {
  main : mpc;
  workers : list worker;
  wq : Chan.chan;
  done : Chan.chan;
  wg : Z;                     (* the counter of the WaitGroup *)
  out : list line;
  ops : list event;
  panicked : option string
}.

Definition upd_main (m : mpc) (s : state) : state :=
  MkState m (workers s) (wq s) (done s) (wg s) (out s) (ops s) (panicked s).
Definition upd_workers (l : list worker) (s : state) : state :=
  MkState (main s) l (wq s) (done s) (wg s) (out s) (ops s) (panicked s).
Definition upd_done (c : Chan.chan) (s : state) : state :=
  MkState (main s) (workers s) (wq s) c (wg s) (out s) (ops s) (panicked s).
Definition upd_wg (n : Z) (s : state) : state :=
  MkState (main s) (workers s) (wq s) (done s) n (out s) (ops s) (panicked s).
Definition emit (l : line) (s : state) : state :=
  MkState (main s) (workers s) (wq s) (done s) (wg s) (out s ++ [l]) (ops s)
          (panicked s).
Definition log (e : list event) (s : state) : state :=
  MkState (main s) (workers s) (wq s) (done s) (wg s) (out s) (ops s ++ e)
          (panicked s).
Definition crash (msg : string) (s : state) : state :=
  MkState (main s) (workers s) (wq s) (done s) (wg s) (out s) (ops s)
          (Some msg).

Definition at_pc (w : nat) (p : wpc) (s : state) : state :=
  upd_workers (alter (fun wk => MkWorker (workerId wk) p) w (workers s)) s.

(** The scheduler runs a goroutine on its own, or lets the send of
    [main] on [wq] meet the receive of worker [w]. *)
Inductive action : Type :=
| Run (g : goroutine)
| Hand (w : nat).

Definition init : state :=
  {| main := MSpawn 0; workers := []; wq := Chan.make; done := Chan.make;
     wg := 0; out := []; ops := []; panicked := None |}.

Section Program.

(** The source has [workerCount := 2] and uses it as the bound of both
    loops; here the number of workers and the number of items are two
    parameters, and the program of the source is the instance
    [workerCount = itemCount = 2]. *)
Variable workerCount : nat.
Variable itemCount : nat.

(** One step of [main]. *)
Definition step_main (s : state) : option state :=
  match main s with
  | MSpawn i =>
      if i <? workerCount then
        (* wg.Add(1); go doit(i, wq, done, &wg) *)
        Some (upd_main (MSpawn (S i))
                (upd_workers (workers s ++ [MkWorker i WStart])
                   (upd_wg (wg s + 1) s)))
      else Some (upd_main (MSend 0) s)
  | MSend i =>
      if i <? itemCount then None   (* [wq <- i] waits for a receiver *)
      else Some (upd_main MClose s)
  | MClose =>
      match Chan.close (done s) with
      | Chan.Ok c =>
          Some (upd_main MWait
                  (log [MkEvent Main Done Chan.OClose] (upd_done c s)))
      | Chan.Panic msg => Some (crash msg s)
      | Chan.Blocked => None
      end
  | MWait => if (wg s =? 0)%Z then Some (upd_main MPrint s) else None
  | MPrint => Some (upd_main MExit (emit AllDone s))
  | MExit => None
  end.

(** [wq <- i] in [main] meets [case m := <-wq] in worker [w]. *)
Definition step_hand (w : nat) (s : state) : option state :=
  match main s, workers s !! w with
  | MSend i, Some wk =>
      if i <? itemCount then
        match pc wk with
        | WSelect =>
            match Chan.send (wq s) true with
            | Chan.Ok _ =>
                Some (upd_main (MSend (S i))
                        (at_pc w (WGot i)
                           (log [MkEvent Main Wq Chan.OSend;
                                 MkEvent (Worker w) Wq Chan.ORecv] s)))
            | Chan.Panic msg => Some (crash msg s)
            | Chan.Blocked => None
            end
        | _ => None
        end
      else None
  | _, _ => None
  end.

(** One step of [doit], run by worker [w]. *)
Definition doit (w : nat) (s : state) : option state :=
  match workers s !! w with
  | None => None
  | Some wk =>
      match pc wk with
      | WStart => Some (at_pc w WSelect (emit (Running (workerId wk)) s))
      | WGot m => Some (at_pc w WSelect (emit (Handled (workerId wk) m) s))
      | WSelect =>
          if Chan.can_recv (done s) false then
            (* case <-done: print, return, and the deferred wg.Done() *)
            let s1 := at_pc w WExit
                        (emit (IsDone (workerId wk))
                           (log [MkEvent (Worker w) Done Chan.ORecv] s)) in
            if (wg s - 1 <? 0)%Z
            then Some (crash "sync: negative WaitGroup counter" s1)
            else Some (upd_wg (wg s - 1) s1)
          else None
      | WExit => None
      end
  end.

(** A panic ends the program, and so does the return of [main]. *)
Definition halted (s : state) : bool :=
  match panicked s, main s with
  | Some _, _ => true
  | None, MExit => true
  | None, _ => false
  end.

Definition step (a : action) (s : state) : option state :=
  if halted s then None
  else match a with
       | Run Main => step_main s
       | Run (Worker w) => doit w s
       | Hand w => step_hand w s
       end.

(** The same transitions, one rule for each way a statement of the
    source can go. *)
Inductive Step : action -> state -> state -> Prop :=
| StepSpawn s i :
    halted s = false -> main s = MSpawn i -> i < workerCount ->
    Step (Run Main) s
         (upd_main (MSpawn (S i))
            (upd_workers (workers s ++ [MkWorker i WStart])
               (upd_wg (wg s + 1) s)))
| StepSpawned s i :
    halted s = false -> main s = MSpawn i -> workerCount <= i ->
    Step (Run Main) s (upd_main (MSend 0) s)
| StepSent s i :
    halted s = false -> main s = MSend i -> itemCount <= i ->
    Step (Run Main) s (upd_main MClose s)
| StepClose s :
    halted s = false -> main s = MClose ->
    Chan.closed (done s) = false ->
    Step (Run Main) s
         (upd_main MWait
            (log [MkEvent Main Done Chan.OClose]
               (upd_done (Chan.Mk true) s)))
| StepClosePanic s :
    halted s = false -> main s = MClose ->
    Chan.closed (done s) = true ->
    Step (Run Main) s (crash "close of closed channel" s)
| StepWait s :
    halted s = false -> main s = MWait -> wg s = 0%Z ->
    Step (Run Main) s (upd_main MPrint s)
| StepPrint s :
    halted s = false -> main s = MPrint ->
    Step (Run Main) s (upd_main MExit (emit AllDone s))
| StepHand s i w wk :
    halted s = false -> main s = MSend i -> i < itemCount ->
    workers s !! w = Some wk -> pc wk = WSelect ->
    Chan.closed (wq s) = false ->
    Step (Hand w) s
         (upd_main (MSend (S i))
            (at_pc w (WGot i)
               (log [MkEvent Main Wq Chan.OSend;
                     MkEvent (Worker w) Wq Chan.ORecv] s)))
| StepHandPanic s i w wk :
    halted s = false -> main s = MSend i -> i < itemCount ->
    workers s !! w = Some wk -> pc wk = WSelect ->
    Chan.closed (wq s) = true ->
    Step (Hand w) s (crash "send on closed channel" s)
| StepStart s w wk :
    halted s = false -> workers s !! w = Some wk -> pc wk = WStart ->
    Step (Run (Worker w)) s
         (at_pc w WSelect (emit (Running (workerId wk)) s))
| StepHandled s w wk m :
    halted s = false -> workers s !! w = Some wk -> pc wk = WGot m ->
    Step (Run (Worker w)) s
         (at_pc w WSelect (emit (Handled (workerId wk) m) s))
| StepDone s w wk :
    halted s = false -> workers s !! w = Some wk -> pc wk = WSelect ->
    Chan.closed (done s) = true -> (0 <= wg s - 1)%Z ->
    Step (Run (Worker w)) s
         (upd_wg (wg s - 1)
            (at_pc w WExit
               (emit (IsDone (workerId wk))
                  (log [MkEvent (Worker w) Done Chan.ORecv] s))))
| StepDonePanic s w wk :
    halted s = false -> workers s !! w = Some wk -> pc wk = WSelect ->
    Chan.closed (done s) = true -> (wg s - 1 < 0)%Z ->
    Step (Run (Worker w)) s
         (crash "sync: negative WaitGroup counter"
            (at_pc w WExit
               (emit (IsDone (workerId wk))
                  (log [MkEvent (Worker w) Done Chan.ORecv] s)))).

End Program.

(** The shutdown of the pool is the statement [close(done)] of [main];
    this is what one execution of it does to a state. *)
Definition shutdown (s : state) : state :=
  match Chan.close (done s) with
  | Chan.Ok c => log [MkEvent Main Done Chan.OClose] (upd_done c s)
  | Chan.Panic msg => crash msg s
  | Chan.Blocked => s
  end.

(** The (worker, item) pairs of the lines [[w] m => i]. *)
Definition handled (s : state) : list (nat * nat) :=
  omap (fun l => match l with Handled id m => Some (id, m) | _ => None end)
       (out s).

(** The items that a worker has received and not printed yet. *)
Definition held (wk : worker) : option nat :=
  match pc wk with WGot m => Some m | _ => None end.

Definition in_hand (s : state) : list nat := omap held (workers s).

(** The number of [close(done)] that a run has performed. *)
Definition is_close_done (e : event) : bool :=
  match on e, what e with
  | Done, Chan.OClose => true
  | _, _ => false
  end.

Definition closes (s : state) : nat :=
  length (List.filter is_close_done (ops s)).

(** An operation on [done] that a consumer may perform: a receive.  What
    is left to [main] is the close. *)
Definition done_discipline (e : event) : bool :=
  match on e, who e, what e with
  | Wq, _, _ => true
  | Done, Worker _, Chan.ORecv => true
  | Done, Main, Chan.OClose => true
  | Done, _, _ => false
  end.

(** The workers that have not returned. *)
Definition alive (l : list worker) : nat :=
  length (List.filter
            (fun wk => match pc wk with WExit => false | _ => true end) l).

(** What a worker at the program point [p] adds to [alive] and to
    [in_hand]. *)
Definition live_pc (p : wpc) : nat :=
  match p with WExit => 0 | _ => 1 end.

Definition got_pc (p : wpc) : list nat :=
  match p with WGot m => [m] | _ => [] end.

(** How many items [main] has sent, by its program point. *)
Definition sent (itemCount : nat) (m : mpc) : nat :=
  match m with
  | MSpawn _ => 0
  | MSend i => i
  | _ => itemCount
  end.

(** How many workers [main] has started, by its program point. *)
Definition started (workerCount : nat) (m : mpc) : nat :=
  match m with
  | MSpawn i => i
  | _ => workerCount
  end.

(** Whether [main] is past its [close(done)]. *)
Definition past_close (m : mpc) : bool :=
  match m with
  | MSpawn _ | MSend _ | MClose => false
  | _ => true
  end.

(** What is left to do, counted in steps: every step of the pool makes
    this number smaller. *)
Definition fuel_main (workerCount itemCount : nat) (m : mpc) : nat :=
  match m with
  | MSpawn i => 4 * (workerCount - i) + 3 * itemCount + 5
  | MSend i => 3 * (itemCount - i) + 4
  | MClose => 3
  | MWait => 2
  | MPrint => 1
  | MExit => 0
  end.

Definition fuel_pc (p : wpc) : nat :=
  match p with
  | WStart | WGot _ => 2
  | WSelect => 1
  | WExit => 0
  end.

Definition fuel_worker (wk : worker) : nat := fuel_pc (pc wk).

Definition fuel (workerCount itemCount : nat) (s : state) : nat :=
  match panicked s with
  | Some _ => 0
  | None => 1 + fuel_main workerCount itemCount (main s)
            + sum_list (fuel_worker <$> workers s)
  end.

(** What holds of every state that a run of the pool reaches. *)
Record Inv (workerCount itemCount : nat) (s : state) : Prop := MkInv {
  inv_panic : panicked s = None;
  inv_wq : Chan.closed (wq s) = false;
  inv_done : Chan.closed (done s) = past_close (main s);
  inv_len : length (workers s) = started workerCount (main s);
  inv_bound :
    match main s with
    | MSpawn i => i <= workerCount
    | MSend i => i <= itemCount
    | _ => True
    end;
  inv_wg : wg s = Z.of_nat (alive (workers s));
  inv_alive :
    Chan.closed (done s) = false -> alive (workers s) = length (workers s);
  inv_fin : main s = MPrint \/ main s = MExit -> alive (workers s) = 0;
  inv_ids : forall w wk, workers s !! w = Some wk -> workerId wk = w;
  inv_items :
    Permutation ((handled s).*2 ++ in_hand s)
                (seq 0 (sent itemCount (main s)));
  inv_who : Forall (fun p => p.1 < length (workers s)) (handled s);
  inv_ops : Forall (fun e => done_discipline e = true) (ops s);
  inv_closes : closes s = if Chan.closed (done s) then 1 else 0
}.

(** The schedule under which the program of the source prints what one
    expects to see: both workers start, take one item each, and leave. *)
Definition demo : list action :=
  [Run Main; Run Main; Run Main; Run (Worker 0); Run (Worker 1);
   Hand 0; Hand 1; Run (Worker 1); Run (Worker 0); Run Main; Run Main;
   Run (Worker 0); Run (Worker 1); Run Main; Run Main].

End Pool.

(* ===================================================================== *)
(** * The first result of several senders (go_exp.go, lines 105-163)      *)
(* ===================================================================== *)

(** An [int] of the program: 64 bits, two's complement. *)
Definition int_wrap (z : Z) : Z :=
  ((z + 2 ^ 63) mod 2 ^ 64 - 2 ^ 63)%Z.

(** Both programs start [count] goroutines (three in the source) that each
    try to send [(idx + 1) * 2] on [ch]; [main] takes the first value.  In
    the first program [main] then closes [ch] itself ("not ok (you still
    have other senders)"); in the second one it closes a channel [done]
    that the senders watch in their [select]. *)
Module Racer.

Inductive goroutine : Type := Main | Sender (g : nat).
Inductive chname : Type := Ch | Done.

(** The two programs. *)
Inductive variant : Type :=
| CloseCh      (* lines 120-133 *)
| CloseDone.   (* lines 146-163 *)

(** Program points of [main]: in the loop with [i] goroutines started, at
    the receive, before the [Println] of the value [v], before the
    [close], in [time.Sleep], returned. *)
Inductive mpc : Type :=
| MSpawn (i : nat)
| MRecv
| MPrint (v : Z)
| MClose
| MSleep
| MExit.

(** Program points of a sender: at its send (or [select]), in the branch
    of the send that went through, in the branch of [<-done], returned. *)
Inductive gpc : Type :=
| GSelect
| GSent
| GExiting
| GEnd.

Record sender : Type := MkSender { idx : Z; pc : gpc }.

Inductive line : Type :=
| Result (v : Z)         (* result: %v *)
| SentResult (idx : Z)   (* %v sent result *)
| Exiting (idx : Z).     (* %v exiting *)

Record event : Type := MkEvent {
  who : goroutine;
  on : chname;
  what : Chan.op
}.

Record state : Type := MkState {
  main : mpc;
  senders : list sender;
  ch : Chan.chan;
  done : Chan.chan;
  out : list line;
  ops : list event;
  panicked : option string
}.

Definition upd_main (m : mpc) (s : state) : state :=
  MkState m (senders s) (ch s) (done s) (out s) (ops s) (panicked s).
Definition upd_senders (l : list sender) (s : state) : state :=
  MkState (main s) l (ch s) (done s) (out s) (ops s) (panicked s).
Definition upd_ch (c : Chan.chan) (s : state) : state :=
  MkState (main s) (senders s) c (done s) (out s) (ops s) (panicked s).
Definition upd_done (c : Chan.chan) (s : state) : state :=
  MkState (main s) (senders s) (ch s) c (out s) (ops s) (panicked s).
Definition emit (l : line) (s : state) : state :=
  MkState (main s) (senders s) (ch s) (done s) (out s ++ [l]) (ops s)
          (panicked s).
Definition log (e : list event) (s : state) : state :=
  MkState (main s) (senders s) (ch s) (done s) (out s) (ops s ++ e)
          (panicked s).
Definition crash (msg : string) (s : state) : state :=
  MkState (main s) (senders s) (ch s) (done s) (out s) (ops s) (Some msg).

Definition at_pc (g : nat) (p : gpc) (s : state) : state :=
  upd_senders (alter (fun sd => MkSender (idx sd) p) g (senders s)) s.

(** The scheduler runs a goroutine on its own, or lets the send of sender
    [g] on [ch] meet the receive of [main]. *)
Inductive action : Type :=
| Run (g : goroutine)
| Hand (g : nat).

Definition init : state :=
  {| main := MSpawn 0; senders := []; ch := Chan.make; done := Chan.make;
     out := []; ops := []; panicked := None |}.

(** The value that the goroutine started with [idx] sends. *)
Definition value (idx : Z) : Z := int_wrap (int_wrap (idx + 1) * 2).

Section Program.

Variable v : variant.
Variable count : nat.

Definition step_main (s : state) : option state :=
  match main s with
  | MSpawn i =>
      if i <? count then
        Some (upd_main (MSpawn (S i))
                (upd_senders (senders s ++ [MkSender (Z.of_nat i) GSelect]) s))
      else Some (upd_main MRecv s)
  | MRecv =>
      (* without a sender [<-ch] goes ahead only on a closed channel, and
         yields the zero value *)
      if Chan.can_recv (ch s) false
      then Some (upd_main (MPrint 0) (log [MkEvent Main Ch Chan.ORecv] s))
      else None
  | MPrint r => Some (upd_main MClose (emit (Result r) s))
  | MClose =>
      match v with
      | CloseCh =>
          match Chan.close (ch s) with
          | Chan.Ok c =>
              Some (upd_main MSleep
                      (log [MkEvent Main Ch Chan.OClose] (upd_ch c s)))
          | Chan.Panic msg => Some (crash msg s)
          | Chan.Blocked => None
          end
      | CloseDone =>
          match Chan.close (done s) with
          | Chan.Ok c =>
              Some (upd_main MSleep
                      (log [MkEvent Main Done Chan.OClose] (upd_done c s)))
          | Chan.Panic msg => Some (crash msg s)
          | Chan.Blocked => None
          end
      end
  | MSleep => Some (upd_main MExit s)
  | MExit => None
  end.

(** [ch <- (idx + 1) * 2] in sender [g] meets [<-ch] in [main]. *)
Definition step_hand (g : nat) (s : state) : option state :=
  match main s, senders s !! g with
  | MRecv, Some sd =>
      match pc sd with
      | GSelect =>
          match Chan.send (ch s) true with
          | Chan.Ok _ =>
              Some (upd_main (MPrint (value (idx sd)))
                      (at_pc g GSent
                         (log [MkEvent (Sender g) Ch Chan.OSend;
                               MkEvent Main Ch Chan.ORecv] s)))
          | Chan.Panic msg => Some (crash msg s)
          | Chan.Blocked => None
          end
      | _ => None
      end
  | _, _ => None
  end.

Definition step_sender (g : nat) (s : state) : option state :=
  match senders s !! g with
  | None => None
  | Some sd =>
      match pc sd with
      | GSelect =>
          match v with
          | CloseCh =>
              (* a bare send: alone it can only fail, on a closed [ch] *)
              match Chan.send (ch s) false with
              | Chan.Panic msg =>
                  Some (crash msg (log [MkEvent (Sender g) Ch Chan.OSend] s))
              | _ => None
              end
          | CloseDone =>
              (* case <-done *)
              if Chan.can_recv (done s) false
              then Some (at_pc g GExiting
                           (log [MkEvent (Sender g) Done Chan.ORecv] s))
              else None
          end
      | GSent =>
          match v with
          | CloseCh => Some (at_pc g GEnd s)
          | CloseDone => Some (at_pc g GEnd (emit (SentResult (idx sd)) s))
          end
      | GExiting => Some (at_pc g GEnd (emit (Exiting (idx sd)) s))
      | GEnd => None
      end
  end.

(** A panic ends the program, and so does the return of [main]. *)
Definition halted (s : state) : bool :=
  match panicked s, main s with
  | Some _, _ => true
  | None, MExit => true
  | None, _ => false
  end.

Definition step (a : action) (s : state) : option state :=
  if halted s then None
  else match a with
       | Run Main => step_main s
       | Run (Sender g) => step_sender g s
       | Hand g => step_hand g s
       end.

End Program.

(** In the program with [done]: an operation on [done] is a receive by a
    sender or the close by [main]; nobody sends on it. *)
Definition done_discipline (e : event) : bool :=
  match on e, who e, what e with
  | Ch, _, _ => true
  | Done, Sender _, Chan.ORecv => true
  | Done, Main, Chan.OClose => true
  | Done, _, _ => false
  end.

Definition is_close_done (e : event) : bool :=
  match on e, what e with
  | Done, Chan.OClose => true
  | _, _ => false
  end.

Definition closes (s : state) : nat :=
  length (List.filter is_close_done (ops s)).

Definition started (count : nat) (m : mpc) : nat :=
  match m with
  | MSpawn i => i
  | _ => count
  end.

Definition past_close (m : mpc) : bool :=
  match m with
  | MSleep | MExit => true
  | _ => false
  end.

(** Whether [main] has taken its value. *)
Definition past_recv (m : mpc) : bool :=
  match m with
  | MSpawn _ | MRecv => false
  | _ => true
  end.

(** The senders whose send went through. *)
Definition winners (l : list sender) : nat :=
  length (List.filter
            (fun sd => match pc sd with GSent => true | _ => false end) l).

(** What holds of every state that a run of the program with [done]
    reaches. *)
Record Inv (count : nat) (s : state) : Prop := MkInv {
  inv_panic : panicked s = None;
  inv_ch : Chan.closed (ch s) = false;
  inv_done : Chan.closed (done s) = past_close (main s);
  inv_len : length (senders s) = started count (main s);
  inv_bound : match main s with MSpawn i => i <= count | _ => True end;
  inv_idx : forall g sd, senders s !! g = Some sd -> idx sd = Z.of_nat g;
  inv_waiting :
    past_recv (main s) = false ->
    forall g sd, senders s !! g = Some sd -> pc sd = GSelect;
  inv_exiting :
    Chan.closed (done s) = false ->
    forall g sd, senders s !! g = Some sd -> pc sd <> GExiting;
  inv_ops : Forall (fun e => done_discipline e = true) (ops s);
  inv_closes : closes s = if Chan.closed (done s) then 1 else 0
}.

(** Steps left, as for the pool. *)
Definition fuel_main (count : nat) (m : mpc) : nat :=
  match m with
  | MSpawn i => 4 * (count - i) + 6
  | MRecv => 5
  | MPrint _ => 3
  | MClose => 2
  | MSleep => 1
  | MExit => 0
  end.

Definition fuel_pc (p : gpc) : nat :=
  match p with
  | GSelect => 2
  | GSent | GExiting => 1
  | GEnd => 0
  end.

Definition fuel (count : nat) (s : state) : nat :=
  match panicked s with
  | Some _ => 0
  | None => 1 + fuel_main count (main s)
            + sum_list ((fun sd => fuel_pc (pc sd)) <$> senders s)
  end.

(** The run of the first program that its comment warns about: the
    goroutines start, [main] takes the value of goroutine 0 and closes
    [ch]; the send of goroutine 1 then panics. *)
Definition crash_demo : list action :=
  [Run Main; Run Main; Run Main; Run Main; Hand 0; Run Main; Run Main;
   Run (Sender 1)].

(** A run of the second program: [main] takes the value of goroutine 1;
    the other two leave through [done]. *)
Definition demo : list action :=
  [Run Main; Run Main; Run Main; Run Main; Hand 1; Run (Sender 1);
   Run Main; Run Main; Run (Sender 0); Run (Sender 2); Run (Sender 0);
   Run (Sender 2); Run Main].

End Racer.

(* ===================================================================== *)
(** * The first answer of several databases (go_exp.go, lines 429-447)    *)
(* ===================================================================== *)

(** [Query] starts one goroutine for each connection.  Each of them calls
    [c.DoQuery(query)] and then tries once to send the answer on the
    unbuffered [ch]: the [select] has a [default], so the send goes
    through when [Query] is waiting in [<-ch] at that moment and is given
    up otherwise.  [Query] returns what it receives. *)
Module Dispatch.

Inductive goroutine : Type := Caller | Attempt (i : nat).

Record event : Type := MkEvent { who : goroutine; what : Chan.op }.

Section Query.

(** The source declares neither [Conn] nor [Result] nor [DoQuery]. *)
Variable Conn : Type.
Variable Result : Type.
Variable DoQuery : Conn -> string -> Result.

(** Program points of [Query]: in the loop with [i] goroutines started, in
    [<-ch], returned with [r]. *)
Inductive cpc : Type :=
| CSpawn (i : nat)
| CRecv
| CRet (r : Result).

(** Program points of a goroutine: in [DoQuery], at the [select] with the
    answer [r] in hand, returned after the send, returned through
    [default]. *)
Inductive apc : Type :=
| ACall
| ASelect (r : Result)
| ASent
| ADropped.

(** A goroutine and its argument [c]. *)
Record attempt : Type := MkAttempt { c : Conn; pc : apc }.

Record state : Type := MkState {
  caller : cpc;
  attempts : list attempt;
  ch : Chan.chan;
  ops : list event;
  panicked : option string
}.

Definition upd_caller (p : cpc) (s : state) : state :=
  MkState p (attempts s) (ch s) (ops s) (panicked s).
Definition upd_attempts (l : list attempt) (s : state) : state :=
  MkState (caller s) l (ch s) (ops s) (panicked s).
Definition log (e : list event) (s : state) : state :=
  MkState (caller s) (attempts s) (ch s) (ops s ++ e) (panicked s).
Definition crash (msg : string) (s : state) : state :=
  MkState (caller s) (attempts s) (ch s) (ops s) (Some msg).

Definition at_pc (i : nat) (p : apc) (s : state) : state :=
  upd_attempts (alter (fun a => MkAttempt (c a) p) i (attempts s)) s.

Definition init : state :=
  {| caller := CSpawn 0; attempts := []; ch := Chan.make; ops := [];
     panicked := None |}.

(** Whether [Query] is waiting in [<-ch]. *)
Definition receiving (s : state) : bool :=
  match caller s with CRecv => true | _ => false end.

(** What [Query] has returned, if it has. *)
Definition returned (s : state) : option Result :=
  match caller s with CRet r => Some r | _ => None end.

Variable conns : list Conn.
Variable query : string.

(** One step of [Query] itself. *)
Definition Query (s : state) : option state :=
  match caller s with
  | CSpawn i =>
      match conns !! i with
      | Some conn =>
          (* go func(c Conn) { ... }(conn) *)
          Some (upd_caller (CSpawn (S i))
                  (upd_attempts (attempts s ++ [MkAttempt conn ACall]) s))
      | None => Some (upd_caller CRecv s)
      end
  | CRecv => None     (* nobody closes [ch]: [<-ch] waits for a sender *)
  | CRet _ => None
  end.

(** One step of the goroutine that [Query] started for [conns[i]]. *)
Definition step_attempt (i : nat) (s : state) : option state :=
  match attempts s !! i with
  | None => None
  | Some a =>
      match pc a with
      | ACall => Some (at_pc i (ASelect (DoQuery (c a) query)) s)
      | ASelect r =>
          match Chan.send (ch s) (receiving s) with
          | Chan.Ok _ =>
              (* case ch <- r: the receive of [Query] takes the value *)
              Some (upd_caller (CRet r)
                      (at_pc i ASent
                         (log [MkEvent (Attempt i) Chan.OSend;
                               MkEvent Caller Chan.ORecv] s)))
          | Chan.Blocked => Some (at_pc i ADropped s)     (* default: *)
          | Chan.Panic msg => Some (crash msg s)
          end
      | ASent | ADropped => None
      end
  end.

Definition step (g : goroutine) (s : state) : option state :=
  match panicked s with
  | Some _ => None
  | None =>
      match g with
      | Caller => Query s
      | Attempt i => step_attempt i s
      end
  end.

Definition started (p : cpc) : nat :=
  match p with
  | CSpawn i => i
  | _ => length conns
  end.

(** The attempts whose send went through. *)
Definition winners (l : list attempt) : nat :=
  length (List.filter
            (fun a => match pc a with ASent => true | _ => false end) l).

Definition win_pc (p : apc) : nat :=
  match p with ASent => 1 | _ => 0 end.

(** What holds of every state that a run of [Query] reaches. *)
Record Inv (s : state) : Prop := MkInv {
  inv_panic : panicked s = None;
  inv_ch : Chan.closed (ch s) = false;
  inv_len : length (attempts s) = started (caller s);
  inv_bound : match caller s with CSpawn i => i <= length conns | _ => True end;
  inv_conn : forall i a, attempts s !! i = Some a -> conns !! i = Some (c a);
  inv_answer :
    forall i a r, attempts s !! i = Some a -> pc a = ASelect r ->
                  r = DoQuery (c a) query;
  inv_sent :
    forall i a, attempts s !! i = Some a -> pc a = ASent ->
                caller s = CRet (DoQuery (c a) query);
  inv_winners :
    winners (attempts s) = match caller s with CRet _ => 1 | _ => 0 end;
  inv_ops :
    Forall (fun e => what e <> Chan.OClose) (ops s)
}.

(** Steps left. *)
Definition fuel_caller (p : cpc) : nat :=
  match p with
  | CSpawn i => 3 * (length conns - i) + 2
  | CRecv => 1
  | CRet _ => 0
  end.

Definition fuel_pc (p : apc) : nat :=
  match p with
  | ACall => 2
  | ASelect _ => 1
  | ASent | ADropped => 0
  end.

Definition fuel (s : state) : nat :=
  fuel_caller (caller s) + sum_list ((fun a => fuel_pc (pc a)) <$> attempts s).

End Query.

Arguments CSpawn {Result} i.
Arguments CRecv {Result}.
Arguments CRet {Result} r.
Arguments ACall {Result}.
Arguments ASelect {Result} r.
Arguments ASent {Result}.
Arguments ADropped {Result}.
Arguments MkAttempt {Conn Result} c pc.
Arguments c {Conn Result} a.
Arguments pc {Conn Result} a.
Arguments caller {Conn Result} s.
Arguments attempts {Conn Result} s.
Arguments ch {Conn Result} s.
Arguments ops {Conn Result} s.
Arguments panicked {Conn Result} s.
Arguments init {Conn Result}.
Arguments receiving {Conn Result} s.
Arguments returned {Conn Result} s.
Arguments winners {Conn Result} l.
Arguments fuel_pc {Result} p.
Arguments win_pc {Result} p.

(** Three databases that answer with their own number.  In [early] the
    second one is so fast that its goroutine is through its [select]
    before [Query] has started the third goroutine, let alone reached
    [<-ch]: its answer is given up and [Query] returns the answer of the
    first database.  In [all_early] all three are that fast, and [Query]
    waits in [<-ch] for ever.  In [late] the second database answers
    first, after [Query] has reached [<-ch]. *)
Definition answer (conn : nat) (query : string) : nat := conn.

Definition three : list nat := [10; 42; 30].

Definition early : list goroutine :=
  [Caller; Caller; Attempt 1; Attempt 1; Caller; Caller;
   Attempt 0; Attempt 0; Attempt 2; Attempt 2].

Definition all_early : list goroutine :=
  [Caller; Attempt 0; Attempt 0; Caller; Attempt 1; Attempt 1; Caller;
   Attempt 2; Attempt 2; Caller].

Definition late : list goroutine :=
  [Caller; Caller; Caller; Caller; Attempt 1; Attempt 1;
   Attempt 0; Attempt 2; Attempt 2; Attempt 0].

End Dispatch.

(* ===================================================================== *)
(** * A receive with a timeout (go_exp.go, lines 417-427)                 *)
(* ===================================================================== *)

(** The [select] waits for a message on [ch] or for the channel of
    [time.After(time.Second)], whichever is ready first.  Time is a
    counter of nanoseconds since the [select] was entered; the scheduler
    lets time pass, lets senders arrive on [ch] and lets somebody close
    [ch].  "Receiving from a closed channel is safe": on a closed [ch]
    the first branch is ready at once, with the zero value of the type
    of the messages. *)
Module Timeout.

(** [time.Second], in nanoseconds. *)
Definition Second : N := 1000000000%N.

Section Select.

(** The source does not say what travels on [ch]; [zero] is the zero
    value of that type. *)
Variable Msg : Type.
Variable zero : Msg.

(** Program points: in the [select], in the first branch with the message
    received, behind the [select] after [process(msg)], behind the
    [select] through the branch of the timer. *)
Inductive spc : Type :=
| SWait
| SGot (msg : Msg)
| SProcessed
| STimedOut.

Record state : Type := MkState {
  now : N;                   (* nanoseconds since the timer was armed *)
  offered : option Msg;      (* the message of a sender that waits on [ch] *)
  closed : bool;             (* whether [ch] has been closed *)
  pc : spc;
  processed : list Msg       (* the arguments of the calls of [process] *)
}.

Inductive action : Type :=
| Pass (d : N)       (* [d] nanoseconds pass *)
| Offer (m : Msg)    (* a sender comes to [ch] with [m] *)
| Close              (* somebody closes [ch] *)
| Recv               (* case msg := <-ch *)
| Fire               (* case <-time.After(time.Second) *)
| Process.           (* process(msg) *)

Definition init : state :=
  {| now := 0; offered := None; closed := false; pc := SWait;
     processed := [] |}.

Definition step (a : action) (s : state) : option state :=
  match a with
  | Pass d =>
      Some (MkState (now s + d) (offered s) (closed s) (pc s) (processed s))
  | Offer m =>
      (* a send on a closed channel panics in the sender: nothing comes *)
      match offered s, closed s with
      | None, false =>
          Some (MkState (now s) (Some m) false (pc s) (processed s))
      | _, _ => None
      end
  | Close =>
      (* a sender that waits on [ch] panics, its message is lost; closing
         a closed channel panics in the one who closes *)
      if closed s then None
      else Some (MkState (now s) None true (pc s) (processed s))
  | Recv =>
      match pc s with
      | SWait =>
          match offered s with
          | Some m =>
              Some (MkState (now s) None (closed s) (SGot m) (processed s))
          | None =>
              (* the receive on a closed channel yields the zero value *)
              if closed s
              then Some (MkState (now s) None true (SGot zero) (processed s))
              else None
          end
      | _ => None
      end
  | Fire =>
      match pc s with
      | SWait =>
          if (Second <=? now s)%N
          then Some (MkState (now s) (offered s) (closed s) STimedOut
                             (processed s))
          else None
      | _ => None
      end
  | Process =>
      match pc s with
      | SGot m =>
          Some (MkState (now s) (offered s) (closed s) SProcessed
                        (processed s ++ [m]))
      | _ => None
      end
  end.

Definition is_offer (a : action) : bool :=
  match a with Offer _ => true | _ => false end.

Definition is_close (a : action) : bool :=
  match a with Close => true | _ => false end.

(** No sender comes to [ch] during the schedule. *)
Definition no_offer (sched : list action) : bool :=
  forallb (fun a => negb (is_offer a)) sched.

(** Nobody closes [ch] during the schedule. *)
Definition no_close (sched : list action) : bool :=
  forallb (fun a => negb (is_close a)) sched.

(** The [select] is still waiting, or it has left through the timer. *)
Definition unserved (s : state) : Prop :=
  offered s = None /\ closed s = false /\ processed s = [] /\
  (pc s = SWait \/ (pc s = STimedOut /\ (Second <= now s)%N)).

(** A timer does not fire early, and [process] sees only messages that
    were received. *)
Definition sound (s : state) : Prop :=
  (pc s = STimedOut -> (Second <= now s)%N /\ processed s = []) /\
  (pc s = SWait -> processed s = []).

End Select.

Arguments SWait {Msg}.
Arguments SGot {Msg} msg.
Arguments SProcessed {Msg}.
Arguments STimedOut {Msg}.
Arguments now {Msg} s.
Arguments offered {Msg} s.
Arguments closed {Msg} s.
Arguments pc {Msg} s.
Arguments processed {Msg} s.
Arguments Pass {Msg} d.
Arguments Offer {Msg} m.
Arguments Close {Msg}.
Arguments Recv {Msg}.
Arguments Fire {Msg}.
Arguments Process {Msg}.
Arguments init {Msg}.
Arguments is_offer {Msg} a.
Arguments is_close {Msg} a.
Arguments no_offer {Msg} sched.
Arguments no_close {Msg} sched.
Arguments unserved {Msg} s.
Arguments sound {Msg} s.

End Timeout.

(* ===================================================================== *)
(** * Goroutines started in a loop (go_exp.go, lines 290-339)             *)
(* ===================================================================== *)

(** [for _, v := range data { go ... }]: "The iteration variables in for
    statements are reused in each iteration" is what the source says, and
    what Go did before version 1.22: there is one variable [v] for the
    whole loop, and the closure of the first program reads it when its
    goroutine runs.  From Go 1.22 on each iteration has a variable [v] of
    its own, which nothing writes after the iteration has begun; the
    closure then reads the element of its own iteration.  The repository
    names no language version, so the first program is modelled under
    both rules.  The function literal of the second program takes the
    value of [v] as its argument [in] when the [go] statement runs, under
    either rule.

    Under the old rule the read of [v] by a goroutine is not ordered
    with the writes of the later iterations (a data race in Go); the
    model takes each read and each write of [v] as one atomic step. *)
Module Closure.

Inductive variant : Type :=
| Capture        (* lines 306-317, Go before 1.22: one [v] for the loop *)
| CaptureFresh   (* lines 306-317, Go 1.22 and later: a [v] per iteration *)
| Argument.      (* lines 328-339: go func(in string) { ... }(v) *)

(** What a goroutine will print: the loop variable that all iterations
    share, or a value of its own (its argument [in], or the variable [v]
    of its own iteration). *)
Inductive binding : Type :=
| Shared
| Own (in_ : string).

Inductive gpc : Type := GReady | GEnd.

Record gor : Type := MkGor { bound : binding; pc : gpc }.

(** Program points of [main]: before the assignment of [data[k]] to [v],
    before the [go] statement of iteration [k], in [time.Sleep],
    returned. *)
Inductive mpc : Type :=
| MIter (k : nat)
| MGo (k : nat)
| MSleep
| MExit.

Inductive goroutine : Type := Main | Unit (g : nat).

Record state : Type := MkState {
  main : mpc;
  v : string;                    (* the loop variable *)
  gors : list gor;
  out : list (nat * string)      (* who printed what, in order *)
}.

Definition init : state :=
  {| main := MIter 0; v := ""; gors := []; out := [] |}.

Section Program.

Variable how : variant.
Variable data : list string.

Definition step_main (s : state) : option state :=
  match main s with
  | MIter k =>
      match data !! k with
      | Some x => Some (MkState (MGo k) x (gors s) (out s))
      | None => Some (MkState MSleep (v s) (gors s) (out s))
      end
  | MGo k =>
      let b := match how with
               | Capture => Shared
               | CaptureFresh | Argument => Own (v s)
               end in
      Some (MkState (MIter (S k)) (v s) (gors s ++ [MkGor b GReady]) (out s))
  | MSleep => Some (MkState MExit (v s) (gors s) (out s))
  | MExit => None
  end.

Definition step_unit (g : nat) (s : state) : option state :=
  match gors s !! g with
  | Some (MkGor b GReady) =>
      let x := match b with Shared => v s | Own in_ => in_ end in
      Some (MkState (main s) (v s) (<[g := MkGor b GEnd]> (gors s))
                    (out s ++ [(g, x)]))
  | _ => None
  end.

(** The return of [main] ends the program. *)
Definition step (a : goroutine) (s : state) : option state :=
  match main s with
  | MExit => None
  | _ => match a with
         | Main => step_main s
         | Unit g => step_unit g s
         end
  end.

End Program.

(** The data of the source, and the schedule that its comments describe:
    [main] runs through its loop, then the goroutines run. *)
Definition numbers : list string := ["one"; "two"; "three"]%string.

Definition loop_first : list goroutine :=
  [Main; Main; Main; Main; Main; Main; Main; Unit 0; Unit 1; Unit 2; Main].

(** What holds in every state of the second program. *)
Record Inv (data : list string) (s : state) : Prop := MkInv {
  inv_len :
    length (gors s) =
    match main s with
    | MIter k => k
    | MGo k => k
    | _ => length data
    end;
  inv_v : match main s with MGo k => data !! k = Some (v s) | _ => True end;
  inv_bound :
    match main s with MIter k => k <= length data | _ => True end;
  inv_own :
    forall g u, gors s !! g = Some u -> exists x,
      bound u = Own x /\ data !! g = Some x;
  inv_out : forall g x, (g, x) ∈ out s -> data !! g = Some x;
  inv_ran :
    forall g u, gors s !! g = Some u -> pc u = GReady -> g ∉ (out s).*1;
  inv_ended :
    forall g u, gors s !! g = Some u -> pc u = GEnd -> g ∈ (out s).*1;
  inv_lt : forall g, g ∈ (out s).*1 -> g < length (gors s);
  inv_once : NoDup (out s).*1
}.

End Closure.

(* ===================================================================== *)
(** * The values of a "range" clause (go_exp.go, lines 28-52)             *)
(* ===================================================================== *)

(** Both programs range over a slice of strings and print the loop
    variable.  With one variable, [for v := range x], the variable is the
    index; with [for _, v := range x] it is the element.  The slice is a
    parameter here; the source has [x := []string{"a","b","c"}]. *)
Module Range.

(** What [fmt.Println] was given. *)
Inductive printed : Type :=
| PInt (i : Z)
| PStr (s : string).

(** The loop of [main1], at index [i] with [rest] still to visit. *)
Fixpoint loop1 (i : Z) (rest : list string) : list printed :=
  match rest with
  | [] => []
  | _ :: rest' => PInt i :: loop1 (int_wrap (i + 1)) rest'
  end.

(** The loop of [main2]. *)
Fixpoint loop2 (rest : list string) : list printed :=
  match rest with
  | [] => []
  | v :: rest' => PStr v :: loop2 rest'
  end.

Definition main1_on (x : list string) : list printed := loop1 0 x.
Definition main2_on (x : list string) : list printed := loop2 x.

Definition main1 : list printed := main1_on ["a"; "b"; "c"]%string.
Definition main2 : list printed := main2_on ["a"; "b"; "c"]%string.

End Range.

(* ===================================================================== *)
(** * Value and pointer receivers (go_exp.go, lines 165-206)              *)
(* ===================================================================== *)

(** [pmethod] has a pointer receiver and writes through it; [vmethod] has
    a value receiver: it works on a copy of the struct, but the copy holds
    the same pointer [key] and the same map [items] as the original. *)
Module Receiver.

(** [type data struct { num int; key *string; items map[string]bool }]:
    [key] is nil or the address of a string, [items] is nil or a reference
    to a map. *)
Record data : Type := MkData {
  num : Z;
  key : option nat;
  items : option nat
}.

(** The memory: the variables of type [data], the strings that have an
    address, and the maps. *)
Record store : Type := MkStore {
  vars : list data;
  strs : list string;
  maps : list (gmap string bool)
}.

(** A call returns, or it panics and leaves the memory as it is then. *)
Inductive result : Type :=
| Done (st : store)
| Panicked (msg : string) (st : store).

Definition nil_deref : string :=
  "runtime error: invalid memory address or nil pointer dereference".
Definition nil_map : string := "assignment to entry in nil map".

(** [func (this *data) pmethod() { this.num = 7 }] *)
Definition pmethod (this : option nat) (st : store) : result :=
  match this with
  | None => Panicked nil_deref st
  | Some p =>
      Done (MkStore (alter (fun d => MkData 7 (key d) (items d)) p (vars st))
                    (strs st) (maps st))
  end.

(** [func (this data) vmethod()]: the three assignments, on the copy
    [this].  The result is the copy as the method leaves it, and what the
    call did to the memory. *)
Definition vmethod (this : data) (st : store) : data * result :=
  (* this.num = 8 *)
  let this := MkData 8 (key this) (items this) in
  (* *this.key = "v.key" *)
  match key this with
  | None => (this, Panicked nil_deref st)
  | Some k =>
      let st := MkStore (vars st) (<[k := "v.key"%string]> (strs st))
                        (maps st) in
      (* this.items["vmethod"] = true *)
      match items this with
      | None => (this, Panicked nil_map st)
      | Some m =>
          (this,
           Done (MkStore (vars st) (strs st)
                         (alter (insert "vmethod"%string true) m (maps st))))
      end
  end.

(** [d.pmethod()] and [d.vmethod()] for the variable [d] at address [p]:
    the first passes [&d], the second a copy of [d]. *)
Definition call_pmethod (p : nat) (st : store) : result :=
  pmethod (Some p) st.

Definition call_vmethod (p : nat) (st : store) : result :=
  match vars st !! p with
  | Some d => snd (vmethod d st)
  | None => Panicked nil_deref st
  end.

(** Run [f] when the call before it has returned. *)
Definition and_then (r : result) (f : store -> result) : result :=
  match r with
  | Done st => f st
  | Panicked msg st => Panicked msg st
  end.

(** What [Printf("num=%v key=%v items=%v\n", d.num, *d.key, d.items)]
    shows of the variable at address [p]. *)
Definition show (p : nat) (st : store)
  : option (Z * string * gmap string bool) :=
  d ← vars st !! p;
  k ← key d;
  str ← strs st !! k;
  m ← items d;
  mp ← maps st !! m;
  Some (num d, str, mp).

(** [main]: the three lines it prints, if nothing panics. *)
Definition main : option (list (Z * string * gmap string bool)) :=
  (* key := "key.1"; d := data{1, &key, make(map[string]bool)} *)
  let st := MkStore [MkData 1 (Some 0) (Some 0)] ["key.1"%string] [∅] in
  l1 ← show 0 st;
  match call_pmethod 0 st with
  | Panicked _ _ => None
  | Done st =>
      l2 ← show 0 st;
      match call_vmethod 0 st with
      | Panicked _ _ => None
      | Done st => l3 ← show 0 st; Some [l1; l2; l3]
      end
  end.

(** The pointers of [d] point into the memory. *)
Definition valid (d : data) (st : store) : Prop :=
  (forall k, key d = Some k -> k < length (strs st)) /\
  (forall m, items d = Some m -> m < length (maps st)).

End Receiver.

(* ===================================================================== *)
(** * What the runs print and leave behind                                *)
(* ===================================================================== *)

(** More of what holds in every state of the pool: how the lines printed
    relate to where the goroutines stand. *)
Record PoolOut (s : Pool.state) : Prop := MkPoolOut {
  out_running :
    forall w wk, Pool.workers s !! w = Some wk -> Pool.pc wk <> Pool.WStart ->
                 Pool.Running w ∈ Pool.out s;
  out_isdone :
    forall w wk, Pool.workers s !! w = Some wk -> Pool.pc wk = Pool.WExit ->
                 Pool.IsDone w ∈ Pool.out s;
  out_alldone : Pool.main s <> Pool.MExit -> Pool.AllDone ∉ Pool.out s;
  out_last : Pool.main s = Pool.MExit -> last (Pool.out s) = Some Pool.AllDone
}.

(** The goroutines whose send on [ch] went through, by the log. *)
Definition senders_of (l : list Racer.event) : list nat :=
  omap (fun e => match Racer.who e, Racer.on e, Racer.what e with
                 | Racer.Sender g, Racer.Ch, Chan.OSend => Some g
                 | _, _, _ => None
                 end) l.

Definition who_sent (s : Racer.state) : list nat := senders_of (Racer.ops s).

(** More of what holds in every state of the program with [done]: who
    sent, and what was printed. *)
Record RacerOut (count : nat) (s : Racer.state) : Prop := MkRacerOut {
  ro_who :
    match who_sent s with
    | [] => Racer.past_recv (Racer.main s) = false
    | [g] => Racer.past_recv (Racer.main s) = true /\ g < count
    | _ => False
    end;
  ro_print :
    forall v, Racer.main s = Racer.MPrint v \/ Racer.Result v ∈ Racer.out s ->
              exists g, who_sent s = [g] /\ v = Racer.value (Z.of_nat g);
  ro_sent :
    forall g sd, Racer.senders s !! g = Some sd ->
                 Racer.pc sd = Racer.GSent -> who_sent s = [g];
  ro_line :
    forall i, Racer.SentResult i ∈ Racer.out s ->
              exists g, who_sent s = [g] /\ i = Z.of_nat g;
  ro_winner :
    forall g sd, who_sent s = [g] -> Racer.senders s !! g = Some sd ->
                 Racer.pc sd = Racer.GSent \/ Racer.pc sd = Racer.GEnd;
  ro_exited :
    forall g, Racer.Exiting (Z.of_nat g) ∈ Racer.out s -> who_sent s <> [g];
  ro_early :
    Chan.closed (Racer.done s) = false ->
    forall i, Racer.Exiting i ∉ Racer.out s
}.

(** The senders that still stand at their send. *)
Definition waiting (l : list Racer.sender) : nat :=
  length (List.filter
            (fun sd => match Racer.pc sd with
                       | Racer.GSelect => true
                       | _ => false
                       end) l).

Definition waiting_pc (p : Racer.gpc) : nat :=
  match p with Racer.GSelect => 1 | _ => 0 end.

(** What holds in every state of the program that closes [ch]. *)
Record RacerCh (count : nat) (s : Racer.state) : Prop := MkRacerCh {
  rc_ch : Chan.closed (Racer.ch s) = Racer.past_close (Racer.main s);
  rc_len : length (Racer.senders s) = Racer.started count (Racer.main s);
  rc_bound :
    match Racer.main s with Racer.MSpawn i => i <= count | _ => True end;
  rc_before :
    Racer.past_recv (Racer.main s) = false ->
    Racer.panicked s = None /\
    waiting (Racer.senders s) = length (Racer.senders s);
  rc_after :
    Racer.past_recv (Racer.main s) = true ->
    waiting (Racer.senders s) + 1 = count;
  rc_panic :
    forall msg, Racer.panicked s = Some msg ->
      msg = "send on closed channel"%string /\
      Chan.closed (Racer.ch s) = true /\ 2 <= count
}.

(** The goroutines as the loop of [main] leaves them. *)
Definition fresh_senders (k : nat) : list Racer.sender :=
  (fun i => Racer.MkSender (Z.of_nat i) Racer.GSelect) <$> seq 0 k.

(** The run of the program that closes [ch] in which goroutine 0 gets its
    value through and goroutine 1 runs into the closed channel. *)
Definition crash_run (count : nat) : list Racer.action :=
  replicate (S count) (Racer.Run Racer.Main)
  ++ [Racer.Hand 0; Racer.Run Racer.Main; Racer.Run Racer.Main;
      Racer.Run (Racer.Sender 1)].

(** Two runs of [Query] on [n] sources.  In the first one [Query] is in
    [<-ch] before any goroutine has run, and goroutine [j] is the first to
    run.  In the second one every goroutine runs to its end as soon as it
    is started, before [Query] goes on. *)
Definition query_any_wins (n j : nat) : list Dispatch.goroutine :=
  replicate (S n) Dispatch.Caller ++ [Dispatch.Attempt j; Dispatch.Attempt j].

Definition query_all_given_up (n : nat) : list Dispatch.goroutine :=
  flat_map (fun i => [Dispatch.Caller; Dispatch.Attempt i; Dispatch.Attempt i])
           (seq 0 n)
  ++ [Dispatch.Caller].

(** The messages that senders bring to [ch] during a schedule. *)
Definition offers {Msg : Type} (sched : list (Timeout.action Msg)) : list Msg :=
  omap (fun a => match a with Timeout.Offer m => Some m | _ => None end) sched.

(** The messages that a state of the [select] holds: offered, received,
    or passed to [process]. *)
Definition holds {Msg : Type} (s : Timeout.state Msg) (m : Msg) : Prop :=
  Timeout.offered s = Some m \/ Timeout.pc s = Timeout.SGot m \/
  m ∈ Timeout.processed s.

(** One branch of the [select] is taken, and [process] runs in the first
    one only. *)
Definition one_branch {Msg : Type} (s : Timeout.state Msg) : Prop :=
  match Timeout.pc s with
  | Timeout.SProcessed => exists m, Timeout.processed s = [m]
  | _ => Timeout.processed s = []
  end.

(** How many elements of [data] the loop has assigned to [v] so far. *)
Definition seen (data : list string) (m : Closure.mpc) : nat :=
  match m with
  | Closure.MIter k => k
  | Closure.MGo k => S k
  | _ => length data
  end.

(** What holds in every state of the program whose goroutines read the
    loop variable. *)
Record CapInv (data : list string) (s : Closure.state) : Prop := MkCapInv {
  cap_len :
    length (Closure.gors s) =
    match Closure.main s with
    | Closure.MIter k => k
    | Closure.MGo k => k
    | _ => length data
    end;
  cap_bound :
    match Closure.main s with
    | Closure.MIter k => k <= length data
    | Closure.MGo k => k < length data
    | _ => True
    end;
  cap_v :
    match seen data (Closure.main s) with
    | 0 => Closure.v s = ""%string
    | S j => data !! j = Some (Closure.v s)
    end;
  cap_shared :
    forall g u, Closure.gors s !! g = Some u ->
                Closure.bound u = Closure.Shared;
  cap_out :
    forall g x, (g, x) ∈ Closure.out s ->
      exists k, g <= k < seen data (Closure.main s) /\ data !! k = Some x
}.

(** The two programs of lines 220-235 and 251-266 on any path and any
    suffix (the source has "AAAA/BBBBBBBBB" and "suffix"). *)
Module Rewrite.
Import Slice.

(** The two programs on any path and any suffix: [full] tells whether
    [dir1] is cut with the full slice expression. *)
Definition main_on (full : bool) (spare : nat -> nat)
    (extra : nat -> nat -> nat) (p suffix : string) : option result :=
  let '(h, path) := of_string spare [] p in
  let path0 := path in
  let sepIndex := IndexByte h path "/"%byte in
  dir1 ← (if full then slice3 path 0 sepIndex sepIndex
          else slice_to path sepIndex);
  dir2 ← slice_from path (sepIndex + 1)%Z;
  let o1 := println2 "dir1 =>" (to_string h dir1) in
  let o2 := println2 "dir2 =>" (to_string h dir2) in
  let '(h, dir1) := append extra h dir1 (list_byte_of_string suffix) in
  let '(h, sep) := of_bytes h ["/"%byte] in
  let '(h, path) := Join extra h [dir1; dir2] sep in
  let o3 := println2 "dir1 =>" (to_string h dir1) in
  let o4 := println2 "dir2 =>" (to_string h dir2) in
  let o5 := println2 "new path =>" (to_string h path) in
  Some {| out := [o1; o2; o3; o4; o5]; final := h; path0 := path0;
          dir1 := dir1; dir2 := dir2; path := path |}.

End Rewrite.

(** Whether [main] has returned. *)
Definition racer_returned (s : Racer.state) : bool :=
  match Racer.main s with Racer.MExit => true | _ => false end.

Definition pool_returned (s : Pool.state) : bool :=
  match Pool.main s with Pool.MExit => true | _ => false end.

(** A line is printed at most once; one line is printed before another
    one, wherever both are printed. *)
Definition once {A : Type} (x : A) (l : list A) : Prop :=
  forall i j, l !! i = Some x -> l !! j = Some x -> i = j.

Definition before {A : Type} (x y : A) (l : list A) : Prop :=
  forall i j, l !! i = Some x -> l !! j = Some y -> i < j.

(** How often and in which order the pool prints its lines. *)
Record PoolOnce (s : Pool.state) : Prop := MkPoolOnce {
  po_running :
    forall w, Pool.Running w ∈ Pool.out s ->
      exists wk, Pool.workers s !! w = Some wk /\ Pool.pc wk <> Pool.WStart;
  po_isdone :
    forall w, Pool.IsDone w ∈ Pool.out s ->
      exists wk, Pool.workers s !! w = Some wk /\ Pool.pc wk = Pool.WExit;
  po_running_once : forall w, once (Pool.Running w) (Pool.out s);
  po_isdone_once : forall w, once (Pool.IsDone w) (Pool.out s);
  po_order : forall w, before (Pool.Running w) (Pool.IsDone w) (Pool.out s);
  po_alldone_once : once Pool.AllDone (Pool.out s)
}.

(* ===================================================================== *)
(** * Theorems                                                            *)
(* ===================================================================== *)

(** ** Interfaces *)

Lemma IfaceVar_main_prints :
  IfaceVar.main =
  [("<nil>"%string, true); ("<nil>"%string, true); ("<nil>"%string, false)].
Proof. reflexivity. Qed.

Lemma IfaceTyped_main_prints :
  IfaceTyped.main = ["good result: <nil>"%string].
Proof. reflexivity. Qed.

Lemma IfaceExplicit_main_prints :
  IfaceExplicit.main = ["bad result (res is nil)"%string].
Proof. reflexivity. Qed.

(** For a positive argument the two closures agree: both box the address of
    the fresh struct. *)
Lemma doit_positive (arg : Z) :
  (0 < arg)%Z ->
  IfaceTyped.doit arg = Iface.IBox Iface.TPtrEmptyStruct Iface.new_struct /\
  IfaceExplicit.doit arg = IfaceTyped.doit arg.
Proof.
  intros Hpos. unfold IfaceTyped.doit, IfaceExplicit.doit.
  assert (Hgt : (arg >? 0)%Z = true) by lia.
  rewrite Hgt. split; reflexivity.
Qed.

(** C10: for every [arg <= 0] the first [doit] returns an interface that
    wraps a nil [*struct{}] pointer, and this interface is not equal to nil
    (the caller takes the [res != nil] branch); the variant with the
    explicit [return nil] returns the nil interface. *)
Theorem C10_typed_nil_is_not_nil (arg : Z) :
  (arg <= 0)%Z ->
  IfaceTyped.doit arg = Iface.IBox Iface.TPtrEmptyStruct Iface.PNil /\
  Iface.is_nil (IfaceTyped.doit arg) = false /\
  IfaceExplicit.doit arg = Iface.INil /\
  Iface.is_nil (IfaceExplicit.doit arg) = true.
Proof.
  intros Hle. unfold IfaceTyped.doit, IfaceExplicit.doit.
  assert (Hgt : (arg >? 0)%Z = false) by lia.
  rewrite Hgt. repeat split.
Qed.

Lemma C10_typed_nil_witness :
  (-1 <= 0)%Z /\
  (IfaceTyped.doit (-1) = Iface.IBox Iface.TPtrEmptyStruct Iface.PNil /\
   Iface.is_nil (IfaceTyped.doit (-1)) = false /\
   IfaceExplicit.doit (-1) = Iface.INil /\
   Iface.is_nil (IfaceExplicit.doit (-1)) = true).
Proof.
  split; [lia | apply (C10_typed_nil_is_not_nil (-1)); lia].
Defined.

(** ** Slices *)

(** A slice cut with [s[lo:hi:hi]] has no room left behind its last byte. *)
Lemma slice3_full_cap (s d : Slice.slice) (lo hi : Z) :
  Slice.slice3 s lo hi hi = Some d -> Slice.cap d = Slice.len d.
Proof.
  unfold Slice.slice3, Slice.idx. intros H.
  destruct (0 <=? lo)%Z; [|discriminate].
  destruct (0 <=? hi)%Z; [|discriminate].
  simpl in H.
  destruct (_ && _ && _); [|discriminate].
  injection H as <-. reflexivity.
Qed.

(** [append] beyond the capacity allocates: the arrays that exist stay as
    they are, and the result lives in a new one. *)
Lemma append_grow_frame extra (h : Slice.heap) (s : Slice.slice) bs :
  Slice.cap s < Slice.len s + length bs ->
  exists a,
    fst (Slice.append extra h s bs) = h ++ [a] /\
    Slice.arr (snd (Slice.append extra h s bs)) = length h.
Proof.
  intros Hcap. unfold Slice.append.
  destruct (Nat.leb_spec (Slice.len s + length bs) (Slice.cap s)) as [Hle|_];
    [lia|].
  simpl. eexists. split; reflexivity.
Qed.

(** So every slice of an existing array shows the bytes it showed before. *)
Lemma append_grow_contents extra (h : Slice.heap) (s t : Slice.slice) bs :
  Slice.cap s < Slice.len s + length bs ->
  Slice.arr t < length h ->
  Slice.contents (fst (Slice.append extra h s bs)) t = Slice.contents h t.
Proof.
  intros Hcap Ht.
  destruct (append_grow_frame extra h s bs Hcap) as (a & -> & _).
  unfold Slice.contents. rewrite lookup_app_l by exact Ht. reflexivity.
Qed.

(** [append] within the capacity stays in the array of its argument and
    writes the new bytes right behind the old ones. *)
Lemma append_in_place extra (h : Slice.heap) (s : Slice.slice) bs a :
  Slice.len s + length bs <= Slice.cap s ->
  h !! Slice.arr s = Some a ->
  Slice.arr (snd (Slice.append extra h s bs)) = Slice.arr s /\
  fst (Slice.append extra h s bs) !! Slice.arr s =
    Some (Slice.write_at a (Slice.off s + Slice.len s) bs).
Proof.
  intros Hcap Ha. unfold Slice.append.
  destruct (Nat.leb_spec (Slice.len s + length bs) (Slice.cap s)) as [_|Hgt];
    [|lia].
  simpl. split; [reflexivity|].
  rewrite list_lookup_alter_eq, Ha. reflexivity.
Qed.

(** C9: with [dir1 := path[:sepIndex]] the append of "suffix" lands in the
    array that [dir2] reads, which turns from "BBBBBBBBB" into "uffixBBBB";
    with [dir1 := path[:sepIndex:sepIndex]] the append allocates, and
    [dir2] and the bytes of the first [path] stay as they were.  This holds
    whatever room the runtime leaves behind its allocations. *)
Theorem C9_append_shares_or_copies
    (spare : nat -> nat) (extra : nat -> nat -> nat) :
  (exists r, SliceAlias.main spare extra = Some r /\
     Slice.out r =
       ["dir1 => AAAA"; "dir2 => BBBBBBBBB"; "dir1 => AAAAsuffix";
        "dir2 => uffixBBBB"; "new path => AAAAsuffix/uffixBBBB"]%string /\
     Slice.arr (Slice.dir1 r) = Slice.arr (Slice.path0 r) /\
     Slice.to_string (Slice.final r) (Slice.dir2 r) = "uffixBBBB"%string /\
     Slice.to_string (Slice.final r) (Slice.path0 r) = "AAAAsuffixBBBB"%string)
  /\
  (exists r, SliceFull.main spare extra = Some r /\
     Slice.out r =
       ["dir1 => AAAA"; "dir2 => BBBBBBBBB"; "dir1 => AAAAsuffix";
        "dir2 => BBBBBBBBB"; "new path => AAAAsuffix/BBBBBBBBB"]%string /\
     Slice.arr (Slice.dir1 r) <> Slice.arr (Slice.path0 r) /\
     Slice.to_string (Slice.final r) (Slice.dir2 r) = "BBBBBBBBB"%string /\
     Slice.to_string (Slice.final r) (Slice.path0 r) = "AAAA/BBBBBBBBB"%string).
Proof.
  split; eexists; (split; [vm_compute; reflexivity|]);
    vm_compute; repeat split; discriminate.
Qed.

(** ** Schedules *)

Section ExecFacts.
Context {A S : Type}.
Variable step : A -> S -> option S.

Lemma exec_app (l1 l2 : list A) (s : S) :
  exec step (l1 ++ l2) s =
  match exec step l1 s with Some s' => exec step l2 s' | None => None end.
Proof.
  revert s. induction l1 as [|a l1 IH]; intros s; simpl; [reflexivity|].
  destruct (step a s); [apply IH | reflexivity].
Qed.

(** A property that holds at the start and that every step keeps holds
    after every schedule. *)
Lemma exec_invariant (P : S -> Prop) :
  (forall a s s', P s -> step a s = Some s' -> P s') ->
  forall sched s s', P s -> exec step sched s = Some s' -> P s'.
Proof.
  intros Hstep sched. induction sched as [|a sched IH]; intros s s' HP H.
  - injection H as <-. exact HP.
  - simpl in H. destruct (step a s) as [s1|] eqn:E; [|discriminate].
    eapply IH; [|exact H]. eapply Hstep; eauto.
Qed.

(** When every step of a state in [P] uses up some of a measure, a
    schedule is no longer than the measure of the state it starts from. *)
Lemma exec_bounded (P : S -> Prop) (mu : S -> nat) :
  (forall a s s', P s -> step a s = Some s' -> P s' /\ mu s' < mu s) ->
  forall sched s s', P s -> exec step sched s = Some s' ->
    length sched + mu s' <= mu s.
Proof.
  intros Hstep sched. induction sched as [|a sched IH]; intros s s' HP H.
  - injection H as <-. simpl. lia.
  - simpl in H. destruct (step a s) as [s1|] eqn:E; [|discriminate].
    destruct (Hstep _ _ _ HP E) as [HP1 Hlt].
    specialize (IH _ _ HP1 H). simpl. lia.
Qed.

End ExecFacts.

(** Changing one element of a list, seen as a split of the list. *)
Lemma alter_split {A : Type} (f : A -> A) (l : list A) (i : nat) (x : A) :
  l !! i = Some x ->
  exists l1 l2, l = l1 ++ x :: l2 /\ alter f i l = l1 ++ f x :: l2 /\
                length l1 = i.
Proof.
  revert i. induction l as [|y l IH]; intros [|i] H; try discriminate.
  - injection H as ->. exists [], l. repeat split.
  - destruct (IH i H) as (l1 & l2 & -> & E & Hlen).
    exists (y :: l1), l2. simpl. repeat split; [|lia].
    f_equal. exact E.
Qed.

(** ** The worker pool *)

Section PoolFacts.
Variable workerCount itemCount : nat.

Local Abbreviation step := (Pool.step workerCount itemCount).
Local Abbreviation Step := (Pool.Step workerCount itemCount).

(** The function [step] fires exactly the rules of [Step]. *)
Lemma step_sound a s s' : step a s = Some s' -> Step a s s'.
Proof.
  unfold Pool.step. destruct (Pool.halted s) eqn:Hh; [discriminate|].
  destruct a as [[|w]|w].
  - unfold Pool.step_main. destruct (Pool.main s) eqn:Hm.
    + destruct (Nat.ltb_spec i workerCount); intros [= <-].
      * eapply Pool.StepSpawn; eauto.
      * eapply Pool.StepSpawned; eauto.
    + destruct (Nat.ltb_spec i itemCount); intros [= <-].
      eapply Pool.StepSent; eauto.
    + unfold Chan.close. destruct (Chan.closed (Pool.done s)) eqn:Hc;
        intros [= <-].
      * eapply Pool.StepClosePanic; eauto.
      * eapply Pool.StepClose; eauto.
    + destruct (Z.eqb_spec (Pool.wg s) 0); intros [= <-].
      eapply Pool.StepWait; eauto.
    + intros [= <-]. eapply Pool.StepPrint; eauto.
    + discriminate.
  - unfold Pool.doit.
    destruct (Pool.workers s !! w) as [wk|] eqn:Hw; [|discriminate].
    destruct (Pool.pc wk) eqn:Hpc.
    + intros [= <-]. eapply Pool.StepStart; eauto.
    + unfold Chan.can_recv. rewrite orb_false_r.
      destruct (Chan.closed (Pool.done s)) eqn:Hc; [|discriminate].
      destruct (Z.ltb_spec (Pool.wg s - 1) 0); intros [= <-].
      * eapply Pool.StepDonePanic; eauto.
      * eapply Pool.StepDone; eauto.
    + intros [= <-]. eapply Pool.StepHandled; eauto.
    + discriminate.
  - unfold Pool.step_hand.
    destruct (Pool.main s) eqn:Hm; try discriminate.
    destruct (Pool.workers s !! w) as [wk|] eqn:Hw; [|discriminate].
    destruct (Nat.ltb_spec i itemCount); [|discriminate].
    destruct (Pool.pc wk) eqn:Hpc; try discriminate.
    unfold Chan.send. destruct (Chan.closed (Pool.wq s)) eqn:Hc;
      intros [= <-].
    + eapply Pool.StepHandPanic; eauto.
    + eapply Pool.StepHand; eauto.
Qed.

Lemma step_complete a s s' : Step a s s' -> step a s = Some s'.
Proof.
  intros H. destruct H; unfold Pool.step;
    repeat match goal with
           | H : Pool.halted _ = false |- _ => rewrite H; clear H
           end;
    unfold Pool.step_main, Pool.doit, Pool.step_hand,
      Chan.close, Chan.send, Chan.can_recv;
    repeat match goal with
           | H : Pool.main _ = _ |- _ => rewrite H; clear H
           | H : Pool.workers _ !! _ = _ |- _ => rewrite H; clear H
           | H : Pool.pc _ = _ |- _ => rewrite H; clear H
           | H : Chan.closed _ = _ |- _ => rewrite H; clear H
           end; simpl;
    repeat match goal with
           | |- context [?a <? ?b] => destruct (Nat.ltb_spec a b); try lia
           | |- context [(?a <? ?b)%Z] => destruct (Z.ltb_spec a b); try lia
           | |- context [(?a =? ?b)%Z] => destruct (Z.eqb_spec a b); try lia
           end; reflexivity.
Qed.

End PoolFacts.

Section PoolInvariant.
Variable workerCount itemCount : nat.

Local Abbreviation step := (Pool.step workerCount itemCount).
Local Abbreviation Step := (Pool.Step workerCount itemCount).
Local Abbreviation Inv := (Pool.Inv workerCount itemCount).

Lemma alive_app l1 l2 : Pool.alive (l1 ++ l2) = Pool.alive l1 + Pool.alive l2.
Proof. unfold Pool.alive. rewrite List.filter_app, length_app. reflexivity. Qed.

Lemma alive_le l : Pool.alive l <= length l.
Proof. unfold Pool.alive. apply List.filter_length_le. Qed.

Lemma alive_cons wk l :
  Pool.alive (wk :: l) =
  (match Pool.pc wk with Pool.WExit => 0 | _ => 1 end) + Pool.alive l.
Proof. unfold Pool.alive. simpl. destruct (Pool.pc wk); reflexivity. Qed.

Lemma Inv_init : Inv Pool.init.
Proof.
  constructor; simpl; try reflexivity; try lia; try constructor.
  - intros w wk H. destruct w; discriminate.
Qed.

Lemma in_hand_app l1 l2 :
  omap Pool.held (l1 ++ l2) = omap Pool.held l1 ++ omap Pool.held l2.
Proof. apply omap_app. Qed.

(** What changes when worker [w] moves to the program point [p]. *)
Lemma at_pc_facts (l : list Pool.worker) w wk p :
  l !! w = Some wk ->
  let l' := alter (fun wk => Pool.MkWorker (Pool.workerId wk) p) w l in
  length l' = length l /\
  (forall w0 wk0, l' !! w0 = Some wk0 ->
     exists wk1, l !! w0 = Some wk1 /\ Pool.workerId wk0 = Pool.workerId wk1) /\
  Pool.alive l' + Pool.live_pc (Pool.pc wk) = Pool.alive l + Pool.live_pc p /\
  sum_list (Pool.fuel_worker <$> l') + Pool.fuel_pc (Pool.pc wk) =
    sum_list (Pool.fuel_worker <$> l) + Pool.fuel_pc p /\
  Permutation (omap Pool.held l' ++ Pool.got_pc (Pool.pc wk))
              (omap Pool.held l ++ Pool.got_pc p).
Proof.
  intros H l'. subst l'. repeat split.
  - apply length_alter.
  - intros w0 wk0 H0. destruct (decide (w = w0)) as [<-|Hne].
    + rewrite list_lookup_alter_eq, H in H0. injection H0 as <-.
      exists wk. split; [exact H | reflexivity].
    + rewrite list_lookup_alter_ne in H0 by exact Hne.
      exists wk0. split; [exact H0 | reflexivity].
  - destruct (alter_split (fun wk => Pool.MkWorker (Pool.workerId wk) p)
                l w wk H) as (l1 & l2 & -> & -> & _).
    rewrite !alive_app, !alive_cons. simpl.
    unfold Pool.live_pc. destruct (Pool.pc wk), p; lia.
  - destruct (alter_split (fun wk => Pool.MkWorker (Pool.workerId wk) p)
                l w wk H) as (l1 & l2 & -> & -> & _).
    rewrite !fmap_app, !sum_list_with_app. simpl.
    unfold Pool.fuel_worker at 2 5. simpl. lia.
  - destruct (alter_split (fun wk => Pool.MkWorker (Pool.workerId wk) p)
                l w wk H) as (l1 & l2 & -> & -> & _).
    rewrite !in_hand_app. simpl. unfold Pool.held, Pool.got_pc. simpl.
    destruct (Pool.pc wk), p; simpl; rewrite ?app_nil_r;
      try reflexivity; solve_Permutation.
Qed.

Lemma Inv_step a s s' : Step a s s' -> Inv s -> Inv s'.
Proof.
  intros HS HI. destruct HI.
  destruct HS;
    unfold Pool.at_pc, Pool.closes, Pool.handled, Pool.in_hand in *;
    repeat match goal with
           | H : Pool.main _ = _ |- _ => rewrite H in *
           end;
    simpl in *.
  all: try (exfalso; congruence).
  all: try match goal with
       | H : Pool.workers ?s !! ?w = Some ?wk
         |- context [alter (fun wk0 => Pool.MkWorker (Pool.workerId wk0) ?p)
                           ?w (Pool.workers ?s)] =>
           pose proof (lookup_lt_Some _ _ _ H) as Hlt;
           pose proof (inv_ids _ _ H) as Hid;
           destruct (at_pc_facts _ w wk p H)
             as (Hlen & Hids & Halive & _ & Hhand);
           match goal with
           | Hpc : Pool.pc wk = _ |- _ => rewrite Hpc in Halive, Hhand
           end;
           simpl in Halive, Hhand; rewrite ?app_nil_r in Hhand
       end.
  all: try match goal with
       | H1 : ?i <= ?n, H2 : ?n <= ?i |- _ =>
           assert (i = n) by lia; subst i
       end.
  all: try match goal with
       | H : Pool.wg _ = 0%Z |- _ =>
           assert (Pool.alive (Pool.workers s) = 0) by lia
       end.
  all: constructor; unfold Pool.closes, Pool.handled, Pool.in_hand; simpl.
  all: rewrite ?omap_app, ?fmap_app, ?List.filter_app, ?length_app,
         ?alive_app, ?alive_cons; simpl.
  all: change (Pool.alive []) with 0.
  all: rewrite ?app_nil_r, ?Nat.add_0_r.
  all: try assumption; try discriminate; try lia.
  (* the workers that have not returned *)
  all: try solve [ intros Hc; try specialize (inv_alive Hc);
                   rewrite ?alive_app, ?alive_cons; simpl; congruence || lia ].
  all: try solve [ intros [Hm|Hm]; try discriminate Hm;
                   first [ lia
                         | assert (Pool.alive (Pool.workers s) = 0)
                             by (apply inv_fin; auto); lia ] ].
  (* the names of the workers *)
  all: try solve [ intros ? ? Hlk; destruct (Hids _ _ Hlk) as (? & ? & ->);
                   eauto ].
  all: try solve [ intros ? ? Hlk; apply lookup_app_Some in Hlk;
                   destruct Hlk as [Hlk|[Hge Hlk]]; [eauto|];
                   apply list_lookup_singleton_Some in Hlk;
                   destruct Hlk as [Hz <-]; simpl; lia ].
  (* the log of the channels *)
  all: try solve [ apply Forall_app; split; [assumption | repeat constructor] ].
  all: try solve [ rewrite inv_done in inv_closes; lia ].
  (* who handled what *)
  all: rewrite ?Hlen.
  all: try assumption.
  all: try solve [ eapply Forall_impl; [eassumption | simpl; intros; lia] ].
  all: try solve [ apply Forall_app; split;
                   [assumption | repeat constructor; simpl; lia] ].
  all: try (change (0 :: seq 1 i) with (seq 0 (S i)); rewrite seq_S; simpl).
  all: try solve [ rewrite Hhand; assumption ].
  all: try solve [ rewrite Hhand, app_assoc, inv_items; reflexivity ].
  all: try solve [ rewrite <- inv_items, <- Hhand, <- app_assoc;
                   apply Permutation_app_head, Permutation_app_comm ].
Qed.

Lemma Inv_exec sched s :
  exec step sched Pool.init = Some s -> Inv s.
Proof.
  apply (exec_invariant step Inv); [|apply Inv_init].
  intros a s1 s2 HI H. eapply Inv_step; [apply step_sound|]; eassumption.
Qed.

(** Every step uses up fuel. *)
Lemma fuel_step a s s' :
  Step a s s' -> Inv s ->
  Pool.fuel workerCount itemCount s' < Pool.fuel workerCount itemCount s.
Proof.
  intros HS HI. destruct HI.
  destruct HS; unfold Pool.fuel, Pool.at_pc in *;
    repeat match goal with
           | H : Pool.main _ = _ |- _ => rewrite H in *
           end;
    simpl in *; rewrite ?inv_panic.
  all: try (exfalso; congruence).
  all: try match goal with
       | H : Pool.workers ?s !! ?w = Some ?wk
         |- context [alter (fun wk0 => Pool.MkWorker (Pool.workerId wk0) ?p)
                           ?w (Pool.workers ?s)] =>
           destruct (at_pc_facts _ w wk p H) as (_ & _ & _ & Hfuel & _);
           match goal with
           | Hpc : Pool.pc wk = _ |- _ => rewrite Hpc in Hfuel
           end;
           simpl in Hfuel
       end.
  all: rewrite ?fmap_app, ?sum_list_with_app; simpl; try lia.
Qed.

Lemma exec_length sched s :
  exec step sched Pool.init = Some s ->
  length sched + Pool.fuel workerCount itemCount s
  <= 4 * workerCount + 3 * itemCount + 6.
Proof.
  intros H.
  assert (E : Pool.fuel workerCount itemCount Pool.init
              = 4 * workerCount + 3 * itemCount + 6)
    by (unfold Pool.fuel; simpl; lia).
  rewrite <- E.
  apply (exec_bounded step Inv (Pool.fuel workerCount itemCount));
    [|apply Inv_init|exact H].
  intros a s1 s2 HI Hs. apply step_sound in Hs. split.
  - eapply Inv_step; eassumption.
  - eapply fuel_step; eassumption.
Qed.

Lemma exited_not_alive (l : list Pool.worker) w wk :
  l !! w = Some wk -> Pool.pc wk = Pool.WExit -> Pool.alive l < length l.
Proof.
  intros H Hpc.
  destruct (alter_split id l w wk H) as (l1 & l2 & -> & _ & _).
  rewrite alive_app, alive_cons, Hpc, length_app. simpl.
  pose proof (alive_le l1). pose proof (alive_le l2). lia.
Qed.

Lemma alive_pos (l : list Pool.worker) :
  0 < Pool.alive l ->
  exists w wk, l !! w = Some wk /\ Pool.pc wk <> Pool.WExit.
Proof.
  induction l as [|wk l IH]; [unfold Pool.alive; simpl; lia|].
  rewrite alive_cons. intros H.
  destruct (Pool.pc wk) eqn:Hpc.
  4: { destruct IH as (w & wk' & Hl & Hne); [simpl in H; lia|].
       exists (S w), wk'. split; assumption. }
  all: exists 0, wk; split; [reflexivity | congruence].
Qed.

(** With a worker at hand the pool is never stuck before [main] returns. *)
Lemma pool_progress s :
  1 <= workerCount -> Inv s -> Pool.main s <> Pool.MExit ->
  exists a s', step a s = Some s'.
Proof.
  intros HN HI Hm. destruct HI.
  assert (Hh : Pool.halted s = false).
  { unfold Pool.halted. rewrite inv_panic.
    destruct (Pool.main s); congruence. }
  assert (Hworker : forall w wk,
             Pool.workers s !! w = Some wk ->
             Pool.pc wk = Pool.WStart \/ (exists m, Pool.pc wk = Pool.WGot m)
             \/ (Pool.pc wk = Pool.WSelect /\
                 Chan.closed (Pool.done s) = true) ->
             exists s', step (Pool.Run (Pool.Worker w)) s = Some s').
  { intros w wk Hw Hpc. unfold Pool.step, Pool.doit.
    rewrite Hh, Hw.
    destruct Hpc as [-> | [[m ->] | [-> Hc]]]; try (eexists; reflexivity).
    unfold Chan.can_recv. rewrite Hc. simpl.
    destruct (_ <? _)%Z; eexists; reflexivity. }
  destruct (Pool.main s) eqn:Hmain; simpl in *.
  - exists (Pool.Run Pool.Main). unfold Pool.step, Pool.step_main.
    rewrite Hh, Hmain. destruct (_ <? _); eexists; reflexivity.
  - destruct (Nat.ltb_spec i itemCount) as [Hlt|Hge].
    + destruct (Pool.workers s) as [|wk l] eqn:Hws; [simpl in *; lia|].
      assert (Hw0 : Pool.workers s !! 0 = Some wk)
        by (rewrite Hws; reflexivity).
      destruct (Pool.pc wk) eqn:Hpc.
      * exists (Pool.Run (Pool.Worker 0)). eapply Hworker; eauto.
      * exists (Pool.Hand 0). unfold Pool.step, Pool.step_hand.
        rewrite Hh, Hmain, Hw0, Hpc.
        destruct (Nat.ltb_spec i itemCount); [|lia].
        unfold Chan.send. rewrite inv_wq. eexists; reflexivity.
      * exists (Pool.Run (Pool.Worker 0)). eapply Hworker; eauto.
      * pose proof (exited_not_alive _ _ _ Hw0 Hpc) as Hlt'.
        rewrite <- Hws in inv_alive. rewrite inv_alive in Hlt' by assumption.
        lia.
    + exists (Pool.Run Pool.Main). unfold Pool.step, Pool.step_main.
      rewrite Hh, Hmain.
      destruct (Nat.ltb_spec i itemCount); [lia|]. eexists; reflexivity.
  - exists (Pool.Run Pool.Main). unfold Pool.step, Pool.step_main.
    rewrite Hh, Hmain. unfold Chan.close.
    rewrite inv_done. eexists; reflexivity.
  - destruct (Z.eqb_spec (Pool.wg s) 0) as [Hz|Hnz].
    + exists (Pool.Run Pool.Main). unfold Pool.step, Pool.step_main.
      rewrite Hh, Hmain, Hz. eexists; reflexivity.
    + destruct (alive_pos (Pool.workers s)) as (w & wk & Hw & Hne); [lia|].
      exists (Pool.Run (Pool.Worker w)). eapply Hworker; [exact Hw|].
      destruct (Pool.pc wk); auto; [|congruence]. eauto.
  - exists (Pool.Run Pool.Main). unfold Pool.step, Pool.step_main.
    rewrite Hh, Hmain. eexists; reflexivity.
  - congruence.
Qed.

End PoolInvariant.

(** C1: with [workerCount >= 1] workers and [itemCount >= 0] items, every
    item that [main] sends is received and printed by exactly one worker,
    exactly once.  At every point of every run no item has been handled
    twice and only items that were sent by then are handled, by workers
    that exist; the run cannot get stuck before [main] returns, it is no
    longer than [4 * workerCount + 3 * itemCount + 6] steps, and when
    [main] has returned the items handled are exactly [0 .. itemCount-1].
    The shutdown of the source comes after the last send and a worker
    prints the item it holds before it looks at [done] again, so no item
    is in flight when the workers leave. *)
Theorem C1_each_item_handled_once
    (workerCount itemCount : nat) (sched : list Pool.action) (s : Pool.state) :
  1 <= workerCount ->
  exec (Pool.step workerCount itemCount) sched Pool.init = Some s ->
  NoDup (Pool.handled s).*2 /\
  (forall w m, (w, m) ∈ Pool.handled s -> w < workerCount /\ m < itemCount) /\
  (Pool.main s = Pool.MExit ->
     Pool.in_hand s = [] /\ (Pool.handled s).*2 ≡ₚ seq 0 itemCount) /\
  (Pool.main s <> Pool.MExit ->
     exists a s', Pool.step workerCount itemCount a s = Some s') /\
  length sched <= 4 * workerCount + 3 * itemCount + 6.
Proof.
  intros HN Hexec.
  pose proof (Inv_exec _ _ _ _ Hexec) as HI.
  pose proof (exec_length _ _ _ _ Hexec) as Hlen.
  pose proof HI as [? ? ? ? Hbound ? ? Hfin ? Hitems Hwho ? ?].
  assert (Hsent : Pool.sent itemCount (Pool.main s) <= itemCount).
  { destruct (Pool.main s); simpl in *; lia. }
  assert (Hstarted : length (Pool.workers s) <= workerCount).
  { destruct (Pool.main s); simpl in *; lia. }
  assert (Hnd : NoDup ((Pool.handled s).*2 ++ Pool.in_hand s)).
  { rewrite Hitems. apply NoDup_seq. }
  split; [|split; [|split; [|split]]].
  - apply NoDup_app in Hnd. tauto.
  - intros w m Hin. split.
    + rewrite Forall_forall in Hwho. specialize (Hwho _ Hin).
      simpl in Hwho. lia.
    + assert (Hm : m ∈ (Pool.handled s).*2 ++ Pool.in_hand s).
      { apply elem_of_app. left. apply list_elem_of_fmap.
        exists (w, m). split; [reflexivity | exact Hin]. }
      rewrite Hitems in Hm. apply elem_of_seq in Hm. lia.
  - intros Hm.
    assert (Hnone : Pool.in_hand s = []).
    { specialize (Hfin (or_intror Hm)). unfold Pool.in_hand.
      revert Hfin. generalize (Pool.workers s). clear.
      induction l as [|wk l IH]; [reflexivity|].
      rewrite alive_cons. simpl. unfold Pool.held at 1.
      destruct (Pool.pc wk); simpl; try lia. exact IH. }
    split; [exact Hnone|].
    rewrite Hnone, app_nil_r, Hm in Hitems. exact Hitems.
  - intros Hm. apply pool_progress; assumption.
  - lia.
Qed.

(** The run of the source ([workerCount = 2], two items) under the schedule
    [Pool.demo]. *)
Lemma C1_each_item_handled_once_witness :
  exists s,
    exec (Pool.step 2 2) Pool.demo Pool.init = Some s /\
    Pool.main s = Pool.MExit /\
    Pool.handled s = [(1, 1); (0, 0)] /\
    (Pool.handled s).*2 ≡ₚ seq 0 2.
Proof.
  eexists. split; [vm_compute; reflexivity|].
  split; [reflexivity|]. split; [reflexivity|].
  refine (proj2 (proj1 (proj2 (proj2
    (C1_each_item_handled_once 2 2 Pool.demo _ _ _))) _)).
  - lia.
  - vm_compute; reflexivity.
  - reflexivity.
Defined.

(** ** The first result of several senders *)

(** Case analysis on a step that fired: one goal for each way through the
    [match]es of the step function. *)
Ltac break_step H :=
  repeat match type of H with
         | context [match ?x with _ => _ end] =>
             lazymatch x with
             | context [match _ with _ => _ end] => fail
             | _ => destruct x eqn:?; try discriminate H
             end
         end;
  try (injection H as <-).

Ltac bool_facts :=
  repeat match goal with
         | H : (_ <? _) = true |- _ => apply Nat.ltb_lt in H
         | H : (_ <? _) = false |- _ => apply Nat.ltb_ge in H
         | H : (_ <? _)%Z = true |- _ => apply Z.ltb_lt in H
         | H : (_ <? _)%Z = false |- _ => apply Z.ltb_ge in H
         | H : (_ =? _)%Z = true |- _ => apply Z.eqb_eq in H
         | H : (_ =? _)%Z = false |- _ => apply Z.eqb_neq in H
         end.

Section RacerFacts.
Variable count : nat.

Local Abbreviation step := (Racer.step Racer.CloseDone count).
Local Abbreviation Inv := (Racer.Inv count).

(** What changes when sender [g] moves to the program point [p]. *)
Lemma racer_at_pc_facts (l : list Racer.sender) g sd p :
  l !! g = Some sd ->
  let l' := alter (fun sd => Racer.MkSender (Racer.idx sd) p) g l in
  length l' = length l /\
  (forall g0 sd0, l' !! g0 = Some sd0 ->
     exists sd1, l !! g0 = Some sd1 /\ Racer.idx sd0 = Racer.idx sd1 /\
                 (Racer.pc sd0 = Racer.pc sd1 \/
                  (g0 = g /\ Racer.pc sd0 = p))) /\
  sum_list ((fun sd => Racer.fuel_pc (Racer.pc sd)) <$> l')
    + Racer.fuel_pc (Racer.pc sd) =
  sum_list ((fun sd => Racer.fuel_pc (Racer.pc sd)) <$> l) + Racer.fuel_pc p.
Proof.
  intros H l'. subst l'. repeat split.
  - apply length_alter.
  - intros g0 sd0 H0. destruct (decide (g = g0)) as [<-|Hne].
    + rewrite list_lookup_alter_eq, H in H0. injection H0 as <-.
      exists sd. repeat split; [exact H | right; split; reflexivity].
    + rewrite list_lookup_alter_ne in H0 by exact Hne.
      exists sd0. repeat split; [exact H0 | left; reflexivity].
  - destruct (alter_split (fun sd => Racer.MkSender (Racer.idx sd) p)
                l g sd H) as (l1 & l2 & -> & -> & _).
    rewrite !fmap_app, !sum_list_with_app. simpl. lia.
Qed.

Lemma racer_Inv_init : Inv Racer.init.
Proof.
  constructor; simpl; try reflexivity; try lia; try constructor.
  all: intros g sd H; destruct g; discriminate.
Qed.

Lemma racer_Inv_step a s s' : step a s = Some s' -> Inv s -> Inv s'.
Proof.
  intros H HI. destruct HI.
  unfold Racer.step, Racer.step_main, Racer.step_hand, Racer.step_sender,
    Racer.halted, Chan.close, Chan.send, Chan.can_recv in H.
  rewrite inv_panic, inv_ch, ?orb_false_r in H.
  destruct a as [[|g]|g]; break_step H; bool_facts;
    unfold Racer.at_pc, Racer.closes in *; simpl in *.
  all: try congruence.
  all: try match goal with
       | H : Racer.senders ?s !! ?g = Some ?sd
         |- context [alter (fun sd0 => Racer.MkSender (Racer.idx sd0) ?p)
                           ?g (Racer.senders ?s)] =>
           destruct (racer_at_pc_facts _ g sd p H) as (Hlen & Hlk & _)
       end.
  all: constructor; unfold Racer.closes; simpl.
  all: repeat match goal with
              | H : Racer.main _ = _ |- _ => rewrite H
              | H : Chan.closed _ = _ |- _ => rewrite H
              end; simpl.
  all: rewrite ?List.filter_app, ?length_app; simpl.
  all: rewrite ?Nat.add_0_r, ?Hlen.
  all: try assumption; try discriminate; try lia; try congruence.
  all: try solve [ apply Forall_app; split; [assumption | repeat constructor] ].
  all: try solve [ rewrite inv_done in inv_closes; lia ].
  all: try solve [ intros ? ? Hl; destruct (Hlk _ _ Hl) as (? & ? & -> & _);
                   eauto ].
  all: try solve [ intros _ ? ? Hl;
                   destruct (Hlk _ _ Hl) as (? & Hl' & _ & [E|[_ E]]);
                   rewrite E; [eauto | discriminate] ].
  all: try solve [ intros Hp ? ? Hl;
                   match goal with
                   | H : Racer.senders _ !! _ = Some ?sd, E : Racer.pc ?sd = _
                     |- _ => rewrite (inv_waiting Hp _ _ H) in E; discriminate
                   end ].
  all: try solve [ intros ? ? ? Hl; apply lookup_app_Some in Hl;
                   destruct Hl as [Hl|[Hge Hl]]; [eauto|];
                   apply list_lookup_singleton_Some in Hl;
                   destruct Hl as [Hz <-]; simpl; discriminate || reflexivity ].
  all: try solve [ intros ? ? Hl; apply lookup_app_Some in Hl;
                   destruct Hl as [Hl|[Hge Hl]]; [eauto|];
                   apply list_lookup_singleton_Some in Hl;
                   destruct Hl as [Hz <-]; simpl; f_equal; lia ].
  all: intros _; apply inv_exiting; congruence.
Qed.

Lemma racer_Inv_exec sched s :
  exec step sched Racer.init = Some s -> Inv s.
Proof.
  apply (exec_invariant step Inv); [|apply racer_Inv_init].
  intros a s1 s2 HI H. eapply racer_Inv_step; eassumption.
Qed.

Lemma racer_fuel_step a s s' :
  step a s = Some s' -> Inv s ->
  Racer.fuel count s' < Racer.fuel count s.
Proof.
  intros H HI. destruct HI.
  unfold Racer.step, Racer.step_main, Racer.step_hand, Racer.step_sender,
    Racer.halted, Chan.close, Chan.send, Chan.can_recv in H.
  rewrite inv_panic, inv_ch, ?orb_false_r in H.
  destruct a as [[|g]|g]; break_step H; bool_facts;
    unfold Racer.at_pc, Racer.fuel in *; simpl in *; rewrite ?inv_panic.
  all: try congruence.
  all: try match goal with
       | H : Racer.senders ?s !! ?g = Some ?sd
         |- context [alter (fun sd0 => Racer.MkSender (Racer.idx sd0) ?p)
                           ?g (Racer.senders ?s)] =>
           destruct (racer_at_pc_facts _ g sd p H) as (_ & _ & Hfuel);
           match goal with
           | Hpc : Racer.pc sd = _ |- _ => rewrite Hpc in Hfuel
           end;
           simpl in Hfuel
       end.
  all: repeat match goal with
              | H : Racer.main _ = _ |- _ => rewrite H
              end; simpl.
  all: rewrite ?fmap_app, ?sum_list_with_app; simpl; lia.
Qed.

Lemma racer_exec_length sched s :
  exec step sched Racer.init = Some s ->
  length sched + Racer.fuel count s <= 4 * count + 7.
Proof.
  intros H.
  assert (E : Racer.fuel count Racer.init = 4 * count + 7)
    by (unfold Racer.fuel; simpl; lia).
  rewrite <- E.
  apply (exec_bounded step Inv (Racer.fuel count));
    [|apply racer_Inv_init|exact H].
  intros a s1 s2 HI Hs. split.
  - eapply racer_Inv_step; eassumption.
  - eapply racer_fuel_step; eassumption.
Qed.

(** With a sender at hand [main] always gets its value: the program is
    never stuck before [main] returns. *)
Lemma racer_progress s :
  1 <= count -> Inv s -> Racer.main s <> Racer.MExit ->
  exists a s', step a s = Some s'.
Proof.
  intros HN HI Hm. destruct HI.
  assert (Hh : Racer.halted s = false).
  { unfold Racer.halted. rewrite inv_panic.
    destruct (Racer.main s); congruence. }
  destruct (Racer.main s) eqn:Hmain; simpl in *.
  - exists (Racer.Run Racer.Main). unfold Racer.step, Racer.step_main.
    rewrite Hh, Hmain. destruct (_ <? _); eexists; reflexivity.
  - destruct (Racer.senders s) as [|sd l] eqn:Hs; [simpl in *; lia|].
    assert (H0 : Racer.senders s !! 0 = Some sd) by (rewrite Hs; reflexivity).
    exists (Racer.Hand 0). unfold Racer.step, Racer.step_hand.
    rewrite <- Hs in inv_waiting.
    rewrite Hh, Hmain, H0, (inv_waiting eq_refl _ _ H0).
    unfold Chan.send. rewrite inv_ch. eexists; reflexivity.
  - exists (Racer.Run Racer.Main). unfold Racer.step, Racer.step_main.
    rewrite Hh, Hmain. eexists; reflexivity.
  - exists (Racer.Run Racer.Main). unfold Racer.step, Racer.step_main.
    rewrite Hh, Hmain. unfold Chan.close. rewrite inv_done.
    eexists; reflexivity.
  - exists (Racer.Run Racer.Main). unfold Racer.step, Racer.step_main.
    rewrite Hh, Hmain. eexists; reflexivity.
  - congruence.
Qed.

(** Once [done] is closed, a sender that has not returned can take its
    next step whenever the scheduler picks it: none waits on [ch]. *)
Lemma racer_sender_enabled s g sd :
  Inv s -> Racer.main s <> Racer.MExit ->
  Chan.closed (Racer.done s) = true ->
  Racer.senders s !! g = Some sd -> Racer.pc sd <> Racer.GEnd ->
  exists s', step (Racer.Run (Racer.Sender g)) s = Some s'.
Proof.
  intros HI Hm Hc Hg Hpc. destruct HI.
  assert (Hh : Racer.halted s = false).
  { unfold Racer.halted. rewrite inv_panic.
    destruct (Racer.main s); congruence. }
  unfold Racer.step, Racer.step_sender. rewrite Hh, Hg.
  destruct (Racer.pc sd); try congruence; try (eexists; reflexivity).
  unfold Chan.can_recv. rewrite Hc. eexists; reflexivity.
Qed.

End RacerFacts.

(** The first program does what its comment says: after [main] has closed
    [ch], the send of another goroutine panics. *)
Lemma racer_close_ch_panics :
  exists s,
    exec (Racer.step Racer.CloseCh 3) Racer.crash_demo Racer.init = Some s /\
    Racer.panicked s = Some "send on closed channel"%string.
Proof. eexists. split; vm_compute; reflexivity. Qed.


(** ** The first answer of several databases *)

Section DispatchFacts.
Context {Conn Result : Type}.
Variable DoQuery : Conn -> string -> Result.
Variable conns : list Conn.
Variable query : string.

Local Abbreviation step := (Dispatch.step Conn Result DoQuery conns query).
Local Abbreviation Inv := (Dispatch.Inv Conn Result DoQuery conns query).
Local Abbreviation fuel := (Dispatch.fuel Conn Result conns).

Lemma winners_app (l1 l2 : list (Dispatch.attempt Conn Result)) :
  Dispatch.winners (l1 ++ l2) = Dispatch.winners l1 + Dispatch.winners l2.
Proof.
  unfold Dispatch.winners. rewrite List.filter_app, length_app. reflexivity.
Qed.

Lemma winners_cons (a : Dispatch.attempt Conn Result) l :
  Dispatch.winners (a :: l)
  = Dispatch.win_pc (Dispatch.pc a) + Dispatch.winners l.
Proof.
  unfold Dispatch.winners. simpl. destruct (Dispatch.pc a); reflexivity.
Qed.

(** What changes when attempt [i] moves to the program point [p]. *)
Lemma dispatch_at_pc_facts (l : list (Dispatch.attempt Conn Result)) i a p :
  l !! i = Some a ->
  let l' := alter (fun a => Dispatch.MkAttempt (Dispatch.c a) p) i l in
  length l' = length l /\
  (forall j b, l' !! j = Some b ->
     (j = i /\ b = Dispatch.MkAttempt (Dispatch.c a) p) \/
     (j <> i /\ l !! j = Some b)) /\
  Dispatch.winners l' + Dispatch.win_pc (Dispatch.pc a)
  = Dispatch.winners l + Dispatch.win_pc p /\
  sum_list ((fun a => Dispatch.fuel_pc (Dispatch.pc a)) <$> l')
    + Dispatch.fuel_pc (Dispatch.pc a) =
  sum_list ((fun a => Dispatch.fuel_pc (Dispatch.pc a)) <$> l)
    + Dispatch.fuel_pc p.
Proof.
  intros H l'. subst l'. repeat split.
  - apply length_alter.
  - intros j b Hl. destruct (decide (i = j)) as [<-|Hne].
    + rewrite list_lookup_alter_eq, H in Hl. injection Hl as <-.
      left. split; reflexivity.
    + rewrite list_lookup_alter_ne in Hl by exact Hne.
      right. split; [congruence | exact Hl].
  - destruct (alter_split (fun a => Dispatch.MkAttempt (Dispatch.c a) p)
                l i a H) as (l1 & l2 & -> & -> & _).
    rewrite !winners_app, !winners_cons. simpl. lia.
  - destruct (alter_split (fun a => Dispatch.MkAttempt (Dispatch.c a) p)
                l i a H) as (l1 & l2 & -> & -> & _).
    rewrite !fmap_app, !sum_list_with_app. simpl. lia.
Qed.

Lemma dispatch_Inv_init : Inv Dispatch.init.
Proof.
  constructor; simpl; try reflexivity; try lia; try constructor.
  all: intros j; intros; destruct j; discriminate.
Qed.

Lemma dispatch_Inv_step g s s' : step g s = Some s' -> Inv s -> Inv s'.
Proof.
  intros H HI. destruct HI.
  unfold Dispatch.step, Dispatch.Query, Dispatch.step_attempt,
    Chan.send, Dispatch.receiving in H.
  rewrite inv_panic, ?inv_ch in H.
  destruct g as [|i]; break_step H; unfold Dispatch.at_pc in *; simpl in *.
  all: try match goal with
       | H : Dispatch.attempts ?s !! ?i = Some ?a
         |- context [alter (fun a0 => Dispatch.MkAttempt (Dispatch.c a0) ?p)
                           ?i (Dispatch.attempts ?s)] =>
           destruct (dispatch_at_pc_facts _ i a p H)
             as (Hlen & Hlk & Hwin & _);
           match goal with
           | Hpc : Dispatch.pc a = _ |- _ => rewrite Hpc in Hwin
           end;
           simpl in Hwin
       end.
  all: try match goal with
       | H : conns !! _ = Some _ |- _ => pose proof (lookup_lt_Some _ _ _ H)
       | H : conns !! _ = None |- _ => apply lookup_ge_None in H
       end.
  all: constructor; simpl;
    repeat match goal with
           | H : Dispatch.caller _ = _ |- _ => rewrite H in *
           end; simpl in *.
  all: rewrite ?winners_app, ?winners_cons, ?length_app; simpl; rewrite ?Hlen.
  all: try assumption; try discriminate; try lia; try congruence.
  all: try solve [ apply Forall_app; split;
                   [assumption | repeat constructor; discriminate] ].
  all: try solve [ change (Dispatch.winners
                             (@nil (Dispatch.attempt Conn Result))) with 0;
                   lia ].
  all: intros j b; intros;
    repeat match goal with
           | Hl : (_ ++ [_]) !! _ = Some _ |- _ =>
               apply lookup_snoc_Some in Hl;
               destruct Hl as [[_ Hl]|[-> <-]]
           | Hl : alter _ _ _ !! _ = Some _ |- _ =>
               destruct (Hlk _ _ Hl) as [[-> ->]|[? ?]]; clear Hl
           end; simpl in *; subst.
  all: try discriminate; try congruence; eauto.
  all: try solve [ exfalso;
                   match goal with
                   | Hl : Dispatch.attempts _ !! _ = Some ?b,
                     Hp : Dispatch.pc ?b = Dispatch.ASent |- _ =>
                       discriminate (inv_sent _ _ Hl Hp)
                   end ].
  all: try solve [ f_equal; eauto ].
Qed.

Lemma dispatch_Inv_exec sched s :
  exec step sched Dispatch.init = Some s -> Inv s.
Proof.
  apply (exec_invariant step Inv); [|apply dispatch_Inv_init].
  intros a s1 s2 HI H. eapply dispatch_Inv_step; eassumption.
Qed.

Lemma dispatch_fuel_step g s s' :
  step g s = Some s' -> Inv s -> fuel s' < fuel s.
Proof.
  intros H HI. destruct HI.
  unfold Dispatch.step, Dispatch.Query, Dispatch.step_attempt,
    Chan.send, Dispatch.receiving in H.
  rewrite inv_panic, ?inv_ch in H.
  destruct g as [|i]; break_step H;
    unfold Dispatch.at_pc, Dispatch.fuel in *; simpl in *.
  all: try match goal with
       | H : Dispatch.attempts ?s !! ?i = Some ?a
         |- context [alter (fun a0 => Dispatch.MkAttempt (Dispatch.c a0) ?p)
                           ?i (Dispatch.attempts ?s)] =>
           destruct (dispatch_at_pc_facts _ i a p H) as (_ & _ & _ & Hfuel);
           match goal with
           | Hpc : Dispatch.pc a = _ |- _ => rewrite Hpc in Hfuel
           end;
           simpl in Hfuel
       end.
  all: try match goal with
       | H : conns !! _ = Some _ |- _ => pose proof (lookup_lt_Some _ _ _ H)
       | H : conns !! _ = None |- _ => apply lookup_ge_None in H
       end.
  all: repeat match goal with
              | H : Dispatch.caller _ = _ |- _ => rewrite H in *
              end; simpl in *.
  all: rewrite ?fmap_app, ?sum_list_with_app; simpl; lia.
Qed.

Lemma dispatch_exec_length sched s :
  exec step sched Dispatch.init = Some s ->
  length sched + fuel s <= 3 * length conns + 2.
Proof.
  intros H.
  assert (E : fuel Dispatch.init = 3 * length conns + 2)
    by (unfold Dispatch.fuel; simpl; lia).
  rewrite <- E.
  apply (exec_bounded step Inv fuel); [|apply dispatch_Inv_init|exact H].
  intros a s1 s2 HI Hs. split.
  - eapply dispatch_Inv_step; eassumption.
  - eapply dispatch_fuel_step; eassumption.
Qed.

(** The [select] of an attempt has a [default]: whatever [Query] is doing,
    the attempt gets through it in one step. *)
Lemma attempt_select_enabled s i a r :
  Inv s ->
  Dispatch.attempts s !! i = Some a -> Dispatch.pc a = Dispatch.ASelect r ->
  exists s',
    step (Dispatch.Attempt i) s = Some s' /\
    Dispatch.panicked s' = None /\
    Dispatch.attempts s' !! i =
      Some (Dispatch.MkAttempt (Dispatch.c a)
              (if Dispatch.receiving s then Dispatch.ASent
               else Dispatch.ADropped)) /\
    Dispatch.caller s' =
      (if Dispatch.receiving s then Dispatch.CRet r else Dispatch.caller s) /\
    (forall k, k <> i -> Dispatch.attempts s' !! k = Dispatch.attempts s !! k).
Proof.
  intros HI Hi Hpc. destruct HI.
  unfold Dispatch.step, Dispatch.step_attempt, Chan.send.
  rewrite inv_panic, Hi, Hpc, inv_ch.
  destruct (Dispatch.receiving s); eexists; (split; [reflexivity|]);
    unfold Dispatch.at_pc; simpl; rewrite list_lookup_alter_eq, Hi;
    repeat split; try assumption;
    intros k Hk; apply list_lookup_alter_ne; congruence.
Qed.

Lemma winners_pos (l : list (Dispatch.attempt Conn Result)) :
  0 < Dispatch.winners l ->
  exists j a, l !! j = Some a /\ Dispatch.pc a = Dispatch.ASent.
Proof.
  induction l as [|a l IH].
  - unfold Dispatch.winners. simpl. lia.
  - rewrite winners_cons. intros H.
    destruct (Dispatch.pc a) eqn:Hpc.
    3: { exists 0, a. split; [reflexivity | exact Hpc]. }
    all: destruct IH as (j & b & Hl & Hb); [simpl in H; lia|];
      exists (S j), b; split; assumption.
Qed.

(** [Query] returns only what an attempt has handed to it: the answer of
    the database that this attempt was started for. *)
Lemma returned_is_an_answer s r :
  Inv s -> Dispatch.returned s = Some r ->
  exists j a, Dispatch.attempts s !! j = Some a /\
              Dispatch.pc a = Dispatch.ASent /\
              conns !! j = Some (Dispatch.c a) /\
              r = DoQuery (Dispatch.c a) query.
Proof.
  intros HI Hr. pose proof HI as [? ? ? ? Hconn ? Hsent Hwin ?].
  unfold Dispatch.returned in Hr.
  destruct (Dispatch.caller s) as [| |r0] eqn:Hc; try discriminate.
  injection Hr as ->.
  destruct (winners_pos (Dispatch.attempts s)) as (j & a & Hl & Ha); [lia|].
  exists j, a. repeat split; try assumption; [eauto|].
  specialize (Hsent _ _ Hl Ha). congruence.
Qed.

(** Without a database there is one step to take, into [<-ch], and there
    [Query] stays. *)
Lemma query_no_sources sched s :
  conns = [] ->
  exec step sched Dispatch.init = Some s ->
  (sched = [] /\ s = Dispatch.init) \/
  (sched = [Dispatch.Caller] /\
   s = Dispatch.upd_caller Conn Result Dispatch.CRecv Dispatch.init).
Proof.
  intros Hnil H. destruct sched as [|g sched]; simpl in H.
  - injection H as <-. left. split; reflexivity.
  - right. destruct g as [|i].
    + unfold Dispatch.step, Dispatch.Query in H. simpl in H.
      rewrite Hnil in H. simpl in H.
      destruct sched as [|g sched]; simpl in H.
      * injection H as <-. split; reflexivity.
      * destruct g as [|i]; discriminate.
    + discriminate.
Qed.

(** Once [Query] has returned nothing changes what it returned, and no
    other attempt gets its answer through. *)
Lemma returned_stable g s s' r j :
  step g s = Some s' ->
  Dispatch.caller s = Dispatch.CRet r /\
  (forall i b, Dispatch.attempts s !! i = Some b ->
               Dispatch.pc b = Dispatch.ASent -> i = j) ->
  Dispatch.caller s' = Dispatch.CRet r /\
  (forall i b, Dispatch.attempts s' !! i = Some b ->
               Dispatch.pc b = Dispatch.ASent -> i = j).
Proof.
  intros H [Hc Hone].
  unfold Dispatch.step, Dispatch.Query, Dispatch.step_attempt,
    Chan.send, Dispatch.receiving in H.
  rewrite Hc in H.
  destruct g as [|i]; break_step H; unfold Dispatch.at_pc; simpl.
  all: split; [assumption|].
  all: try assumption.
  all: intros k b Hl Hb;
    match goal with
    | H : Dispatch.attempts _ !! ?i = Some ?a |- _ =>
        match type of Hl with
        | context [alter (fun a0 => Dispatch.MkAttempt (Dispatch.c a0) ?p)
                         _ _] =>
            destruct (dispatch_at_pc_facts _ i a p H) as (_ & Hlk & _)
        end
    end;
    destruct (Hlk _ _ Hl) as [[-> ->]|[? ?]]; simpl in *;
    [discriminate | eauto].
Qed.

End DispatchFacts.

(** The runs in which [Query] does what its comment says: when an attempt
    comes to its [select] with its answer while [Query] is waiting in
    [<-ch], [Query] returns the answer of the database this attempt was
    started for.  Whatever runs afterwards, the value returned stays,
    nothing panics, no other send goes through, and an attempt that comes
    to its [select] after [Query] has returned leaves through [default]
    at once.  The runs in which the answer is ready before [Query] waits
    follow further down. *)
Lemma send_to_waiting_Query_wins
    {Conn Result : Type} (DoQuery : Conn -> string -> Result)
    (conns : list Conn) (query : string)
    (pre post : list Dispatch.goroutine) (j : nat)
    (s0 s : Dispatch.state Conn Result)
    (a : Dispatch.attempt Conn Result) (r : Result) :
  exec (Dispatch.step Conn Result DoQuery conns query) pre Dispatch.init
    = Some s0 ->
  Dispatch.caller s0 = Dispatch.CRecv ->
  Dispatch.attempts s0 !! j = Some a ->
  Dispatch.pc a = Dispatch.ASelect r ->
  exec (Dispatch.step Conn Result DoQuery conns query)
       (Dispatch.Attempt j :: post) s0 = Some s ->
  Dispatch.returned s = Some (DoQuery (Dispatch.c a) query) /\
  conns !! j = Some (Dispatch.c a) /\
  Dispatch.panicked s = None /\
  (forall i b, Dispatch.attempts s !! i = Some b ->
               Dispatch.pc b = Dispatch.ASent -> i = j) /\
  (forall i b r', Dispatch.attempts s !! i = Some b ->
                  Dispatch.pc b = Dispatch.ASelect r' ->
     exists s', Dispatch.step Conn Result DoQuery conns query
                  (Dispatch.Attempt i) s = Some s' /\
                Dispatch.attempts s' !! i =
                  Some (Dispatch.MkAttempt (Dispatch.c b) Dispatch.ADropped) /\
                Dispatch.returned s' = Dispatch.returned s).
Proof.
  intros Hpre Hrecv Hj Hpc Hrun.
  pose proof (dispatch_Inv_exec _ _ _ _ _ Hpre) as HI0.
  assert (HIs : Dispatch.Inv Conn Result DoQuery conns query s).
  { eapply (dispatch_Inv_exec _ _ _ (pre ++ Dispatch.Attempt j :: post)).
    rewrite exec_app, Hpre. exact Hrun. }
  destruct (attempt_select_enabled _ _ _ _ _ _ _ HI0 Hj Hpc)
    as (s1 & Hstep & _ & Hj1 & Hc1 & Hother).
  assert (Hrecv' : Dispatch.receiving s0 = true)
    by (unfold Dispatch.receiving; rewrite Hrecv; reflexivity).
  rewrite Hrecv' in Hj1, Hc1.
  simpl in Hrun. rewrite Hstep in Hrun.
  assert (Hr : r = DoQuery (Dispatch.c a) query).
  { destruct HI0. eauto. }
  assert (Hstable :
    Dispatch.caller s = Dispatch.CRet r /\
    (forall i b, Dispatch.attempts s !! i = Some b ->
                 Dispatch.pc b = Dispatch.ASent -> i = j)).
  { apply (exec_invariant
             (Dispatch.step Conn Result DoQuery conns query)
             (fun t => Dispatch.caller t = Dispatch.CRet r /\
                (forall i b, Dispatch.attempts t !! i = Some b ->
                             Dispatch.pc b = Dispatch.ASent -> i = j)))
      with (sched := post) (s := s1); [| |exact Hrun].
    - intros g t t' HP Hg. eapply returned_stable; eassumption.
    - split; [exact Hc1|]. intros i b Hi Hb.
      destruct (decide (i = j)) as [->|Hne]; [reflexivity|].
      rewrite (Hother _ Hne) in Hi. destruct HI0.
      specialize (inv_sent _ _ Hi Hb). congruence. }
  destruct Hstable as [Hc Hone].
  split; [unfold Dispatch.returned; rewrite Hc, Hr; reflexivity|].
  split; [destruct HI0; eauto|].
  split; [destruct HIs; assumption|].
  split; [exact Hone|].
  intros i b r' Hi Hb.
  destruct (attempt_select_enabled _ _ _ _ _ _ _ HIs Hi Hb)
    as (s' & Hs' & _ & Hi' & Hc' & _).
  assert (Hnr : Dispatch.receiving s = false)
    by (unfold Dispatch.receiving; rewrite Hc; reflexivity).
  rewrite Hnr in Hi', Hc'.
  exists s'. repeat split; try assumption.
  unfold Dispatch.returned. rewrite Hc'. reflexivity.
Qed.

(** Three databases; the second answers first, when [Query] is already
    waiting: [Query] returns its answer, 42. *)
Lemma send_to_waiting_Query_wins_late :
  exists s,
    exec (Dispatch.step nat nat Dispatch.answer Dispatch.three "q")
         Dispatch.late Dispatch.init = Some s /\
    Dispatch.returned s = Some 42.
Proof.
  eexists. split; [vm_compute; reflexivity|].
  refine (proj1 (send_to_waiting_Query_wins
    Dispatch.answer Dispatch.three "q"
    [Dispatch.Caller; Dispatch.Caller; Dispatch.Caller; Dispatch.Caller;
     Dispatch.Attempt 1]
    [Dispatch.Attempt 0; Dispatch.Attempt 2; Dispatch.Attempt 2;
     Dispatch.Attempt 0]
    1 _ _ (Dispatch.MkAttempt 42 (Dispatch.ASelect 42)) 42 _ _ _ _ _)).
  - vm_compute; reflexivity.
  - reflexivity.
  - reflexivity.
  - reflexivity.
  - vm_compute; reflexivity.
Defined.

(** C2 fails on the code, and so does the comment of [Query] itself
    (lines 428-434: "it should accept the answer that arrives first",
    "returns the first response it receives"): [ch] has no buffer and the
    send stands in a [select] with a [default], so an answer that is ready
    before [Query] waits in [<-ch] is thrown away.  Of three databases the
    second is the fastest, and so fast that its goroutine is through its
    [select] before [Query] waits in [<-ch]: the answer 42 is given up,
    and [Query] returns 10, the answer of the first database.  When all
    three are that fast [Query] never returns: every goroutine is gone
    and [Query] waits in [<-ch]. *)
Lemma C2_fastest_answer_is_lost :
  (exists s1 s,
     exec (Dispatch.step nat nat Dispatch.answer Dispatch.three "q")
          (take 4 Dispatch.early) Dispatch.init = Some s1 /\
     Dispatch.attempts s1 =
       [Dispatch.MkAttempt 10 Dispatch.ACall;
        Dispatch.MkAttempt 42 Dispatch.ADropped] /\
     exec (Dispatch.step nat nat Dispatch.answer Dispatch.three "q")
          (drop 4 Dispatch.early) s1 = Some s /\
     Dispatch.returned s = Some 10 /\
     stuck (Dispatch.step nat nat Dispatch.answer Dispatch.three "q") s) /\
  (exists s,
     exec (Dispatch.step nat nat Dispatch.answer Dispatch.three "q")
          Dispatch.all_early Dispatch.init = Some s /\
     Dispatch.caller s = Dispatch.CRecv /\
     Dispatch.returned s = None /\
     stuck (Dispatch.step nat nat Dispatch.answer Dispatch.three "q") s).
Proof.
  split.
  - eexists. eexists. split; [vm_compute; reflexivity|].
    split; [reflexivity|]. split; [vm_compute; reflexivity|].
    split; [reflexivity|].
    intros [|[|[|[|i]]]]; reflexivity.
  - eexists. split; [vm_compute; reflexivity|].
    split; [reflexivity|]. split; [reflexivity|].
    intros [|[|[|[|i]]]]; reflexivity.
Qed.

(** C4: the write of an attempt to [ch] never blocks.  In every state that
    a run of [Query] reaches, an attempt that stands at its [select] can
    take its step, whatever [Query] and the other attempts are doing; the
    step ends the attempt ([ASent] when [Query] was waiting, [ADropped]
    through [default] otherwise) without a panic.  And runs are short: no
    more than [3 * len(conns) + 2] steps in all. *)
Theorem C4_attempt_never_blocks
    {Conn Result : Type} (DoQuery : Conn -> string -> Result)
    (conns : list Conn) (query : string)
    (sched : list Dispatch.goroutine) (s : Dispatch.state Conn Result)
    (i : nat) (a : Dispatch.attempt Conn Result) (r : Result) :
  exec (Dispatch.step Conn Result DoQuery conns query) sched Dispatch.init
    = Some s ->
  Dispatch.attempts s !! i = Some a ->
  Dispatch.pc a = Dispatch.ASelect r ->
  (exists s',
     Dispatch.step Conn Result DoQuery conns query (Dispatch.Attempt i) s
       = Some s' /\
     Dispatch.panicked s' = None /\
     Dispatch.attempts s' !! i =
       Some (Dispatch.MkAttempt (Dispatch.c a)
               (if Dispatch.receiving s then Dispatch.ASent
                else Dispatch.ADropped))) /\
  length sched < 3 * length conns + 2.
Proof.
  intros Hexec Hi Hpc.
  pose proof (dispatch_Inv_exec _ _ _ _ _ Hexec) as HI.
  split.
  - destruct (attempt_select_enabled _ _ _ _ _ _ _ HI Hi Hpc)
      as (s' & Hs' & Hp & Hi' & _).
    exists s'. repeat split; assumption.
  - pose proof (dispatch_exec_length _ _ _ _ _ Hexec) as Hlen.
    assert (0 < Dispatch.fuel Conn Result conns s); [|lia].
    unfold Dispatch.fuel.
    destruct (alter_split id (Dispatch.attempts s) i a Hi)
      as (l1 & l2 & -> & _ & _).
    rewrite fmap_app, sum_list_with_app. simpl. rewrite Hpc. simpl. lia.
Qed.

(** The attempt for the first database comes to its [select] when [Query]
    has returned long ago: it leaves through [default]. *)
Lemma C4_attempt_never_blocks_witness :
  exists s',
    Dispatch.step nat nat Dispatch.answer Dispatch.three "q"
      (Dispatch.Attempt 0)
      {| Dispatch.caller := Dispatch.CRet 42;
         Dispatch.attempts :=
           [Dispatch.MkAttempt 10 (Dispatch.ASelect 10);
            Dispatch.MkAttempt 42 Dispatch.ASent;
            Dispatch.MkAttempt 30 Dispatch.ADropped];
         Dispatch.ch := Chan.make;
         Dispatch.ops := [Dispatch.MkEvent (Dispatch.Attempt 1) Chan.OSend;
                          Dispatch.MkEvent Dispatch.Caller Chan.ORecv];
         Dispatch.panicked := None |} = Some s' /\
    Dispatch.panicked s' = None /\
    Dispatch.attempts s' !! 0 = Some (Dispatch.MkAttempt 10 Dispatch.ADropped).
Proof.
  refine (proj1 (C4_attempt_never_blocks Dispatch.answer Dispatch.three "q"
    (take 9 Dispatch.late) _ 0 (Dispatch.MkAttempt 10 (Dispatch.ASelect 10))
    10 _ _ _)).
  - vm_compute; reflexivity.
  - reflexivity.
  - reflexivity.
Defined.

(** C6 (as the code has it): called without a database, [Query] starts no
    goroutine, goes into [<-ch] and stays there: it never returns, and
    there is no [AllFailed] that it could return. *)
Theorem C6_Query_without_sources_blocks
    {Conn Result : Type} (DoQuery : Conn -> string -> Result)
    (query : string) (sched : list Dispatch.goroutine)
    (s : Dispatch.state Conn Result) :
  exec (Dispatch.step Conn Result DoQuery [] query) sched Dispatch.init
    = Some s ->
  Dispatch.returned s = None /\
  Dispatch.attempts s = [] /\
  length sched <= 1 /\
  (Dispatch.caller s = Dispatch.CRecv ->
   stuck (Dispatch.step Conn Result DoQuery [] query) s) /\
  exists s1,
    exec (Dispatch.step Conn Result DoQuery [] query) [Dispatch.Caller]
         Dispatch.init = Some s1 /\
    Dispatch.caller s1 = Dispatch.CRecv.
Proof.
  intros H.
  destruct (query_no_sources DoQuery [] query sched s eq_refl H)
    as [[-> ->]|[-> ->]]; simpl.
  all: repeat split; try lia; try discriminate.
  all: try (intros _ [|i]; reflexivity).
  all: eexists; split; reflexivity.
Qed.

Lemma C6_Query_without_sources_blocks_witness :
  Dispatch.returned
    (Dispatch.upd_caller nat nat Dispatch.CRecv Dispatch.init) = None /\
  stuck (Dispatch.step nat nat Dispatch.answer [] "q")
        (Dispatch.upd_caller nat nat Dispatch.CRecv Dispatch.init).
Proof.
  pose proof (C6_Query_without_sources_blocks Dispatch.answer "q"
                [Dispatch.Caller]
                (Dispatch.upd_caller nat nat Dispatch.CRecv Dispatch.init)
                eq_refl) as (Hr & _ & _ & Hstuck & _).
  split; [exact Hr | exact (Hstuck eq_refl)].
Defined.

(** C6 as the specification has it fails on the code: no run of [Query]
    without databases comes to a state in which [Query] has returned. *)
Lemma C6_no_sources_never_returns :
  ~ exists sched s r,
      exec (Dispatch.step nat nat Dispatch.answer [] "q") sched Dispatch.init
        = Some s /\
      Dispatch.returned s = Some r.
Proof.
  intros (sched & s & r & H & Hr).
  destruct (query_no_sources Dispatch.answer [] "q" sched s eq_refl H)
    as [[_ ->]|[_ ->]]; discriminate.
Qed.

(** ** Goroutines started in a loop *)

Section ClosureFacts.
Variable data : list string.

Local Abbreviation step := (Closure.step Closure.Argument data).
Local Abbreviation Inv := (Closure.Inv data).

Lemma closure_Inv_init : Inv Closure.init.
Proof.
  constructor; simpl; try reflexivity; try lia; try constructor.
  all: try (intros g u H; destruct g; discriminate).
  all: intros; match goal with H : _ ∈ [] |- _ => apply elem_of_nil in H end;
    contradiction.
Qed.

Lemma closure_Inv_step a s s' : step a s = Some s' -> Inv s -> Inv s'.
Proof.
  intros H HI. destruct HI.
  unfold Closure.step, Closure.step_main, Closure.step_unit in H.
  destruct a as [|g]; break_step H; simpl in *.
  all: repeat match goal with
              | H : Closure.main _ = _ |- _ => rewrite H in *
              end.
  all: try match goal with
       | H : data !! _ = Some _ |- _ => pose proof (lookup_lt_Some _ _ _ H)
       | H : data !! _ = None |- _ => apply lookup_ge_None in H
       end.
  all: try match goal with
       | H : Closure.gors _ !! ?g = Some ?u |- _ =>
           pose proof (lookup_lt_Some _ _ _ H) as Hlt;
           destruct (inv_own _ _ H) as (x & Hx & Hdx); simpl in Hx;
           try discriminate Hx; try (injection Hx as ->);
           pose proof (inv_ran _ _ H eq_refl) as Hfresh
       end.
  all: constructor; simpl;
    rewrite ?length_insert, ?length_app, ?fmap_app; simpl.
  all: try assumption; try lia; try exact I.
  (* [go]: a new goroutine, with the value of [v] as its own [in] *)
  all: try solve [ intros g u Hl; apply lookup_snoc_Some in Hl;
                   destruct Hl as [[_ Hl]|[-> <-]]; simpl; eauto ].
  all: try solve [ intros g u Hl Hu; apply lookup_snoc_Some in Hl;
                   destruct Hl as [[_ Hl]|[-> <-]]; simpl in *;
                   [eauto | try discriminate;
                            intros Hin; apply inv_lt in Hin; lia] ].
  all: try solve [ intros g Hin; apply inv_lt in Hin; lia ].
  (* a goroutine prints *)
  all: try solve [ intros g' u Hl; apply list_lookup_insert_Some in Hl;
                   destruct Hl as [(<- & <- & _)|[_ Hl]]; simpl; eauto ].
  all: try solve [ intros g' y Hin; apply elem_of_app in Hin;
                   destruct Hin as [Hin|Hin]; [eauto|];
                   apply list_elem_of_singleton in Hin; congruence ].
  all: try solve [ intros g' u Hl Hu; apply list_lookup_insert_Some in Hl;
                   destruct Hl as [(<- & <- & _)|[Hne Hl]]; simpl in *;
                   [discriminate|];
                   rewrite not_elem_of_app, list_elem_of_singleton;
                   split; [eauto | congruence] ].
  all: try solve [ intros g' u Hl Hu; apply list_lookup_insert_Some in Hl;
                   rewrite elem_of_app, list_elem_of_singleton;
                   destruct Hl as [(<- & <- & _)|[Hne Hl]]; simpl in *;
                   [right; reflexivity | left; eauto] ].
  all: try solve [ intros g' Hin; apply elem_of_app in Hin;
                   destruct Hin as [Hin|Hin]; [eauto|];
                   apply list_elem_of_singleton in Hin; subst; assumption ].
  all: try solve [ apply NoDup_app; repeat split;
                   [ assumption
                   | intros y Hy Hy'; apply list_elem_of_singleton in Hy';
                     subst; contradiction
                   | apply NoDup_singleton ] ].
  intros g u Hl. apply lookup_snoc_Some in Hl.
  destruct Hl as [[_ Hl]|[-> <-]]; simpl; [eauto|].
  eexists. split; [reflexivity|]. rewrite inv_len. assumption.
Qed.

Lemma closure_Inv_exec sched s :
  exec step sched Closure.init = Some s -> Inv s.
Proof.
  apply (exec_invariant step Inv); [|apply closure_Inv_init].
  intros a s1 s2 HI H. eapply closure_Inv_step; eassumption.
Qed.

End ClosureFacts.

(** The first program under the schedule of its comment: the goroutines
    run when the loop is over, and all of them print the last element. *)
Lemma capture_prints_the_last_value :
  exists s,
    exec (Closure.step Closure.Capture Closure.numbers) Closure.loop_first
         Closure.init = Some s /\
    Closure.out s = [(0, "three"); (1, "three"); (2, "three")]%string.
Proof. eexists. split; vm_compute; reflexivity. Qed.

(** C8: each unit gets its own copy of its input when it is started.  In
    the program that passes [v] as an argument, under every schedule, the
    goroutine started in iteration [g] holds [data[g]] as its [in], what
    it prints is [data[g]], whatever the loop variable holds by then, and
    it prints once; when the loop is over and all goroutines have run,
    every element of [data] has been printed by its own goroutine. *)
Theorem C8_unit_holds_its_own_input
    (data : list string) (sched : list Closure.goroutine) (s : Closure.state) :
  exec (Closure.step Closure.Argument data) sched Closure.init = Some s ->
  (forall g u, Closure.gors s !! g = Some u ->
     exists x, Closure.bound u = Closure.Own x /\ data !! g = Some x) /\
  (forall g x, (g, x) ∈ Closure.out s -> data !! g = Some x) /\
  (forall g u, Closure.gors s !! g = Some u ->
     (Closure.pc u = Closure.GEnd <-> g ∈ (Closure.out s).*1)) /\
  NoDup (Closure.out s).*1 /\
  (Closure.main s = Closure.MSleep \/ Closure.main s = Closure.MExit ->
   (forall g u, Closure.gors s !! g = Some u -> Closure.pc u = Closure.GEnd) ->
   (Closure.out s).*1 ≡ₚ seq 0 (length data)).
Proof.
  intros H. destruct (closure_Inv_exec _ _ _ H).
  repeat split; eauto.
  - intros Hin. destruct (Closure.pc u) eqn:Hpc; [|reflexivity].
    exfalso. eapply inv_ran; eassumption.
  - intros Hm Hall.
    assert (Hlen : length (Closure.gors s) = length data)
      by (destruct Hm as [Hm|Hm]; rewrite Hm in inv_len; exact inv_len).
    apply NoDup_Permutation; [assumption | apply NoDup_seq |].
    intros g. rewrite elem_of_seq. split.
    + intros Hin. apply inv_lt in Hin. lia.
    + intros [_ Hlt]. simpl in Hlt. rewrite <- Hlen in Hlt.
      destruct (lookup_lt_is_Some_2 _ _ Hlt) as [u Hu]. eauto.
Qed.

(** The data of the source under the schedule of the comment of the first
    program: here the goroutines print one, two, three. *)
Lemma C8_unit_holds_its_own_input_witness :
  exists s,
    exec (Closure.step Closure.Argument Closure.numbers) Closure.loop_first
         Closure.init = Some s /\
    Closure.out s = [(0, "one"); (1, "two"); (2, "three")]%string /\
    forall g x, (g, x) ∈ Closure.out s -> Closure.numbers !! g = Some x.
Proof.
  eexists. split; [vm_compute; reflexivity|]. split; [reflexivity|].
  refine (proj1 (proj2 (C8_unit_holds_its_own_input Closure.numbers
                          Closure.loop_first _ _))).
  vm_compute; reflexivity.
Defined.

(** ** A receive with a timeout *)

Section TimeoutFacts.
Context {Msg : Type}.
Variable zero : Msg.

Local Abbreviation step := (Timeout.step Msg zero).

Lemma timeout_sound_exec sched (s : Timeout.state Msg) :
  exec step sched Timeout.init = Some s -> Timeout.sound s.
Proof.
  apply (exec_invariant step Timeout.sound).
  - intros a t t' [Hto Hw] H. unfold Timeout.step in H.
    destruct a; break_step H; unfold Timeout.sound; simpl in *;
      repeat match goal with
             | H : Timeout.pc _ = _ |- _ => rewrite H in *
             | H : (_ <=? _)%N = true |- _ => apply N.leb_le in H
             end.
    all: split; intros Hpc; try discriminate Hpc; auto.
    all: try (destruct (Hto Hpc); split; [lia | assumption]).
    all: try (split; [lia | auto]).
  - split; [discriminate | reflexivity].
Qed.

Lemma timeout_unserved_step a (s s' : Timeout.state Msg) :
  Timeout.unserved s ->
  Timeout.is_offer a = false -> Timeout.is_close a = false ->
  step a s = Some s' -> Timeout.unserved s'.
Proof.
  intros (Hoff & Hcl & Hproc & Hpc) Ha Hc H. unfold Timeout.step in H.
  destruct a; try discriminate Ha; try discriminate Hc; break_step H;
    unfold Timeout.unserved; simpl in *;
    repeat match goal with
           | H : (_ <=? _)%N = true |- _ => apply N.leb_le in H
           end.
  all: try congruence.
  all: repeat split; try assumption.
  all: try (destruct Hpc as [Hpc|[Hpc Hle]];
            [left; assumption | right; split; [assumption | lia]]).
  all: try (destruct Hpc as [Hpc|[Hpc _]]; congruence).
  right. split; [reflexivity | assumption].
Qed.

Lemma timeout_unserved_exec sched (s s' : Timeout.state Msg) :
  Timeout.unserved s ->
  Timeout.no_offer sched = true -> Timeout.no_close sched = true ->
  exec step sched s = Some s' -> Timeout.unserved s'.
Proof.
  revert s. induction sched as [|a sched IH]; intros s Hs Hno Hnc H;
    simpl in *.
  - injection H as <-. exact Hs.
  - apply andb_true_iff in Hno. destruct Hno as [Ha Hno].
    apply andb_true_iff in Hnc. destruct Hnc as [Hc Hnc].
    apply negb_true_iff in Ha. apply negb_true_iff in Hc.
    destruct (Timeout.step Msg zero a s) as [s1|] eqn:E; [|discriminate].
    eapply IH; [|exact Hno|exact Hnc|exact H].
    eapply timeout_unserved_step; eassumption.
Qed.

(** The timer is ready once a second has passed. *)
Lemma timeout_fire_enabled (s : Timeout.state Msg) :
  Timeout.pc s = Timeout.SWait -> (Timeout.Second <= Timeout.now s)%N ->
  exists s', step Timeout.Fire s = Some s' /\
             Timeout.pc s' = Timeout.STimedOut /\
             Timeout.processed s' = Timeout.processed s.
Proof.
  intros Hpc Hle. unfold Timeout.step. rewrite Hpc.
  apply N.leb_le in Hle. rewrite Hle.
  eexists. repeat split.
Qed.

End TimeoutFacts.

(** While no attempt stands at its [select] with an answer, no step makes
    [Query] return: there is nothing else that [<-ch] could wait for. *)
Lemma query_waits_for_an_answer
    {Conn Result : Type} (DoQuery : Conn -> string -> Result)
    (conns : list Conn) (query : string)
    (g : Dispatch.goroutine) (s s' : Dispatch.state Conn Result) :
  Dispatch.step Conn Result DoQuery conns query g s = Some s' ->
  Dispatch.returned s = None ->
  (forall i a r, Dispatch.attempts s !! i = Some a ->
                 Dispatch.pc a <> Dispatch.ASelect r) ->
  Dispatch.returned s' = None.
Proof.
  intros H Hr Hno.
  unfold Dispatch.step, Dispatch.Query, Dispatch.step_attempt in H.
  unfold Dispatch.returned in *.
  destruct g as [|i]; break_step H; unfold Dispatch.at_pc; simpl;
    try reflexivity; try assumption; try congruence.
  all: exfalso; eapply Hno; eassumption.
Qed.

(** C7 (as the code has it): [Query] has no timer and no error value.  It
    returns only what an attempt has handed to it, and while no attempt
    stands at its [select] with an answer no step makes it return.  The
    receive that a timer can win is the [select] of lines 421-427, with
    the fixed timeout [time.Second]: in a run in which no message comes
    to [ch] and nobody closes [ch], that [select] processes nothing, it
    leaves only through the branch of the timer and not before a second
    has passed, and once a second has passed that branch is ready. *)
Theorem C7_only_the_select_has_a_timer
    {Conn Result Msg : Type} (DoQuery : Conn -> string -> Result)
    (conns : list Conn) (query : string) (zero : Msg)
    (qsched : list Dispatch.goroutine) (qs : Dispatch.state Conn Result)
    (tsched : list (Timeout.action Msg)) (ts : Timeout.state Msg) :
  exec (Dispatch.step Conn Result DoQuery conns query) qsched Dispatch.init
    = Some qs ->
  exec (Timeout.step Msg zero) tsched Timeout.init = Some ts ->
  Timeout.no_offer tsched = true ->
  Timeout.no_close tsched = true ->
  (forall r, Dispatch.returned qs = Some r ->
     exists j a, Dispatch.attempts qs !! j = Some a /\
                 Dispatch.pc a = Dispatch.ASent /\
                 conns !! j = Some (Dispatch.c a) /\
                 r = DoQuery (Dispatch.c a) query) /\
  (Dispatch.returned qs = None ->
   (forall i a r, Dispatch.attempts qs !! i = Some a ->
                  Dispatch.pc a <> Dispatch.ASelect r) ->
   forall g qs',
     Dispatch.step Conn Result DoQuery conns query g qs = Some qs' ->
     Dispatch.returned qs' = None) /\
  Timeout.processed ts = [] /\
  (Timeout.pc ts = Timeout.SWait \/
   (Timeout.pc ts = Timeout.STimedOut /\
    (Timeout.Second <= Timeout.now ts)%N)) /\
  (Timeout.pc ts = Timeout.SWait ->
   (Timeout.Second <= Timeout.now ts)%N ->
   exists ts', Timeout.step Msg zero Timeout.Fire ts = Some ts' /\
               Timeout.pc ts' = Timeout.STimedOut /\
               Timeout.processed ts' = []).
Proof.
  intros Hq Ht Hno Hnc.
  pose proof (dispatch_Inv_exec _ _ _ _ _ Hq) as HI.
  assert (Hun : Timeout.unserved ts).
  { eapply timeout_unserved_exec; [|exact Hno|exact Hnc|exact Ht].
    repeat split. left. reflexivity. }
  destruct Hun as (_ & _ & Hproc & Hpc).
  split; [intros r Hr; eapply returned_is_an_answer; eassumption|].
  split; [intros Hr Hnone g qs' Hg;
          eapply query_waits_for_an_answer; eassumption|].
  split; [exact Hproc|]. split; [exact Hpc|].
  intros Hw Hle.
  destruct (timeout_fire_enabled zero ts Hw Hle) as (ts' & Hs & Hp & Hpr).
  exists ts'. repeat split; congruence.
Qed.

(** One database that has not answered yet, and a [select] on which no
    message comes for a second. *)
Lemma C7_only_the_select_has_a_timer_witness :
  exists ts,
    exec (Timeout.step nat 0) [Timeout.Pass 1000000000; Timeout.Fire]
         Timeout.init = Some ts /\
    Timeout.pc ts = Timeout.STimedOut /\
    Timeout.processed ts = [].
Proof.
  eexists. split; [vm_compute; reflexivity|]. split; [reflexivity|].
  refine (proj1 (proj2 (proj2
    (C7_only_the_select_has_a_timer (Msg := nat) Dispatch.answer [10] "q" 0
       [Dispatch.Caller; Dispatch.Caller] _
       [Timeout.Pass 1000000000; Timeout.Fire] _ _ _ _ _)))).
  - vm_compute; reflexivity.
  - vm_compute; reflexivity.
  - reflexivity.
  - reflexivity.
Defined.

(** C7 as the specification has it fails on the code.  [Query] is called
    with one database that takes its time: [Query] waits in [<-ch], it
    cannot take a step of its own, and as long as the goroutine of the
    database does not run nothing happens at all, however long that takes:
    [Query] does not return, with [Timeout] or otherwise. *)
Lemma C7_Query_waits_without_limit :
  exists s0,
    exec (Dispatch.step nat nat Dispatch.answer [10] "q")
         [Dispatch.Caller; Dispatch.Caller] Dispatch.init = Some s0 /\
    Dispatch.caller s0 = Dispatch.CRecv /\
    Dispatch.attempts s0 = [Dispatch.MkAttempt 10 Dispatch.ACall] /\
    Dispatch.step nat nat Dispatch.answer [10] "q" Dispatch.Caller s0 = None /\
    forall sched s,
      exec (Dispatch.step nat nat Dispatch.answer [10] "q") sched s0 = Some s ->
      Dispatch.Attempt 0 ∉ sched ->
      sched = [] /\ Dispatch.returned s = None.
Proof.
  eexists. split; [vm_compute; reflexivity|].
  repeat split.
  - destruct sched as [|g sched]; [reflexivity|]. exfalso.
    destruct g as [|[|i]]; try discriminate.
    apply H0. left.
  - destruct sched as [|g sched].
    + injection H as <-. reflexivity.
    + exfalso. destruct g as [|[|i]]; try discriminate.
      apply H0. left.
Qed.

(** ** The cancellation channel *)

(** [main] at its [close(done)] executes [shutdown]. *)
Lemma step_main_is_shutdown workerCount itemCount (s : Pool.state) :
  Pool.main s = Pool.MClose -> Chan.closed (Pool.done s) = false ->
  Pool.step_main workerCount itemCount s
  = Some (Pool.upd_main Pool.MWait (Pool.shutdown s)).
Proof.
  intros Hm Hc. unfold Pool.step_main, Pool.shutdown, Chan.close.
  rewrite Hm, Hc. reflexivity.
Qed.

(** A closed [done] stays closed. *)
Lemma done_stays_closed workerCount itemCount sched (s s' : Pool.state) :
  exec (Pool.step workerCount itemCount) sched s = Some s' ->
  Chan.closed (Pool.done s) = true -> Chan.closed (Pool.done s') = true.
Proof.
  intros H Hc.
  apply (exec_invariant (Pool.step workerCount itemCount)
           (fun t => Chan.closed (Pool.done t) = true)) with (3 := H);
    [|exact Hc].
  intros a t t' Ht Hs. apply step_sound in Hs.
  destruct Hs; simpl; try assumption; reflexivity.
Qed.

(** C3: nobody sends on the cancellation channel.  In every run of the
    pool and in every run of the program with the [done] channel of lines
    146-163, each operation on [done] is a receive by a consumer (a
    worker, a sender) or the close by [main]; there is at most one close;
    and the run does not panic. *)
Theorem C3_done_is_never_sent_on
    (workerCount itemCount : nat) (psched : list Pool.action) (ps : Pool.state)
    (count : nat) (rsched : list Racer.action) (rs : Racer.state) :
  exec (Pool.step workerCount itemCount) psched Pool.init = Some ps ->
  exec (Racer.step Racer.CloseDone count) rsched Racer.init = Some rs ->
  (forall e, e ∈ Pool.ops ps -> Pool.on e = Pool.Done ->
     (exists w, Pool.who e = Pool.Worker w /\ Pool.what e = Chan.ORecv) \/
     (Pool.who e = Pool.Main /\ Pool.what e = Chan.OClose)) /\
  Pool.closes ps <= 1 /\
  Pool.panicked ps = None /\
  (forall e, e ∈ Racer.ops rs -> Racer.on e = Racer.Done ->
     (exists g, Racer.who e = Racer.Sender g /\ Racer.what e = Chan.ORecv) \/
     (Racer.who e = Racer.Main /\ Racer.what e = Chan.OClose)) /\
  Racer.closes rs <= 1 /\
  Racer.panicked rs = None.
Proof.
  intros Hp Hr.
  destruct (Inv_exec _ _ _ _ Hp) as [Hpp _ _ _ _ _ _ _ _ _ _ Hpo Hpc].
  destruct (racer_Inv_exec _ _ _ Hr) as [Hrp _ _ _ _ _ _ _ Hro Hrc].
  rewrite Forall_forall in Hpo. rewrite Forall_forall in Hro.
  repeat split; try assumption.
  - intros e He Hon. specialize (Hpo e He). unfold Pool.done_discipline in Hpo.
    rewrite Hon in Hpo.
    destruct (Pool.who e) as [|w], (Pool.what e); try discriminate; eauto.
  - rewrite Hpc. destruct (Chan.closed (Pool.done ps)); lia.
  - intros e He Hon. specialize (Hro e He). unfold Racer.done_discipline in Hro.
    rewrite Hon in Hro.
    destruct (Racer.who e) as [|g], (Racer.what e); try discriminate; eauto.
  - rewrite Hrc. destruct (Chan.closed (Racer.done rs)); lia.
Qed.

(** The two runs [Pool.demo] and [Racer.demo] of the programs of the
    source. *)
Lemma C3_done_is_never_sent_on_witness :
  exists ps rs,
    exec (Pool.step 2 2) Pool.demo Pool.init = Some ps /\
    exec (Racer.step Racer.CloseDone 3) Racer.demo Racer.init = Some rs /\
    Pool.closes ps <= 1 /\ Pool.panicked ps = None /\
    Racer.closes rs <= 1 /\ Racer.panicked rs = None.
Proof.
  eexists. eexists.
  split; [vm_compute; reflexivity|]. split; [vm_compute; reflexivity|].
  pose proof (C3_done_is_never_sent_on 2 2 Pool.demo _ 3 Racer.demo _
                ltac:(vm_compute; reflexivity) ltac:(vm_compute; reflexivity))
    as (_ & H1 & H2 & _ & H3 & H4).
  repeat split; assumption.
Defined.

(** X21: the cancellation signal is raised exactly once.  The pool has no
    operation to shut it down; what raises the signal is the one
    statement [close(done)] of [main].  In every run, for any number of
    workers and items, the number of closes of [done] is 0 before [main]
    has executed that statement and 1 ever after; the run does not
    panic; and [done], once closed, stays closed in whatever follows. *)
Theorem X21_done_is_closed_once
    (workerCount itemCount : nat) (sched more : list Pool.action)
    (s s' : Pool.state) :
  exec (Pool.step workerCount itemCount) sched Pool.init = Some s ->
  exec (Pool.step workerCount itemCount) more s = Some s' ->
  Pool.closes s = (if Pool.past_close (Pool.main s) then 1 else 0) /\
  Chan.closed (Pool.done s) = Pool.past_close (Pool.main s) /\
  Pool.panicked s = None /\
  Pool.panicked s' = None /\
  (Chan.closed (Pool.done s) = true ->
   Chan.closed (Pool.done s') = true /\ Pool.closes s' = 1).
Proof.
  intros H Hmore.
  assert (H' : exec (Pool.step workerCount itemCount) (sched ++ more)
                    Pool.init = Some s')
    by (rewrite exec_app, H; exact Hmore).
  destruct (Inv_exec _ _ _ _ H) as [Hp _ Hd _ _ _ _ _ _ _ _ _ Hc].
  destruct (Inv_exec _ _ _ _ H') as [Hp' _ _ _ _ _ _ _ _ _ _ _ Hc'].
  rewrite Hd in Hc.
  repeat split; try assumption.
  - eapply done_stays_closed; [exact Hmore | assumption].
  - rewrite Hc'. erewrite done_stays_closed; [reflexivity | exact Hmore |].
    assumption.
Qed.

Lemma X21_done_is_closed_once_witness :
  exists s s',
    exec (Pool.step 2 2) (take 11 Pool.demo) Pool.init = Some s /\
    exec (Pool.step 2 2) (drop 11 Pool.demo) s = Some s' /\
    Pool.closes s = 1 /\ Pool.closes s' = 1 /\ Pool.panicked s' = None.
Proof.
  eexists. eexists.
  split; [vm_compute; reflexivity|]. split; [vm_compute; reflexivity|].
  pose proof (X21_done_is_closed_once 2 2 (take 11 Pool.demo)
                (drop 11 Pool.demo) _ _
                ltac:(vm_compute; reflexivity) ltac:(vm_compute; reflexivity))
    as (H1 & _ & _ & H2 & H3).
  split; [exact H1|]. split; [exact (proj2 (H3 eq_refl)) | exact H2].
Defined.

(** ** Arguments of goroutines *)

(** [go doit(i, wq, done, &wg)]: worker [w] runs with [workerId = w]. *)
Lemma pool_worker_ids workerCount itemCount sched (s : Pool.state) w wk :
  exec (Pool.step workerCount itemCount) sched Pool.init = Some s ->
  Pool.workers s !! w = Some wk -> Pool.workerId wk = w.
Proof. intros H. destruct (Inv_exec _ _ _ _ H). eauto. Qed.

(** [go func(c Conn) { ... }(conn)]: attempt [i] runs with [c = conns[i]]. *)
Lemma dispatch_attempt_conn
    {Conn Result : Type} (DoQuery : Conn -> string -> Result)
    (conns : list Conn) (query : string) sched
    (s : Dispatch.state Conn Result) i a :
  exec (Dispatch.step Conn Result DoQuery conns query) sched Dispatch.init
    = Some s ->
  Dispatch.attempts s !! i = Some a -> conns !! i = Some (Dispatch.c a).
Proof. intros H. destruct (dispatch_Inv_exec _ _ _ _ _ H). eauto. Qed.

(** [go func(idx int) { ... }(i)]: sender [g] runs with [idx = g]. *)
Lemma racer_sender_idx count sched (s : Racer.state) g sd :
  exec (Racer.step Racer.CloseDone count) sched Racer.init = Some s ->
  Racer.senders s !! g = Some sd -> Racer.idx sd = Z.of_nat g.
Proof. intros H. destruct (racer_Inv_exec _ _ _ H). eauto. Qed.

(** The senders of the program with [done] cannot stay blocked: the
    program is never stuck before [main] returns, after [close(done)]
    every sender that has not returned can run, and a run has no more
    than [4 * count + 7] steps. *)
Lemma racer_senders_get_through count sched (s : Racer.state) :
  1 <= count ->
  exec (Racer.step Racer.CloseDone count) sched Racer.init = Some s ->
  (Racer.main s <> Racer.MExit ->
   exists a s', Racer.step Racer.CloseDone count a s = Some s') /\
  (Racer.main s <> Racer.MExit -> Chan.closed (Racer.done s) = true ->
   forall g sd, Racer.senders s !! g = Some sd -> Racer.pc sd <> Racer.GEnd ->
     exists s', Racer.step Racer.CloseDone count
                  (Racer.Run (Racer.Sender g)) s = Some s') /\
  length sched <= 4 * count + 7.
Proof.
  intros HN H. pose proof (racer_Inv_exec _ _ _ H) as HI.
  split; [intros Hm; apply racer_progress; assumption|].
  split; [intros Hm Hc g sd Hg Hpc; eapply racer_sender_enabled; eassumption|].
  pose proof (racer_exec_length _ _ _ H). lia.
Qed.

(* ===================================================================== *)
(** * More of the code                                                    *)
(* ===================================================================== *)

(** ** The values of a "range" clause *)

Lemma int_wrap_small (z : Z) :
  (- 2 ^ 63 <= z < 2 ^ 63)%Z -> int_wrap z = z.
Proof.
  intros H. unfold int_wrap.
  rewrite Z.mod_small by lia. lia.
Qed.

Lemma loop1_indices (x : list string) (i : nat) :
  (Z.of_nat (i + length x) < 2 ^ 63)%Z ->
  Range.loop1 (Z.of_nat i) x
  = (fun k => Range.PInt (Z.of_nat k)) <$> seq i (length x).
Proof.
  revert i. induction x as [|v x IH]; intros i Hlt; [reflexivity|].
  simpl in *. f_equal.
  rewrite int_wrap_small by lia.
  replace (Z.of_nat i + 1)%Z with (Z.of_nat (S i)) by lia.
  apply IH. lia.
Qed.

Lemma loop2_elements (x : list string) :
  Range.main2_on x = Range.PStr <$> x.
Proof.
  unfold Range.main2_on. induction x as [|v x IH]; [reflexivity|].
  simpl. rewrite IH. reflexivity.
Qed.

(** X1: ranging with one variable yields the indices, not the elements.
    For every slice [x] (of a length that an [int] can hold) the loop of
    [main1] prints [0, 1, ..., len(x)-1], whatever the strings in [x] are,
    and the loop of [main2] prints the elements of [x] in order; both
    print one line for each element. *)
Theorem X1_range_index_or_element (x : list string) :
  (Z.of_nat (length x) < 2 ^ 63)%Z ->
  Range.main1_on x = (fun k => Range.PInt (Z.of_nat k)) <$> seq 0 (length x) /\
  Range.main2_on x = Range.PStr <$> x /\
  length (Range.main1_on x) = length x /\
  length (Range.main2_on x) = length x.
Proof.
  intros Hlen.
  assert (H1 : Range.main1_on x
               = (fun k => Range.PInt (Z.of_nat k)) <$> seq 0 (length x))
    by (apply (loop1_indices x 0); simpl; exact Hlen).
  pose proof (loop2_elements x) as H2.
  repeat split; try assumption.
  - rewrite H1, length_fmap, length_seq. reflexivity.
  - rewrite H2, length_fmap. reflexivity.
Qed.

(** The slice of the source: [main1] prints 0, 1, 2 and [main2] prints
    a, b, c. *)
Lemma X1_range_index_or_element_witness :
  Range.main1 = [Range.PInt 0; Range.PInt 1; Range.PInt 2] /\
  Range.main2 = [Range.PStr "a"; Range.PStr "b"; Range.PStr "c"].
Proof.
  pose proof (X1_range_index_or_element ["a"; "b"; "c"]%string
                ltac:(vm_compute; reflexivity)) as (H1 & H2 & _).
  split; [exact H1 | exact H2].
Defined.

(** ** Value and pointer receivers *)

Lemma Receiver_main_prints :
  Receiver.main =
  Some [(1%Z, "key.1"%string, ∅);
        (7%Z, "key.1"%string, ∅);
        (7%Z, "v.key"%string, {["vmethod"%string := true]})].
Proof. reflexivity. Qed.

(** X2: [pmethod] changes the struct it is called on: after [d.pmethod()]
    the variable [d] has [num = 7] and the [key] and [items] it had;
    every other variable, every string and every map is as before.  On a
    nil pointer it panics and changes nothing. *)
Theorem X2_pmethod_writes_through (p : nat) (d : Receiver.data)
    (st : Receiver.store) :
  Receiver.vars st !! p = Some d ->
  (exists st',
     Receiver.call_pmethod p st = Receiver.Done st' /\
     Receiver.vars st' !! p
       = Some (Receiver.MkData 7 (Receiver.key d) (Receiver.items d)) /\
     (forall q, q <> p -> Receiver.vars st' !! q = Receiver.vars st !! q) /\
     length (Receiver.vars st') = length (Receiver.vars st) /\
     Receiver.strs st' = Receiver.strs st /\
     Receiver.maps st' = Receiver.maps st) /\
  Receiver.pmethod None st = Receiver.Panicked Receiver.nil_deref st.
Proof.
  intros Hp. split; [|reflexivity].
  eexists. split; [reflexivity|]. simpl. repeat split.
  - rewrite list_lookup_alter_eq, Hp. reflexivity.
  - intros q Hq. apply list_lookup_alter_ne. congruence.
  - apply length_alter.
Qed.

(** The variable [d] of [main]. *)
Lemma X2_pmethod_writes_through_witness :
  exists st',
    Receiver.call_pmethod 0
      (Receiver.MkStore [Receiver.MkData 1 (Some 0) (Some 0)]
                        ["key.1"%string] [∅]) = Receiver.Done st' /\
    Receiver.vars st' !! 0 = Some (Receiver.MkData 7 (Some 0) (Some 0)).
Proof.
  destruct (X2_pmethod_writes_through 0 (Receiver.MkData 1 (Some 0) (Some 0))
              (Receiver.MkStore [Receiver.MkData 1 (Some 0) (Some 0)]
                                ["key.1"%string] [∅]) eq_refl)
    as [(st' & H1 & H2 & _) _].
  exists st'. split; assumption.
Defined.

(** X3: [vmethod] works on a copy that shares what the struct points to.
    Called on a struct with a [key] and a map, it returns normally; the
    copy ends with [num = 8], but no variable of type [data] changes, so
    the caller's [num] is what it was.  The string that [key] points to
    becomes "v.key" and the map gains the entry "vmethod" -> true, keeping
    its other entries: the caller sees both.  Every other string and map
    is as before. *)
Theorem X3_vmethod_shares_key_and_items
    (d : Receiver.data) (st : Receiver.store) (k m : nat)
    (mp : gmap string bool) :
  Receiver.key d = Some k -> Receiver.items d = Some m ->
  k < length (Receiver.strs st) -> Receiver.maps st !! m = Some mp ->
  exists st' mp',
    Receiver.vmethod d st
      = (Receiver.MkData 8 (Some k) (Some m), Receiver.Done st') /\
    Receiver.vars st' = Receiver.vars st /\
    Receiver.strs st' !! k = Some "v.key"%string /\
    (forall j, j <> k -> Receiver.strs st' !! j = Receiver.strs st !! j) /\
    Receiver.maps st' !! m = Some mp' /\
    mp' !! "vmethod"%string = Some true /\
    (forall x, x <> "vmethod"%string -> mp' !! x = mp !! x) /\
    (forall j, j <> m -> Receiver.maps st' !! j = Receiver.maps st !! j).
Proof.
  intros Hk Hm Hlt Hmp. unfold Receiver.vmethod. simpl. rewrite Hk, Hm.
  eexists. exists (<["vmethod"%string := true]> mp).
  split; [reflexivity|]. simpl. repeat split.
  - apply list_lookup_insert_eq. exact Hlt.
  - intros j Hj. apply list_lookup_insert_ne. congruence.
  - rewrite list_lookup_alter_eq, Hmp. reflexivity.
  - apply lookup_insert_eq.
  - intros x Hx. apply lookup_insert_ne. congruence.
  - intros j Hj. apply list_lookup_alter_ne. congruence.
Qed.

(** [d.vmethod()] in [main]. *)
Lemma X3_vmethod_shares_key_and_items_witness :
  exists st',
    Receiver.vmethod (Receiver.MkData 7 (Some 0) (Some 0))
      (Receiver.MkStore [Receiver.MkData 7 (Some 0) (Some 0)]
                        ["key.1"%string] [∅])
      = (Receiver.MkData 8 (Some 0) (Some 0), Receiver.Done st') /\
    Receiver.vars st' = [Receiver.MkData 7 (Some 0) (Some 0)] /\
    Receiver.strs st' !! 0 = Some "v.key"%string.
Proof.
  destruct (X3_vmethod_shares_key_and_items
              (Receiver.MkData 7 (Some 0) (Some 0))
              (Receiver.MkStore [Receiver.MkData 7 (Some 0) (Some 0)]
                                ["key.1"%string] [∅])
              0 0 ∅ eq_refl eq_refl ltac:(simpl; lia) eq_refl)
    as (st' & mp' & H1 & H2 & H3 & _).
  exists st'. repeat split; assumption.
Defined.

(** X4: the nil cases of [vmethod].  With a nil [key] the method panics at
    [*this.key = ...] and the memory is untouched.  With a [key] but a nil
    map it panics at [this.items[...] = true], and by then the string
    behind [key] has already been overwritten. *)
Theorem X4_vmethod_nil_panics (d : Receiver.data) (st : Receiver.store) :
  (Receiver.key d = None ->
   snd (Receiver.vmethod d st) = Receiver.Panicked Receiver.nil_deref st) /\
  (forall k, Receiver.key d = Some k -> Receiver.items d = None ->
     snd (Receiver.vmethod d st)
     = Receiver.Panicked Receiver.nil_map
         (Receiver.MkStore (Receiver.vars st)
                           (<[k := "v.key"%string]> (Receiver.strs st))
                           (Receiver.maps st))).
Proof.
  split.
  - intros Hk. unfold Receiver.vmethod. simpl. rewrite Hk. reflexivity.
  - intros k Hk Hm. unfold Receiver.vmethod. simpl. rewrite Hk, Hm.
    reflexivity.
Qed.

(** X5: how the two methods compose on a variable [d] that has a [key] and
    a map.  Calling either method twice is the same as calling it once,
    and the order of [d.pmethod()] and [d.vmethod()] does not matter: both
    orders end in the same memory. *)
Theorem X5_methods_compose (p : nat) (d : Receiver.data)
    (st : Receiver.store) (k m : nat) :
  Receiver.vars st !! p = Some d ->
  Receiver.key d = Some k -> Receiver.items d = Some m ->
  Receiver.and_then (Receiver.call_pmethod p st) (Receiver.call_pmethod p)
    = Receiver.call_pmethod p st /\
  Receiver.and_then (Receiver.call_vmethod p st) (Receiver.call_vmethod p)
    = Receiver.call_vmethod p st /\
  Receiver.and_then (Receiver.call_pmethod p st) (Receiver.call_vmethod p)
    = Receiver.and_then (Receiver.call_vmethod p st) (Receiver.call_pmethod p).
Proof.
  intros Hp Hk Hm.
  unfold Receiver.call_pmethod, Receiver.call_vmethod, Receiver.pmethod,
    Receiver.vmethod, Receiver.and_then.
  simpl. rewrite Hp. simpl. rewrite Hk, Hm. simpl.
  rewrite list_lookup_alter_eq, Hp. simpl. rewrite Hk, Hm. simpl.
  repeat split.
  - f_equal. f_equal. rewrite list_alter_alter_eq.
    apply list_alter_ext; [|reflexivity]. intros [? ? ?] _. reflexivity.
  - f_equal. f_equal.
    + apply list_insert_insert_eq.
    + rewrite list_alter_alter_eq.
      apply list_alter_ext; [|reflexivity]. intros mp _. simpl.
      apply insert_insert_eq.
Qed.

Lemma X5_methods_compose_witness :
  Receiver.and_then
    (Receiver.call_pmethod 0
       (Receiver.MkStore [Receiver.MkData 1 (Some 0) (Some 0)]
                         ["key.1"%string] [∅]))
    (Receiver.call_vmethod 0)
  = Receiver.and_then
      (Receiver.call_vmethod 0
         (Receiver.MkStore [Receiver.MkData 1 (Some 0) (Some 0)]
                           ["key.1"%string] [∅]))
      (Receiver.call_pmethod 0).
Proof.
  exact (proj2 (proj2 (X5_methods_compose 0
    (Receiver.MkData 1 (Some 0) (Some 0))
    (Receiver.MkStore [Receiver.MkData 1 (Some 0) (Some 0)]
                      ["key.1"%string] [∅]) 0 0 eq_refl eq_refl eq_refl))).
Defined.

Lemma X4_vmethod_nil_panics_witness :
  snd (Receiver.vmethod (Receiver.MkData 1 (Some 0) None)
         (Receiver.MkStore [] ["key.1"%string] []))
  = Receiver.Panicked Receiver.nil_map
      (Receiver.MkStore [] ["v.key"%string] []).
Proof.
  exact (proj2 (X4_vmethod_nil_panics (Receiver.MkData 1 (Some 0) None)
                  (Receiver.MkStore [] ["key.1"%string] []))
               0 eq_refl eq_refl).
Defined.

(** ** Interfaces holding a nil pointer *)

(** X6: what the two closures return, for every argument.  The first
    [doit] never returns an interface that equals nil, so its caller takes
    the [res != nil] branch whatever the argument is.  The second returns
    the nil interface exactly when [arg <= 0]; for [arg > 0] the two agree
    and return a boxed non-nil pointer. *)
Theorem X6_doit_nil_exactly_when (arg : Z) :
  Iface.is_nil (IfaceTyped.doit arg) = false /\
  (Iface.is_nil (IfaceExplicit.doit arg) = true <-> (arg <= 0)%Z) /\
  ((0 < arg)%Z ->
   IfaceExplicit.doit arg = IfaceTyped.doit arg /\
   exists a, IfaceTyped.doit arg
             = Iface.IBox Iface.TPtrEmptyStruct (Iface.PAddr a)).
Proof.
  unfold IfaceTyped.doit, IfaceExplicit.doit, Iface.new_struct.
  destruct (Z.gtb_spec arg 0) as [Hgt|Hle]; simpl.
  - split; [reflexivity|]. split; [split; [discriminate | lia]|].
    intros _. split; [reflexivity | eexists; reflexivity].
  - split; [reflexivity|]. split; [split; [lia | reflexivity]|]. lia.
Qed.

(** ** The worker pool: the WaitGroup and the lines printed *)

Lemma halted_false (s : Pool.state) :
  Pool.halted s = false ->
  Pool.panicked s = None /\ Pool.main s <> Pool.MExit.
Proof.
  unfold Pool.halted. destruct (Pool.panicked s), (Pool.main s);
    intros H; try discriminate H; split; congruence.
Qed.

Lemma pool_alter_lookup (l : list Pool.worker) w wk p w0 wk0 :
  l !! w = Some wk ->
  alter (fun wk => Pool.MkWorker (Pool.workerId wk) p) w l !! w0 = Some wk0 ->
  (w0 = w /\ wk0 = Pool.MkWorker (Pool.workerId wk) p) \/
  (w0 <> w /\ l !! w0 = Some wk0).
Proof.
  intros H H0. destruct (decide (w = w0)) as [<-|Hne].
  - rewrite list_lookup_alter_eq, H in H0. injection H0 as <-.
    left. split; reflexivity.
  - rewrite list_lookup_alter_ne in H0 by exact Hne.
    right. split; [congruence | exact H0].
Qed.

Lemma PoolOut_init : PoolOut Pool.init.
Proof.
  constructor; simpl; try discriminate.
  all: try (intros w wk H; destruct w; discriminate).
  intros _. apply not_elem_of_nil.
Qed.

Lemma PoolOut_step workerCount itemCount a s s' :
  Pool.Step workerCount itemCount a s s' ->
  Pool.Inv workerCount itemCount s -> PoolOut s -> PoolOut s'.
Proof.
  intros HS HI HO. destruct HO as [Hrun Hdone Hall Hlast].
  pose proof (Pool.inv_ids _ _ _ HI) as Hids.
  destruct HS;
    match goal with
    | H : Pool.halted _ = false |- _ =>
        destruct (halted_false _ H) as [Hnp Hne]
    end;
    specialize (Hall Hne); unfold Pool.at_pc;
    constructor; simpl.
  all: try (intros; congruence).
  all: try match goal with
       | H : Pool.main _ = _ |- _ => rewrite H
       end.
  all: try discriminate.
  all: try (intros _; exact Hall).
  all: try (intros _; apply last_snoc).
  all: try solve [ intros _; rewrite not_elem_of_app, list_elem_of_singleton;
                   split; [exact Hall | discriminate] ].
  all: try (intros ?; exact Hall).
  all: try solve [ intros Hm; exfalso; congruence ].
  all: intros w0 wk0 Hl Hpc;
    repeat match goal with
           | Hl : (_ ++ [_]) !! _ = Some _ |- _ =>
               apply lookup_snoc_Some in Hl;
               destruct Hl as [[_ Hl]|[-> <-]]
           | H : Pool.workers _ !! ?w = Some ?wk,
             Hl : alter _ ?w _ !! _ = Some _ |- _ =>
               pose proof (Hids _ _ H) as Hid;
               destruct (pool_alter_lookup _ _ _ _ _ _ H Hl)
                 as [[-> ->]|[? Hl']]; clear Hl
           end; simpl in *; try congruence.
  all: rewrite ?elem_of_app, ?list_elem_of_singleton.
  all: try solve [ eauto ].
  all: try solve [ left; eauto ].
  all: try solve [ right; congruence ].
  all: try solve [ left; eapply Hrun; [eassumption | congruence] ].
  eapply Hrun; [eassumption | congruence].
Qed.

Lemma PoolOut_exec workerCount itemCount sched s :
  exec (Pool.step workerCount itemCount) sched Pool.init = Some s ->
  Pool.Inv workerCount itemCount s /\ PoolOut s.
Proof.
  apply (exec_invariant (Pool.step workerCount itemCount)
           (fun t => Pool.Inv workerCount itemCount t /\ PoolOut t)).
  - intros a t t' [HI HO] H. apply step_sound in H. split.
    + eapply Inv_step; eassumption.
    + eapply PoolOut_step; eassumption.
  - split; [apply Inv_init | apply PoolOut_init].
Qed.

Lemma alive_zero (l : list Pool.worker) w wk :
  Pool.alive l = 0 -> l !! w = Some wk -> Pool.pc wk = Pool.WExit.
Proof.
  intros Hz Hl.
  destruct (alter_split id l w wk Hl) as (l1 & l2 & -> & _ & _).
  rewrite alive_app, alive_cons in Hz.
  destruct (Pool.pc wk); try reflexivity; lia.
Qed.

(** X7: the WaitGroup does its job.  In every run of the pool, for any
    number of workers and items: the counter of the WaitGroup is the
    number of workers that have not returned (so it never goes negative);
    no worker returns before [close(done)]; and once [main] is past
    [wg.Wait()], all [workerCount] workers have been started and have
    returned. *)
Theorem X7_wait_group_counts_workers
    (workerCount itemCount : nat) (sched : list Pool.action) (s : Pool.state) :
  exec (Pool.step workerCount itemCount) sched Pool.init = Some s ->
  Pool.wg s = Z.of_nat (Pool.alive (Pool.workers s)) /\
  (Chan.closed (Pool.done s) = false ->
   forall w wk, Pool.workers s !! w = Some wk -> Pool.pc wk <> Pool.WExit) /\
  (Pool.main s = Pool.MPrint \/ Pool.main s = Pool.MExit ->
   length (Pool.workers s) = workerCount /\
   forall w wk, Pool.workers s !! w = Some wk -> Pool.pc wk = Pool.WExit).
Proof.
  intros H. destruct (Inv_exec _ _ _ _ H).
  split; [assumption|]. split.
  - intros Hc w wk Hw Hpc.
    pose proof (exited_not_alive _ _ _ Hw Hpc). specialize (inv_alive Hc). lia.
  - intros Hm. split.
    + destruct Hm as [Hm|Hm]; rewrite Hm in inv_len; exact inv_len.
    + intros w wk Hw. eapply alive_zero; eauto.
Qed.

Lemma X7_wait_group_counts_workers_witness :
  exists s,
    exec (Pool.step 2 2) Pool.demo Pool.init = Some s /\
    Pool.wg s = 0%Z /\ length (Pool.workers s) = 2.
Proof.
  eexists. split; [vm_compute; reflexivity|].
  pose proof (X7_wait_group_counts_workers 2 2 Pool.demo _
                ltac:(vm_compute; reflexivity)) as (H1 & _ & H3).
  split; [exact H1 | exact (proj1 (H3 (or_intror eq_refl)))].
Defined.

Lemma once_nil {A} (x : A) : once x [].
Proof. intros i j H. destruct i; discriminate. Qed.

Lemma before_nil {A} (x y : A) : before x y [].
Proof. intros i j H. destruct i; discriminate. Qed.

Lemma once_snoc {A} (x z : A) (l : list A) :
  once x l -> (z = x -> x ∉ l) -> once x (l ++ [z]).
Proof.
  intros Ho Hz i j Hi Hj.
  apply lookup_snoc_Some in Hi. apply lookup_snoc_Some in Hj.
  destruct Hi as [[_ Hi]|[-> Ei]], Hj as [[_ Hj]|[-> Ej]].
  - eapply Ho; eassumption.
  - exfalso. apply (Hz Ej). eapply list_elem_of_lookup_2; eassumption.
  - exfalso. apply (Hz Ei). eapply list_elem_of_lookup_2; eassumption.
  - reflexivity.
Qed.

Lemma before_snoc {A} (x y z : A) (l : list A) :
  before x y l -> x <> y -> (z = x -> y ∉ l) -> before x y (l ++ [z]).
Proof.
  intros Hb Hne Hz i j Hi Hj.
  apply lookup_snoc_Some in Hi. apply lookup_snoc_Some in Hj.
  destruct Hi as [[Hlt Hi]|[-> Ei]], Hj as [[Hlt' Hj]|[-> Ej]].
  - eapply Hb; eassumption.
  - exact Hlt.
  - exfalso. apply (Hz Ei). eapply list_elem_of_lookup_2; eassumption.
  - congruence.
Qed.

Lemma PoolOnce_init : PoolOnce Pool.init.
Proof.
  constructor; simpl; intros; try apply once_nil; try apply before_nil.
  all: match goal with H : _ ∈ [] |- _ => inversion H end.
Qed.

Lemma PoolOnce_step workerCount itemCount a s s' :
  Pool.Step workerCount itemCount a s s' ->
  Pool.Inv workerCount itemCount s -> PoolOut s -> PoolOnce s ->
  PoolOnce s'.
Proof.
  intros HS HI HO HP.
  destruct HO as [_ _ Hall _].
  destruct HP as [Hrun Hdone Hr1 Hd1 Hord Ha1].
  pose proof (Pool.inv_ids _ _ _ HI) as Hids.
  destruct HS;
    match goal with
    | H : Pool.halted _ = false |- _ =>
        destruct (halted_false _ H) as [Hnp Hne]
    end;
    specialize (Hall Hne); unfold Pool.at_pc;
    try match goal with
        | Hl : Pool.workers _ !! ?w = Some ?wk |- _ =>
            rewrite (Hids _ _ Hl) in *
        end;
    constructor; simpl.
  all: try assumption.
  (* a line that is printed now was not printed before *)
  all: try solve [
    intros v; apply once_snoc; [auto|];
    intros E; try discriminate E; try injection E as <-; try exact Hall;
    intros Hin;
    first [ destruct (Hrun _ Hin) as (wk' & Hl' & Hp')
          | destruct (Hdone _ Hin) as (wk' & Hl' & Hp') ];
    congruence ].
  all: try solve [
    apply once_snoc; [auto|]; intros E; try discriminate E; exact Hall ].
  all: try solve [
    intros v; apply before_snoc; [auto | discriminate |];
    intros E; try discriminate E; injection E as <-;
    intros Hin; destruct (Hdone _ Hin) as (wk' & Hl' & Hp'); congruence ].
  (* the workers behind the lines *)
  all: intros v Hin;
    try (apply elem_of_app in Hin; destruct Hin as [Hin|Hin];
         [| apply list_elem_of_singleton in Hin; try discriminate Hin;
            injection Hin as -> ]).
  all: try match goal with
       | Hin : Pool.Running _ ∈ _ |- _ =>
           destruct (Hrun _ Hin) as (wk' & Hl' & Hp')
       | Hin : Pool.IsDone _ ∈ _ |- _ =>
           destruct (Hdone _ Hin) as (wk' & Hl' & Hp')
       end.
  all: try solve [ eauto ].
  all: try solve [ exists wk'; split; [|exact Hp'];
                   apply lookup_app_l_Some; exact Hl' ].
  all: try solve [
    match goal with
    | Hl : Pool.workers _ !! ?w = Some ?wk |- context [alter _ ?w _ !! ?v] =>
        destruct (decide (w = v)) as [<-|Hnv];
        [ rewrite list_lookup_alter_eq, Hl; simpl;
          eexists; split; [reflexivity|]; simpl; congruence
        | rewrite list_lookup_alter_ne by exact Hnv; eauto ]
    end ].
  all: match goal with
       | Hl : Pool.workers _ !! ?w = Some ?wk |- _ =>
           rewrite list_lookup_alter_eq, Hl; simpl;
           eexists; split; [reflexivity|]; simpl; congruence
       end.
Qed.

Lemma PoolOnce_exec workerCount itemCount sched s :
  exec (Pool.step workerCount itemCount) sched Pool.init = Some s ->
  PoolOnce s.
Proof.
  intros H.
  cut (Pool.Inv workerCount itemCount s /\ PoolOut s /\ PoolOnce s);
    [tauto|].
  revert H.
  apply (exec_invariant (Pool.step workerCount itemCount)
           (fun t => Pool.Inv workerCount itemCount t /\ PoolOut t /\
                     PoolOnce t)).
  - intros a t t' (HI & HO & HP) H. apply step_sound in H. split; [|split].
    + eapply Inv_step; eassumption.
    + eapply PoolOut_step; eassumption.
    + eapply PoolOnce_step; eassumption.
  - split; [apply Inv_init|]. split; [apply PoolOut_init | apply PoolOnce_init].
Qed.

(** X8: what the pool prints.  In every run, for any number of workers
    and items: "all done!" is printed at most once; each worker prints
    its "is running" line at most once and its "is done" line at most
    once, the first before the second, and every "is done" line before
    "all done!".  Once "all done!" is printed [main] has returned, it is
    the last line, and every one of the [workerCount] workers has printed
    its "is running" and its "is done" line. *)
Theorem X8_all_done_comes_last
    (workerCount itemCount : nat) (sched : list Pool.action) (s : Pool.state) :
  exec (Pool.step workerCount itemCount) sched Pool.init = Some s ->
  once Pool.AllDone (Pool.out s) /\
  (forall w,
     once (Pool.Running w) (Pool.out s) /\
     once (Pool.IsDone w) (Pool.out s) /\
     before (Pool.Running w) (Pool.IsDone w) (Pool.out s) /\
     before (Pool.IsDone w) Pool.AllDone (Pool.out s)) /\
  (Pool.AllDone ∈ Pool.out s ->
   Pool.main s = Pool.MExit /\
   last (Pool.out s) = Some Pool.AllDone /\
   forall w, w < workerCount ->
     Pool.Running w ∈ Pool.out s /\ Pool.IsDone w ∈ Pool.out s).
Proof.
  intros H.
  destruct (PoolOut_exec _ _ _ _ H) as [HI [Hrun Hdone Hall Hlast]].
  destruct (PoolOnce_exec _ _ _ _ H) as [_ _ Hr1 Hd1 Hord Ha1].
  assert (Hexit : Pool.AllDone ∈ Pool.out s -> Pool.main s = Pool.MExit).
  { intros Hin. destruct (Pool.main s) eqn:E; try reflexivity;
      exfalso; (apply Hall; [discriminate | exact Hin]). }
  split; [exact Ha1|]. split.
  - intros w. split; [apply Hr1|]. split; [apply Hd1|]. split; [apply Hord|].
    intros i j Hi Hj.
    assert (Hin : Pool.AllDone ∈ Pool.out s)
      by (eapply list_elem_of_lookup_2; exact Hj).
    pose proof (Hlast (Hexit Hin)) as Hl. rewrite last_lookup in Hl.
    pose proof (Ha1 _ _ Hj Hl) as Ej.
    pose proof (lookup_lt_Some _ _ _ Hi) as Hlt.
    destruct (decide (i = j)) as [->|Hne]; [congruence | lia].
  - intros Hin. pose proof (Hexit Hin) as Hm.
    split; [exact Hm|]. split; [exact (Hlast Hm)|].
    intros w Hw. destruct HI.
    rewrite Hm in inv_len. simpl in inv_len.
    destruct (lookup_lt_is_Some_2 (Pool.workers s) w) as [wk Hwk]; [lia|].
    assert (Hpc : Pool.pc wk = Pool.WExit)
      by (eapply alive_zero; [apply inv_fin; right; exact Hm | exact Hwk]).
    split; [eapply Hrun; [exact Hwk | congruence] | eapply Hdone; eassumption].
Qed.

Lemma X8_all_done_comes_last_witness :
  exists s,
    exec (Pool.step 2 2) Pool.demo Pool.init = Some s /\
    last (Pool.out s) = Some Pool.AllDone /\
    Pool.IsDone 0 ∈ Pool.out s /\ Pool.IsDone 1 ∈ Pool.out s /\
    before (Pool.Running 0) (Pool.IsDone 0) (Pool.out s).
Proof.
  eexists. split; [vm_compute; reflexivity|].
  pose proof (X8_all_done_comes_last 2 2 Pool.demo _
                ltac:(vm_compute; reflexivity)) as (_ & H2 & H3).
  destruct (H3 ltac:(simpl; repeat constructor)) as (_ & H4 & H5).
  split; [exact H4|].
  split; [exact (proj2 (H5 0 ltac:(lia)))|].
  split; [exact (proj2 (H5 1 ltac:(lia)))|].
  exact (proj1 (proj2 (proj2 (H2 0)))).
Defined.

(* --------------------------------------------------------------------- *)
(** ** The first value of several senders (lines 120-133 and 146-163)     *)
(* --------------------------------------------------------------------- *)

Lemma senders_of_app l1 l2 :
  senders_of (l1 ++ l2) = senders_of l1 ++ senders_of l2.
Proof. apply omap_app. Qed.

Section RacerOutFacts.
Variable count : nat.

Local Abbreviation step := (Racer.step Racer.CloseDone count).

Lemma RacerOut_init : RacerOut count Racer.init.
Proof.
  constructor; unfold who_sent; simpl; try reflexivity.
  - intros v [H|H]; [discriminate | inversion H].
  - intros g sd H; destruct g; discriminate.
  - intros i H; inversion H.
  - discriminate.
  - intros g H; inversion H.
  - intros _ i H; inversion H.
Qed.

Lemma RacerOut_step a s s' :
  step a s = Some s' -> Racer.Inv count s -> RacerOut count s ->
  RacerOut count s'.
Proof.
  intros H HI HO. destruct HI.
  unfold Racer.step, Racer.step_main, Racer.step_hand, Racer.step_sender,
    Racer.halted, Chan.close, Chan.send, Chan.can_recv in H.
  rewrite inv_panic, inv_ch, ?orb_false_r in H.
  destruct a as [[|g]|g]; break_step H; bool_facts;
    unfold Racer.at_pc in *; simpl in *.
  all: try congruence.
  all: try match goal with
       | H : Racer.senders ?s !! ?g = Some ?sd
         |- context [alter (fun sd0 => Racer.MkSender (Racer.idx sd0) ?p)
                           ?g (Racer.senders ?s)] =>
           destruct (racer_at_pc_facts _ g sd p H) as (Hlen & Hlk & _)
       end.
  all: destruct HO as [Hwho Hprint Hsent Hline Hwinner Hexited Hearly].
  all: unfold who_sent in *; simpl in *.
  all: rewrite ?senders_of_app in *; simpl in *; rewrite ?app_nil_r in *.
  all: clear inv_ops inv_closes.
  all: repeat match goal with
              | H : Racer.main _ = _ |- _ => rewrite H in *
              end; simpl in *.
  all: try match goal with
       | Hw : false = false -> forall g sd, _ -> Racer.pc sd = Racer.GSelect,
         Hl : Racer.senders _ !! _ = Some ?sd, E : Racer.pc ?sd = _ |- _ =>
           rewrite (Hw eq_refl _ _ Hl) in E; discriminate E
       end.
  all: destruct (senders_of (Racer.ops s)) as [|w [|? ?]] eqn:Ew;
    simpl in *; try contradiction; try discriminate.
  all: try match goal with
       | Hw : false = true /\ _ |- _ => destruct Hw; discriminate
       end.
  all: constructor; unfold who_sent; simpl.
  all: rewrite ?senders_of_app, ?Ew; simpl.
  all: repeat match goal with
              | H : Racer.main _ = _ |- _ => rewrite H in *
              end; simpl in *.
  all: try solve [ auto ].
  all: try solve [ intros; discriminate ].
  all: try solve [ intros ? Hin; apply Hline in Hin; exact Hin ].
  all: try solve [ intros ? [Hm|Hin]; [discriminate|];
                   apply Hprint; right; exact Hin ].
  (* the lines printed *)
  all: try solve [
    intros ? [Hm|Hin];
    [ first [ discriminate Hm
            | apply Hprint; left; exact Hm
            | injection Hm as <-; exists g; split; [reflexivity|];
              erewrite inv_idx by eassumption; reflexivity ]
    | try (apply elem_of_app in Hin; destruct Hin as [Hin|Hin];
           [| apply list_elem_of_singleton in Hin; try discriminate Hin;
              injection Hin as -> ]);
      first [ apply Hprint; right; exact Hin
            | apply Hprint; left; reflexivity
            | destruct (Hprint _ (or_intror Hin)) as (? & ? & _);
              discriminate ] ] ].
  all: try solve [
    intros ? Hin;
    try (apply elem_of_app in Hin; destruct Hin as [Hin|Hin];
         [| apply list_elem_of_singleton in Hin; try discriminate Hin;
            injection Hin as -> ]);
    try (apply Hline; exact Hin);
    try (destruct (Hline _ Hin) as (? & ? & _); discriminate);
    try (exists g; split; [eapply Hsent; eassumption |
                           eapply inv_idx; eassumption]) ].
  all: try solve [
    intros g0 Hin;
    try (apply elem_of_app in Hin; destruct Hin as [Hin|Hin];
         [| apply list_elem_of_singleton in Hin; try discriminate Hin;
            injection Hin as Hin ]);
    try (apply Hexited; exact Hin);
    try (exfalso; eapply Hearly; [| exact Hin]; assumption);
    try (erewrite inv_idx in Hin by eassumption; apply Nat2Z.inj in Hin;
         subst g0; intros E;
         match goal with
         | Hl : Racer.senders _ !! _ = Some ?sd, Hp : Racer.pc ?sd = _ |- _ =>
             destruct (Hwinner _ _ E Hl) as [X|X]; rewrite X in Hp;
             discriminate Hp
         end) ].
  all: try solve [
    intros Hc ? Hin;
    apply elem_of_app in Hin; destruct Hin as [Hin|Hin];
    [ eapply Hearly; eassumption
    | apply list_elem_of_singleton in Hin; try discriminate Hin;
      eapply inv_exiting; eassumption ] ].
  (* the goroutine that moved, and the others *)
  all: try solve [
    intros g0 sd Hl Hp; apply lookup_app_Some in Hl;
    destruct Hl as [Hl|[_ Hl]];
    [ rewrite (inv_waiting eq_refl _ _ Hl) in Hp; discriminate Hp
    | apply list_lookup_singleton_Some in Hl; destruct Hl as [_ <-];
      discriminate Hp ] ].
  all: try solve [
    split; [reflexivity|];
    match goal with
    | Hl : Racer.senders _ !! _ = Some _ |- _ =>
        apply lookup_lt_Some in Hl; lia
    end ].
  all: try solve [
    match goal with
    | Hs : Racer.senders _ !! ?g = Some ?s0, Hpc : Racer.pc ?s0 = _ |- _ =>
        intros g0 sd Hl Hp; destruct (decide (g = g0)) as [<-|Hne];
        [ rewrite list_lookup_alter_eq, Hs in Hl; simpl in Hl;
          injection Hl as <-; simpl in Hp;
          first [ discriminate Hp | reflexivity ]
        | rewrite list_lookup_alter_ne in Hl by exact Hne;
          first [ exact (Hsent _ _ Hl Hp)
                | rewrite (inv_waiting eq_refl _ _ Hl) in Hp;
                  discriminate Hp ] ]
    end ].
  all: match goal with
       | Hs : Racer.senders _ !! ?g = Some ?s0, Hpc : Racer.pc ?s0 = _ |- _ =>
           intros g0 sd E Hl; destruct (decide (g = g0)) as [<-|Hne];
           [ rewrite list_lookup_alter_eq, Hs in Hl; simpl in Hl;
             injection Hl as <-; simpl;
             first [ right; reflexivity | left; reflexivity
                   | destruct (Hwinner _ _ E Hs) as [X|X]; rewrite X in Hpc;
                     discriminate Hpc ]
           | rewrite list_lookup_alter_ne in Hl by exact Hne;
             first [ exact (Hwinner _ _ E Hl) | congruence ] ]
       end.
Qed.

Lemma RacerOut_exec sched s :
  exec step sched Racer.init = Some s -> Racer.Inv count s /\ RacerOut count s.
Proof.
  apply (exec_invariant step
           (fun s => Racer.Inv count s /\ RacerOut count s)).
  - intros a s1 s2 [HI HO] H. split.
    + eapply racer_Inv_step; eassumption.
    + eapply RacerOut_step; eassumption.
  - split; [apply racer_Inv_init | apply RacerOut_init].
Qed.

End RacerOutFacts.

(** X10: one value, one winner.  In every run of the program with
    [done], for any number of goroutines: at most one send on [ch] goes
    through, and exactly one once [main] has its value; the value that
    [main] prints is [(g + 1) * 2] for that goroutine [g]; only [g]
    prints "sent result", and a goroutine that prints "exiting" is not
    [g]. *)
Theorem X10_one_sender_wins
    (count : nat) (sched : list Racer.action) (s : Racer.state) :
  exec (Racer.step Racer.CloseDone count) sched Racer.init = Some s ->
  length (who_sent s) <= 1 /\
  (who_sent s = [] <-> Racer.past_recv (Racer.main s) = false) /\
  (forall v, Racer.Result v ∈ Racer.out s ->
     exists g, g < count /\ who_sent s = [g] /\
               v = Racer.value (Z.of_nat g)) /\
  (forall i, Racer.SentResult i ∈ Racer.out s ->
     exists g, who_sent s = [g] /\ i = Z.of_nat g) /\
  (forall g, Racer.Exiting (Z.of_nat g) ∈ Racer.out s -> who_sent s <> [g]).
Proof.
  intros H. destruct (RacerOut_exec _ _ _ H) as [_ HO].
  destruct HO as [Hwho Hprint Hsent Hline Hwinner Hexited Hearly].
  repeat split.
  - destruct (who_sent s) as [|? [|? ?]]; simpl; try lia; contradiction.
  - intros E. rewrite E in Hwho. exact Hwho.
  - intros E. destruct (who_sent s) as [|? [|? ?]]; try reflexivity;
      try contradiction. destruct Hwho; congruence.
  - intros v Hin. destruct (Hprint v (or_intror Hin)) as (g & Eg & Ev).
    exists g. rewrite Eg in Hwho. destruct Hwho. auto.
  - exact Hline.
  - exact Hexited.
Qed.

Lemma X10_one_sender_wins_witness :
  exists s,
    exec (Racer.step Racer.CloseDone 3) Racer.demo Racer.init = Some s /\
    who_sent s = [1] /\ Racer.Result 4 ∈ Racer.out s.
Proof.
  eexists. split; [vm_compute; reflexivity|].
  pose proof (X10_one_sender_wins 3 Racer.demo _
                ltac:(vm_compute; reflexivity)) as (_ & _ & H3 & _).
  destruct (H3 4%Z ltac:(simpl; repeat constructor)) as (g & _ & Hg & _).
  split; [reflexivity | simpl; repeat constructor].
Defined.

Lemma waiting_app l1 l2 : waiting (l1 ++ l2) = waiting l1 + waiting l2.
Proof. unfold waiting. rewrite List.filter_app, length_app. reflexivity. Qed.

Lemma waiting_at_pc (l : list Racer.sender) g sd p :
  l !! g = Some sd ->
  waiting (alter (fun sd => Racer.MkSender (Racer.idx sd) p) g l)
    + waiting_pc (Racer.pc sd) = waiting l + waiting_pc p.
Proof.
  intros H.
  destruct (alter_split (fun sd => Racer.MkSender (Racer.idx sd) p)
              l g sd H) as (l1 & l2 & -> & -> & _).
  rewrite !waiting_app. unfold waiting at 2 4. simpl.
  destruct (Racer.pc sd), p; simpl; lia.
Qed.

Section RacerChFacts.
Variable count : nat.

Local Abbreviation step := (Racer.step Racer.CloseCh count).

Lemma RacerCh_init : RacerCh count Racer.init.
Proof.
  constructor; simpl; try reflexivity; try lia; try discriminate.
  intros _; split; reflexivity.
Qed.

Lemma RacerCh_step a s s' :
  step a s = Some s' -> RacerCh count s -> RacerCh count s'.
Proof.
  intros H HI. destruct HI as [Hch Hlen Hbound Hbefore Hafter Hpanic].
  unfold Racer.step, Racer.step_main, Racer.step_hand, Racer.step_sender,
    Racer.halted, Chan.close, Chan.send, Chan.can_recv in H.
  rewrite ?orb_false_r in H.
  destruct a as [[|g]|g]; break_step H; bool_facts;
    unfold Racer.at_pc in *; simpl in *.
  all: repeat match goal with
              | H : Racer.main _ = _ |- _ => rewrite H in *
              end; simpl in *.
  all: try congruence.
  all: try match goal with
       | H : Racer.senders ?s !! ?g = Some ?sd |- _ =>
           pose proof (waiting_at_pc _ g sd Racer.GEnd H) as HwE;
           pose proof (waiting_at_pc _ g sd Racer.GSent H) as HwS
       end.
  all: repeat match goal with
              | H : Racer.pc _ = _ |- _ => rewrite H in *
              end; simpl in *.
  all: constructor; simpl.
  all: repeat match goal with
              | H : Racer.main _ = _ |- _ => rewrite H in *
              end; simpl in *.
  all: rewrite ?length_app, ?length_alter, ?waiting_app; simpl.
  all: try assumption; try discriminate; try lia; try congruence.
  all: try solve [ intros _; destruct (Hbefore eq_refl) as [? ?];
                   split; [assumption | unfold waiting at 2; simpl; lia] ].
  all: try solve [ intros _; destruct (Hbefore eq_refl) as [? ?];
                   split; [assumption | lia] ].
  intros msg Hm; injection Hm as <-.
  repeat split; [assumption|]. specialize (Hafter eq_refl). lia.
Qed.

Lemma RacerCh_exec sched s :
  exec step sched Racer.init = Some s -> RacerCh count s.
Proof.
  apply (exec_invariant step (RacerCh count)); [|apply RacerCh_init].
  intros a s1 s2 HI H. eapply RacerCh_step; eassumption.
Qed.

End RacerChFacts.

Lemma fresh_senders_S k :
  fresh_senders (S k) =
  fresh_senders k ++ [Racer.MkSender (Z.of_nat k) Racer.GSelect].
Proof. unfold fresh_senders. rewrite seq_S, fmap_app. reflexivity. Qed.

(** The loop of [main]: after [k] rounds the first [k] goroutines stand
    at their send, and nothing else has happened. *)
Lemma racer_spawn v count k :
  k <= count ->
  exec (Racer.step v count) (replicate k (Racer.Run Racer.Main)) Racer.init =
  Some (Racer.MkState (Racer.MSpawn k) (fresh_senders k) Chan.make Chan.make
          [] [] None).
Proof.
  induction k as [|k IH]; intros Hk; [reflexivity|].
  rewrite replicate_S_end, exec_app, IH by lia. simpl.
  unfold Racer.step, Racer.step_main; simpl.
  destruct (k <? count) eqn:E; [|apply Nat.ltb_ge in E; lia].
  rewrite fresh_senders_S. reflexivity.
Qed.

(** X11: closing [ch] under the senders.  The program that closes [ch]
    itself can panic exactly when it starts two goroutines or more: every
    panic of a run is "send on closed channel", comes after [close(ch)]
    and needs a second goroutine; and with two or more goroutines the run
    in which goroutine 0 wins and goroutine 1 is scheduled during the
    sleep of [main] does panic. *)
Theorem X11_close_ch_panics_iff_two_senders (count : nat) :
  (forall sched s msg,
     exec (Racer.step Racer.CloseCh count) sched Racer.init = Some s ->
     Racer.panicked s = Some msg ->
     msg = "send on closed channel"%string /\
     Chan.closed (Racer.ch s) = true /\ 2 <= count) /\
  (2 <= count ->
   exists s,
     exec (Racer.step Racer.CloseCh count) (crash_run count) Racer.init
       = Some s /\
     Racer.panicked s = Some "send on closed channel"%string).
Proof.
  split.
  - intros sched s msg H Hp.
    destruct (RacerCh_exec _ _ _ H) as [_ _ _ _ _ Hpanic]. auto.
  - intros H. unfold crash_run.
    rewrite replicate_S_end, <- app_assoc, exec_app, racer_spawn by lia.
    destruct count as [|[|n]]; try lia.
    simpl. unfold Racer.step, Racer.step_main; simpl.
    rewrite Nat.ltb_irrefl. simpl.
    eexists; split; reflexivity.
Qed.

Lemma X11_close_ch_panics_iff_two_senders_witness :
  2 <= 3 /\
  exists s,
    exec (Racer.step Racer.CloseCh 3) (crash_run 3) Racer.init = Some s /\
    Racer.panicked s = Some "send on closed channel"%string.
Proof.
  split; [lia|].
  apply (proj2 (X11_close_ch_panics_iff_two_senders 3)). lia.
Defined.

(* --------------------------------------------------------------------- *)
(** ** The runs of [Query] (lines 436-447)                                *)
(* --------------------------------------------------------------------- *)

Lemma alter_last {A} (f : A -> A) (l : list A) (x : A) :
  alter f (length l) (l ++ [x]) = l ++ [f x].
Proof. induction l as [|y l IH]; simpl; [reflexivity | f_equal; exact IH]. Qed.

Lemma lookup_last {A} (l : list A) (x : A) : (l ++ [x]) !! length l = Some x.
Proof. apply list_lookup_middle. reflexivity. Qed.

Section QueryRuns.
Variable Conn Result : Type.
Variable DoQuery : Conn -> string -> Result.
Variable conns : list Conn.
Variable query : string.

Local Abbreviation step := (Dispatch.step Conn Result DoQuery conns query).

Lemma query_spawn k :
  k <= length conns ->
  exec step (replicate k Dispatch.Caller) Dispatch.init =
  Some (Dispatch.MkState Conn Result (Dispatch.CSpawn k)
          ((fun c => Dispatch.MkAttempt c Dispatch.ACall) <$> take k conns)
          Chan.make [] None).
Proof.
  induction k as [|k IH]; intros Hk; [reflexivity|].
  rewrite replicate_S_end, exec_app, IH by lia. simpl.
  unfold Dispatch.step, Dispatch.Query; simpl.
  destruct (lookup_lt_is_Some_2 conns k) as [conn Hc]; [lia|].
  rewrite Hc. rewrite (take_S_r _ _ _ Hc), fmap_app. reflexivity.
Qed.

Lemma query_give_up_round (l : list (Dispatch.attempt Conn Result)) conn :
  conns !! length l = Some conn ->
  exec step
    [Dispatch.Caller; Dispatch.Attempt (length l); Dispatch.Attempt (length l)]
    (Dispatch.MkState Conn Result (Dispatch.CSpawn (length l)) l
       Chan.make [] None) =
  Some (Dispatch.MkState Conn Result (Dispatch.CSpawn (S (length l)))
          (l ++ [Dispatch.MkAttempt conn Dispatch.ADropped])
          Chan.make [] None).
Proof.
  intros Hc. simpl.
  unfold Dispatch.step, Dispatch.Query, Dispatch.step_attempt; simpl.
  rewrite Hc. simpl.
  rewrite lookup_last. simpl.
  unfold Dispatch.at_pc; simpl.
  rewrite !(alter_last _ l), lookup_last. simpl.
  rewrite ?(alter_last _ l). reflexivity.
Qed.

Lemma query_give_up k :
  k <= length conns ->
  exec step
    (flat_map
       (fun i => [Dispatch.Caller; Dispatch.Attempt i; Dispatch.Attempt i])
       (seq 0 k))
    Dispatch.init =
  Some (Dispatch.MkState Conn Result (Dispatch.CSpawn k)
          ((fun c => Dispatch.MkAttempt c Dispatch.ADropped) <$> take k conns)
          Chan.make [] None).
Proof.
  induction k as [|k IH]; intros Hk; [reflexivity|].
  rewrite seq_S, flat_map_app, exec_app, IH by lia.
  destruct (lookup_lt_is_Some_2 conns k) as [conn Hc]; [lia|].
  pose proof (query_give_up_round
                ((fun c => Dispatch.MkAttempt c Dispatch.ADropped)
                   <$> take k conns) conn) as R.
  rewrite length_fmap, length_take, Nat.min_l in R by lia.
  simpl flat_map. rewrite ?app_nil_r, R by exact Hc.
  rewrite (take_S_r _ _ _ Hc), fmap_app. reflexivity.
Qed.

End QueryRuns.

(** X12: which answer [Query] returns is up to the scheduler.  For every
    list of sources and every source [conns[j]] in it there is a run in
    which [Query] returns the answer of that source: the one in which
    [Query] reaches [<-ch] first and goroutine [j] runs next. *)
Theorem X12_any_source_can_win
    (Conn Result : Type) (DoQuery : Conn -> string -> Result)
    (conns : list Conn) (query : string) (j : nat) (c : Conn) :
  conns !! j = Some c ->
  exists s,
    exec (Dispatch.step Conn Result DoQuery conns query)
         (query_any_wins (length conns) j) Dispatch.init = Some s /\
    Dispatch.returned s = Some (DoQuery c query).
Proof.
  intros Hj. unfold query_any_wins.
  rewrite replicate_S_end, <- app_assoc, exec_app, query_spawn by lia.
  rewrite take_ge by lia. simpl.
  unfold Dispatch.step, Dispatch.Query, Dispatch.step_attempt; simpl.
  rewrite (lookup_ge_None_2 conns (length conns)) by lia. simpl.
  rewrite list_lookup_fmap, Hj. simpl.
  rewrite list_lookup_alter_eq, list_lookup_fmap, Hj. simpl.
  eexists; split; reflexivity.
Qed.

Lemma X12_any_source_can_win_witness :
  exists s,
    exec (Dispatch.step nat nat Dispatch.answer Dispatch.three "q")
         (query_any_wins 3 2) Dispatch.init = Some s /\
    Dispatch.returned s = Some 30.
Proof.
  exact (X12_any_source_can_win nat nat Dispatch.answer Dispatch.three "q"
           2 30 eq_refl).
Defined.

(** X13: [Query] can lose every answer.  For every list of sources there
    is a run in which each goroutine has its answer before [Query] is in
    [<-ch]: all of them leave through [default], [Query] then waits in
    [<-ch] with nothing returned, and no step is possible any more. *)
Theorem X13_every_answer_can_be_lost
    (Conn Result : Type) (DoQuery : Conn -> string -> Result)
    (conns : list Conn) (query : string) :
  exists s,
    exec (Dispatch.step Conn Result DoQuery conns query)
         (query_all_given_up (length conns)) Dispatch.init = Some s /\
    Dispatch.returned s = None /\
    length (Dispatch.attempts s) = length conns /\
    (forall i a, Dispatch.attempts s !! i = Some a ->
                 Dispatch.pc a = Dispatch.ADropped) /\
    stuck (Dispatch.step Conn Result DoQuery conns query) s.
Proof.
  unfold query_all_given_up.
  rewrite exec_app, query_give_up by lia.
  rewrite take_ge by lia. simpl.
  unfold Dispatch.step at 1, Dispatch.Query; simpl.
  rewrite (lookup_ge_None_2 conns (length conns)) by lia.
  eexists; split; [reflexivity|]. simpl.
  split; [reflexivity|]. split; [apply length_fmap|]. split.
  - intros i a H. rewrite list_lookup_fmap in H.
    destruct (conns !! i); [injection H as <-; reflexivity | discriminate].
  - intros [|i]; unfold Dispatch.step, Dispatch.Query, Dispatch.step_attempt;
      simpl; [reflexivity|].
    rewrite list_lookup_fmap. destruct (conns !! i); reflexivity.
Qed.

(* --------------------------------------------------------------------- *)
(** ** The [select] with a timer (lines 421-427)                          *)
(* --------------------------------------------------------------------- *)

Section TimeoutRuns.
Variable Msg : Type.
Variable zero : Msg.

Local Abbreviation step := (Timeout.step Msg zero).

Lemma timeout_one_branch_exec sched (s : Timeout.state Msg) :
  exec step sched Timeout.init = Some s -> one_branch s.
Proof.
  apply (exec_invariant step one_branch); [|reflexivity].
  intros a t t' Ht H. unfold Timeout.step in H.
  destruct a; break_step H; unfold one_branch in *; simpl in *;
    repeat match goal with
           | H : Timeout.pc _ = _ |- _ => rewrite H in *
           end; try assumption.
  rewrite Ht. eexists; reflexivity.
Qed.

Lemma timeout_closed_step a (s s' : Timeout.state Msg) :
  step a s = Some s' -> Timeout.closed s' = true ->
  Timeout.closed s = true \/ a = Timeout.Close.
Proof.
  intros H Hc. unfold Timeout.step in H.
  destruct a; break_step H; simpl in *; auto; discriminate.
Qed.

(** A message that the [select] holds was brought by a sender, or it is
    the zero value that a closed [ch] yields. *)
Lemma timeout_holds_step a (s s' : Timeout.state Msg) m :
  step a s = Some s' -> holds s' m ->
  holds s m \/ a = Timeout.Offer m \/
  (m = zero /\ Timeout.closed s = true).
Proof.
  intros H Hm. unfold Timeout.step in H.
  destruct a; break_step H; unfold holds in *; simpl in *; auto.
  all: destruct Hm as [Hm|[Hm|Hm]]; try discriminate; auto.
  all: try (injection Hm as <-; auto).
  apply elem_of_app in Hm. destruct Hm as [Hm|Hm]; auto.
  apply list_elem_of_singleton in Hm. subst. auto.
Qed.

Lemma timeout_holds_exec sched (s s' : Timeout.state Msg) m :
  exec step sched s = Some s' -> holds s' m ->
  holds s m \/ m ∈ offers sched \/
  (m = zero /\ (Timeout.closed s = true \/ Timeout.Close ∈ sched)).
Proof.
  revert s. induction sched as [|a sched IH]; intros s H Hm; simpl in *.
  - injection H as <-. left; exact Hm.
  - destruct (Timeout.step Msg zero a s) as [s1|] eqn:E; [|discriminate].
    destruct (IH _ H Hm) as [H1|[H1|[Hz [H1|H1]]]].
    + destruct (timeout_holds_step _ _ _ _ E H1) as [H2|[H2|[H2 H3]]].
      * left; exact H2.
      * subst a. right; left. unfold offers. simpl. left.
      * right; right. split; [exact H2 | left; exact H3].
    + right; left. unfold offers in *. simpl. destruct a; try exact H1.
      right; exact H1.
    + right; right. split; [exact Hz|].
      destruct (timeout_closed_step _ _ _ E H1) as [H2|H2];
        [left; exact H2 | right; subst a; left].
    + right; right. split; [exact Hz|]. right. right. exact H1.
Qed.

End TimeoutRuns.

(** X14: the [select] takes one branch.  In every run of the [select]
    with a timer, whatever arrives on [ch], whenever, and whether or not
    [ch] is closed: [process] is called at most once, only in the first
    branch, and only with a message that a sender has brought to [ch] or,
    when [ch] has been closed, with the zero value that the receive on a
    closed channel yields; when the [select] is left through the timer,
    [process] has not been called and a second has passed. *)
Theorem X14_select_takes_one_branch
    (Msg : Type) (zero : Msg)
    (sched : list (Timeout.action Msg)) (s : Timeout.state Msg) :
  exec (Timeout.step Msg zero) sched Timeout.init = Some s ->
  length (Timeout.processed s) <= 1 /\
  (forall m, m ∈ Timeout.processed s ->
     (m ∈ offers sched \/ (m = zero /\ Timeout.Close ∈ sched)) /\
     Timeout.pc s = Timeout.SProcessed) /\
  (Timeout.pc s = Timeout.STimedOut ->
   Timeout.processed s = [] /\ (Timeout.Second <= Timeout.now s)%N).
Proof.
  intros H. pose proof (timeout_one_branch_exec _ _ _ _ H) as Hb.
  pose proof (timeout_sound_exec _ _ _ H) as [Hto _].
  unfold one_branch in Hb. repeat split.
  - destruct (Timeout.pc s); try (rewrite Hb; simpl; lia).
    destruct Hb as [m ->]. simpl. lia.
  - destruct (timeout_holds_exec _ _ _ _ _ m H) as [Hm|[Hm|[Hz [Hm|Hm]]]];
      [right; right; assumption | | | |].
    + destruct Hm as [Hm|[Hm|Hm]]; try discriminate. inversion Hm.
    + left; exact Hm.
    + discriminate Hm.
    + right. split; assumption.
  - destruct (Timeout.pc s); try reflexivity; rewrite Hb in *;
      match goal with Hin : _ ∈ [] |- _ => inversion Hin end.
  - apply Hto; assumption.
  - apply Hto; assumption.
Qed.

Lemma X14_select_takes_one_branch_witness :
  exists s,
    exec (Timeout.step nat 0)
         [Timeout.Pass 5; Timeout.Close; Timeout.Recv; Timeout.Process]
         Timeout.init = Some s /\
    Timeout.processed s = [0] /\ Timeout.pc s = Timeout.SProcessed.
Proof.
  eexists. split; [vm_compute; reflexivity|].
  pose proof (X14_select_takes_one_branch nat 0
                [Timeout.Pass 5; Timeout.Close; Timeout.Recv;
                 Timeout.Process] _
                ltac:(vm_compute; reflexivity)) as (_ & H2 & _).
  split; [reflexivity|].
  exact (proj2 (H2 0 ltac:(simpl; repeat constructor))).
Defined.

(* --------------------------------------------------------------------- *)
(** ** Goroutines that close over the loop variable (lines 306-317)       *)
(* --------------------------------------------------------------------- *)

Section CaptureFacts.
Variable data : list string.

Local Abbreviation step := (Closure.step Closure.Capture data).

Lemma CapInv_init : CapInv data Closure.init.
Proof.
  constructor; simpl; try reflexivity; try lia.
  - intros g u H; destruct g; discriminate.
  - intros g x H; inversion H.
Qed.

Lemma CapInv_step a s s' :
  step a s = Some s' -> CapInv data s -> CapInv data s'.
Proof.
  intros H HI. destruct HI as [Hlen Hbound Hv Hshared Hout].
  unfold Closure.step, Closure.step_main, Closure.step_unit in H.
  destruct a as [|g]; break_step H; simpl in *.
  all: repeat match goal with
              | H : Closure.main _ = _ |- _ => rewrite H in *
              end; simpl in *.
  all: try match goal with
       | H : data !! _ = Some _ |- _ => pose proof (lookup_lt_Some _ _ _ H)
       | H : data !! _ = None |- _ => apply lookup_ge_None in H
       end.
  all: try match goal with
       | H : Closure.gors _ !! ?g = Some ?u |- _ =>
           pose proof (lookup_lt_Some _ _ _ H) as Hlt;
           pose proof (Hshared _ _ H) as Hb; simpl in Hb;
           try discriminate Hb
       end.
  all: constructor; simpl;
    rewrite ?length_insert, ?length_app; simpl.
  all: repeat match goal with
              | H : Closure.main _ = _ |- _ => rewrite H in *
              end; simpl in *.
  all: try assumption; try lia; try exact I.
  all: try solve [ intros g1 x Hin; destruct (Hout _ _ Hin) as (k0 & ? & ?);
                   exists k0; split; [lia | assumption] ].
  all: try solve [ replace (length data) with k by lia; assumption ].
  all: try solve [ intros g1 u Hl; apply lookup_snoc_Some in Hl;
                   destruct Hl as [[_ Hl]|[_ <-]]; simpl; eauto ].
  all: try solve [ intros g1 u Hl; apply list_lookup_insert_Some in Hl;
                   destruct Hl as [(_ & <- & _)|[_ Hl]]; simpl; eauto ].
  all: intros g1 x Hin; apply elem_of_app in Hin; destruct Hin as [Hin|Hin];
    [ destruct (Hout _ _ Hin) as (k0 & ? & ?);
      exists k0; split; [lia | assumption] |];
    apply list_elem_of_singleton in Hin; injection Hin as -> ->.
  - rewrite Hlen in *. destruct k as [|j]; [lia|].
    exists j. split; [lia | exact Hv].
  - exists k. split; [lia | exact Hv].
  - rewrite Hlen in *. destruct (length data) as [|j]; [lia|].
    exists j. split; [lia | exact Hv].
Qed.

Lemma CapInv_exec sched s :
  exec step sched Closure.init = Some s -> CapInv data s.
Proof.
  apply (exec_invariant step (CapInv data)); [|apply CapInv_init].
  intros a s1 s2 HI H. eapply CapInv_step; eassumption.
Qed.

End CaptureFacts.

(** Under the rule of Go 1.22 the closure behaves as the function
    literal that takes [v] as its argument. *)
Lemma capture_fresh_step data a s :
  Closure.step Closure.CaptureFresh data a s
  = Closure.step Closure.Argument data a s.
Proof. reflexivity. Qed.

Lemma capture_fresh_exec data sched s :
  exec (Closure.step Closure.CaptureFresh data) sched s
  = exec (Closure.step Closure.Argument data) sched s.
Proof.
  revert s. induction sched as [|a sched IH]; intros s; simpl;
    [reflexivity|].
  rewrite capture_fresh_step.
  destruct (Closure.step Closure.Argument data a s); [apply IH | reflexivity].
Qed.

(** X15: what the closure prints depends on the rule for loop variables.
    The program whose goroutines close over [v] is run for every [data]
    and every schedule, with the reads and writes of [v] taken as atomic.
    Under the rule of Go before 1.22 (one [v] for the loop, as the source
    describes it): what goroutine [g] prints is an element [data[k]] of
    its own or a later iteration ([g <= k]), never of an earlier one, and
    a goroutine that runs when the loop is over prints the last element,
    which is how the source gets "three, three, three".  Under the rule
    of Go 1.22 and later (a [v] for each iteration): goroutine [g] prints
    [data[g]], its own element. *)
Theorem X15_closure_reads_the_loop_variable (data : list string) :
  (forall sched s,
     exec (Closure.step Closure.Capture data) sched Closure.init = Some s ->
     (forall g x, (g, x) ∈ Closure.out s ->
        exists k, g <= k < length data /\ data !! k = Some x) /\
     (Closure.main s = Closure.MSleep ->
      forall g s',
        Closure.step Closure.Capture data (Closure.Unit g) s = Some s' ->
        exists x, last data = Some x /\
                  Closure.out s' = Closure.out s ++ [(g, x)])) /\
  (forall sched s,
     exec (Closure.step Closure.CaptureFresh data) sched Closure.init
       = Some s ->
     forall g x, (g, x) ∈ Closure.out s -> data !! g = Some x).
Proof.
  split.
  - intros sched s H.
    destruct (CapInv_exec _ _ _ H) as [Hlen Hbound Hv Hshared Hout].
    split.
    + intros g x Hin. destruct (Hout _ _ Hin) as (k & Hk & Hx).
      exists k. split; [|exact Hx]. apply lookup_lt_Some in Hx. lia.
    + intros Hm g s' Hs. rewrite Hm in *. simpl in *.
      unfold Closure.step, Closure.step_unit in Hs. rewrite Hm in Hs.
      destruct (Closure.gors s !! g) as [[b [|]]|] eqn:Hg; try discriminate.
      pose proof (Hshared _ _ Hg) as Hb. simpl in Hb. subst b.
      injection Hs as <-. simpl.
      exists (Closure.v s). split; [|reflexivity].
      apply lookup_lt_Some in Hg. rewrite Hlen in Hg.
      rewrite last_lookup. destruct (length data) as [|j]; [lia|]. exact Hv.
  - intros sched s H. rewrite capture_fresh_exec in H.
    destruct (closure_Inv_exec _ _ _ H). assumption.
Qed.

(** The data of the source when the goroutines run after the loop: three,
    three, three under the old rule, one, two, three under the new one. *)
Lemma X15_closure_reads_the_loop_variable_witness :
  (exists s,
     exec (Closure.step Closure.Capture Closure.numbers) Closure.loop_first
          Closure.init = Some s /\
     Closure.out s = [(0, "three"); (1, "three"); (2, "three")]%string /\
     exists k, 0 <= k < 3 /\ Closure.numbers !! k = Some "three"%string) /\
  (exists s,
     exec (Closure.step Closure.CaptureFresh Closure.numbers)
          Closure.loop_first Closure.init = Some s /\
     Closure.out s = [(0, "one"); (1, "two"); (2, "three")]%string /\
     Closure.numbers !! 0 = Some "one"%string).
Proof.
  split.
  - eexists. split; [vm_compute; reflexivity|]. split; [reflexivity|].
    apply (proj1 (proj1 (X15_closure_reads_the_loop_variable Closure.numbers)
                    Closure.loop_first _ ltac:(vm_compute; reflexivity))
             0 "three"%string).
    simpl. repeat constructor.
  - eexists. split; [vm_compute; reflexivity|]. split; [reflexivity|].
    apply (proj2 (X15_closure_reads_the_loop_variable Closure.numbers)
             Closure.loop_first _ ltac:(vm_compute; reflexivity)
             0 "one"%string).
    simpl. repeat constructor.
Defined.

(* --------------------------------------------------------------------- *)
(** ** Slices of one array, on any path (lines 220-235 and 251-266)       *)
(* --------------------------------------------------------------------- *)

Lemma main_on_alias spare extra :
  Rewrite.main_on false spare extra "AAAA/BBBBBBBBB" "suffix"
  = SliceAlias.main spare extra.
Proof. reflexivity. Qed.

Lemma main_on_full spare extra :
  Rewrite.main_on true spare extra "AAAA/BBBBBBBBB" "suffix"
  = SliceFull.main spare extra.
Proof. reflexivity. Qed.

Lemma byte_eqb_refl (c : Byte.byte) : Byte.eqb c c = true.
Proof. apply Byte.byte_dec_lb. reflexivity. Qed.

Lemma byte_eqb_neq (b c : Byte.byte) : b <> c -> Byte.eqb b c = false.
Proof.
  intros H. destruct (Byte.eqb b c) eqn:E; [|reflexivity].
  apply Byte.byte_dec_bl in E. contradiction.
Qed.

(** [bytes.IndexByte] finds the first occurrence. *)
Lemma index_from_first (k : Z) (pre rest : list Byte.byte) (c : Byte.byte) :
  c ∉ pre ->
  Slice.index_from k (pre ++ c :: rest) c = (k + Z.of_nat (length pre))%Z.
Proof.
  revert k. induction pre as [|b pre IH]; intros k Hc; simpl.
  - rewrite byte_eqb_refl. lia.
  - apply not_elem_of_cons in Hc. destruct Hc as [Hne Hc].
    rewrite byte_eqb_neq by congruence. rewrite IH by exact Hc. lia.
Qed.

Lemma index_from_absent (k : Z) (l : list Byte.byte) (c : Byte.byte) :
  c ∉ l -> Slice.index_from k l c = (-1)%Z.
Proof.
  revert k. induction l as [|b l IH]; intros k Hc; simpl; [reflexivity|].
  apply not_elem_of_cons in Hc. destruct Hc as [Hne Hc].
  rewrite byte_eqb_neq by congruence. apply IH. exact Hc.
Qed.

Lemma idx_of_nat (i : nat) : Slice.idx (Z.of_nat i) = Some i.
Proof.
  unfold Slice.idx. destruct (Z.leb_spec 0 (Z.of_nat i)); [|lia].
  rewrite Nat2Z.id. reflexivity.
Qed.

(** X18: a path without a separator.  When [path] holds no '/',
    [bytes.IndexByte] returns -1 and the reslice [path[:sepIndex]] (or
    [path[:sepIndex:sepIndex]]) panics: neither program prints
    anything. *)
Theorem X18_no_separator_panics full spare extra (p suffix : string) :
  "/"%byte ∉ list_byte_of_string p ->
  Rewrite.main_on full spare extra p suffix = None.
Proof.
  intros H. unfold Rewrite.main_on, Slice.of_string, Slice.alloc. simpl.
  unfold Slice.IndexByte, Slice.contents. simpl.
  rewrite drop_0, take_app_length, (index_from_absent _ _ _ H).
  destruct full; reflexivity.
Qed.

(** ** Slices of a heap *)

Lemma contents_app_l (h h' : Slice.heap) (t : Slice.slice) :
  Slice.arr t < length h -> Slice.contents (h ++ h') t = Slice.contents h t.
Proof.
  intros H. unfold Slice.contents. rewrite lookup_app_l by exact H.
  reflexivity.
Qed.

Lemma contents_new (h : Slice.heap) (a : list Byte.byte) (n c : nat) :
  Slice.contents (h ++ [a]) (Slice.MkSlice (length h) 0 n c) = take n a.
Proof.
  unfold Slice.contents. simpl.
  rewrite list_lookup_middle by reflexivity. rewrite drop_0. reflexivity.
Qed.

Lemma write_at_nil (a : list Byte.byte) (k : nat) : Slice.write_at a k [] = a.
Proof. unfold Slice.write_at. simpl. rewrite Nat.add_0_r. apply take_drop. Qed.

(** [append] returns the old bytes followed by the new ones. *)
Lemma append_contents extra (h : Slice.heap) (s : Slice.slice) bs a :
  h !! Slice.arr s = Some a ->
  Slice.off s + Slice.len s <= length a ->
  Slice.contents (fst (Slice.append extra h s bs))
                 (snd (Slice.append extra h s bs))
  = Slice.contents h s ++ bs.
Proof.
  intros Ha Hlen. unfold Slice.append.
  destruct (Slice.len s + length bs <=? Slice.cap s); simpl.
  - unfold Slice.contents; simpl.
    rewrite list_lookup_alter_eq, Ha. simpl. unfold Slice.write_at.
    rewrite drop_app_le by (rewrite length_take; lia).
    rewrite take_app_add'.
    + rewrite take_app_length. rewrite skipn_firstn_comm.
      replace (Slice.off s + Slice.len s - Slice.off s) with (Slice.len s)
        by lia.
      reflexivity.
    + rewrite length_drop, length_take. lia.
  - rewrite contents_new.
    assert (Hc : length (Slice.contents h s) = Slice.len s).
    { unfold Slice.contents. rewrite Ha, length_take, length_drop. lia. }
    rewrite app_assoc, take_app_length'; [reflexivity|].
    rewrite length_app. lia.
Qed.

Lemma append_arr extra (h : Slice.heap) (s : Slice.slice) bs :
  Slice.arr s < length h ->
  Slice.arr (snd (Slice.append extra h s bs))
    < length (fst (Slice.append extra h s bs)) /\
  length h <= length (fst (Slice.append extra h s bs)).
Proof.
  intros H. unfold Slice.append.
  destruct (Slice.len s + length bs <=? Slice.cap s); simpl.
  - rewrite length_alter. lia.
  - rewrite length_app. simpl. lia.
Qed.

(** A slice without spare capacity: [append] leaves every slice of the
    heap as it was. *)
Lemma append_full_frame extra (h : Slice.heap) (s t : Slice.slice) bs :
  Slice.cap s = Slice.len s -> Slice.arr t < length h ->
  Slice.contents (fst (Slice.append extra h s bs)) t = Slice.contents h t.
Proof.
  intros Hcap Ht. unfold Slice.append.
  destruct (Nat.leb_spec (Slice.len s + length bs) (Slice.cap s)) as [Hle|Hgt];
    simpl.
  - assert (bs = []) as -> by (destruct bs; [reflexivity | simpl in Hle; lia]).
    rewrite list_alter_id; [reflexivity|]. intros a. apply write_at_nil.
  - apply contents_app_l. exact Ht.
Qed.

Lemma IndexByte_first (h : Slice.heap) (s : Slice.slice) pre c rest :
  Slice.contents h s = pre ++ c :: rest -> c ∉ pre ->
  Slice.IndexByte h s c = Z.of_nat (length pre).
Proof.
  intros H Hc. unfold Slice.IndexByte. rewrite H, index_from_first by exact Hc.
  lia.
Qed.

Lemma contents_of_string (bs zs : list Byte.byte) (c : nat) :
  Slice.contents [bs ++ zs] (Slice.MkSlice 0 0 (length bs) c) = bs.
Proof. unfold Slice.contents. simpl. rewrite drop_0. apply take_app_length. Qed.

Lemma take_drop_behind (pre rest zs : list Byte.byte) (c : Byte.byte) :
  take (length rest) (drop (S (length pre)) ((pre ++ c :: rest) ++ zs)) = rest.
Proof.
  rewrite <- app_assoc. simpl. rewrite cons_middle, app_assoc.
  rewrite drop_app_length' by (rewrite length_app; simpl; lia).
  apply take_app_length.
Qed.

Lemma take_front (pre rest zs : list Byte.byte) :
  take (length pre) ((pre ++ rest) ++ zs) = pre.
Proof. rewrite <- app_assoc. apply take_app_length. Qed.

(** X16: the full slice expression keeps [append] out of the array of
    [path].  For every path with a '/' and every suffix, whatever room
    the runtime leaves: the program with [path[:sepIndex:sepIndex]]
    prints the first directory with the suffix, the second directory
    unchanged, and the new path made of the two; the bytes of the first
    [path] are as they were. *)
Theorem X16_full_slice_expression_protects
    spare extra (p suffix : string) pre rest :
  list_byte_of_string p = pre ++ "/"%byte :: rest ->
  "/"%byte ∉ pre ->
  exists r,
    Rewrite.main_on true spare extra p suffix = Some r /\
    Slice.out r =
      [Slice.println2 "dir1 =>" (string_of_list_byte pre);
       Slice.println2 "dir2 =>" (string_of_list_byte rest);
       Slice.println2 "dir1 =>"
         (string_of_list_byte (pre ++ list_byte_of_string suffix));
       Slice.println2 "dir2 =>" (string_of_list_byte rest);
       Slice.println2 "new path =>"
         (string_of_list_byte
            (pre ++ list_byte_of_string suffix ++ "/"%byte :: rest))] /\
    Slice.contents (Slice.final r) (Slice.dir1 r)
      = pre ++ list_byte_of_string suffix /\
    Slice.contents (Slice.final r) (Slice.dir2 r) = rest /\
    Slice.contents (Slice.final r) (Slice.path0 r) = pre ++ "/"%byte :: rest /\
    Slice.contents (Slice.final r) (Slice.path r)
      = pre ++ list_byte_of_string suffix ++ "/"%byte :: rest.
Proof.
  intros Hp Hpre.
  unfold Rewrite.main_on, Slice.of_string, Slice.alloc.
  cbn -[Slice.contents Slice.append Slice.Join Slice.of_bytes Slice.IndexByte
        Slice.slice3 Slice.slice_from Slice.to_string].
  set (bs := list_byte_of_string p) in *.
  set (sfx := list_byte_of_string suffix).
  set (zs := repeat "000"%byte _).
  set (path0 := Slice.MkSlice 0 0 (length bs) (length bs + spare (length bs))).
  assert (Hn : length bs = length pre + S (length rest))
    by (rewrite Hp, length_app; reflexivity).
  assert (Hc0 : Slice.contents [bs ++ zs] path0 = bs)
    by apply contents_of_string.
  rewrite (IndexByte_first _ _ pre "/"%byte rest)
    by (exact (eq_trans Hc0 Hp) || exact Hpre).
  unfold Slice.slice3, Slice.slice_from.
  replace (Z.of_nat (length pre) + 1)%Z
    with (Z.of_nat (S (length pre))) by lia.
  rewrite !idx_of_nat.
  cbn -[Slice.contents Slice.append Slice.Join Slice.of_bytes Slice.to_string
        Nat.leb].
  replace (length pre <=? length pre) with true
    by (symmetry; apply Nat.leb_le; lia).
  replace (length pre <=? length bs + spare (length bs)) with true
    by (symmetry; apply Nat.leb_le; lia).
  replace (S (length pre) <=? length bs) with true
    by (symmetry; apply Nat.leb_le; lia).
  change (Z.to_nat 0) with 0.
  cbn -[Slice.contents Slice.append Slice.Join Slice.of_bytes Slice.to_string
        Slice.reslice].
  set (d1 := Slice.reslice path0 0 (length pre) (length pre)).
  set (d2 := Slice.reslice path0 (S (length pre)) (length bs) _).
  pose proof (append_contents extra [bs ++ zs] d1 sfx (bs ++ zs) eq_refl)
    as Hc1.
  pose proof (append_arr extra [bs ++ zs] d1 sfx) as Harr.
  pose proof (append_full_frame extra [bs ++ zs] d1 d2 sfx eq_refl) as Hf2.
  pose proof (append_full_frame extra [bs ++ zs] d1 path0 sfx eq_refl) as Hf0.
  destruct (Slice.append extra [bs ++ zs] d1 sfx) as [h1 d1'] eqn:Ea.
  simpl fst in *. simpl snd in *.
  unfold Slice.Join, Slice.of_bytes, Slice.alloc.
  cbn -[Slice.contents Slice.to_string].
  eexists. split; [reflexivity|].
  unfold Slice.to_string. cbn -[Slice.contents].
  destruct Harr as [Hd1 Hl1]; [simpl; lia|]. simpl in Hl1.
  assert (Cd1 : Slice.contents [bs ++ zs] d1 = pre).
  { unfold Slice.contents. simpl. rewrite drop_0, Nat.sub_0_r, Hp.
    apply take_front. }
  assert (Cd2 : Slice.contents [bs ++ zs] d2 = rest).
  { unfold Slice.contents. simpl.
    replace (length bs - S (length pre)) with (length rest) by lia.
    rewrite Hp. apply take_drop_behind. }
  rewrite Cd1 in Hc1. rewrite Cd2 in Hf2. rewrite Hc0, Hp in Hf0.
  specialize (Hc1 ltac:(simpl; rewrite length_app; lia)).
  specialize (Hf2 ltac:(simpl; lia)). specialize (Hf0 ltac:(simpl; lia)).
  assert (Hd2 : Slice.arr d2 < length h1) by (simpl; lia).
  assert (Hd0 : Slice.arr path0 < length h1) by (simpl; lia).
  rewrite !(contents_app_l _ _ d1'), !(contents_app_l _ _ d2),
    !(contents_app_l _ _ path0) by (rewrite ?length_app; simpl; lia).
  rewrite Hc1, Hf2, Hf0, Cd1, Cd2.
  rewrite !contents_new. simpl take. rewrite firstn_all, <- app_assoc.
  repeat split.
Qed.

Lemma write_at_behind (pre rest zs sf : list Byte.byte) (c d : Byte.byte) :
  length sf <= length rest ->
  Slice.write_at ((pre ++ d :: rest) ++ zs) (length pre) (c :: sf)
  = (pre ++ c :: sf ++ drop (length sf) rest) ++ zs.
Proof.
  intros H. unfold Slice.write_at. rewrite take_front.
  rewrite <- (app_assoc pre (d :: rest) zs), drop_app_add. simpl.
  rewrite drop_app_le by exact H.
  rewrite <- !app_assoc. simpl. rewrite <- app_assoc. reflexivity.
Qed.

(** The array of [path] once "suffix" has been written behind [dir1]. *)
Lemma overwritten_dir1 (pre rest zs sf : list Byte.byte) (c : Byte.byte) :
  take (length pre + S (length sf))
       ((pre ++ c :: sf ++ drop (length sf) rest) ++ zs)
  = pre ++ c :: sf.
Proof.
  replace ((pre ++ c :: sf ++ drop (length sf) rest) ++ zs)
    with ((pre ++ c :: sf) ++ drop (length sf) rest ++ zs)
    by (rewrite <- !app_assoc; simpl; rewrite <- ?app_assoc; reflexivity).
  apply take_app_length'. rewrite length_app. simpl. lia.
Qed.

Lemma overwritten_dir2 (pre rest zs sf : list Byte.byte) (c : Byte.byte) :
  length sf <= length rest ->
  take (length rest)
       (drop (S (length pre))
             ((pre ++ c :: sf ++ drop (length sf) rest) ++ zs))
  = sf ++ drop (length sf) rest.
Proof.
  intros Hfit.
  replace ((pre ++ c :: sf ++ drop (length sf) rest) ++ zs)
    with ((pre ++ [c]) ++ (sf ++ drop (length sf) rest) ++ zs)
    by (rewrite <- !app_assoc; simpl; rewrite <- ?app_assoc; reflexivity).
  rewrite drop_app_length' by (rewrite length_app; simpl; lia).
  apply take_app_length'. rewrite length_app, length_drop. lia.
Qed.

Lemma overwritten_path (pre rest zs sf : list Byte.byte) (c : Byte.byte) :
  length sf <= length rest ->
  take (length pre + S (length rest))
       ((pre ++ c :: sf ++ drop (length sf) rest) ++ zs)
  = pre ++ c :: sf ++ drop (length sf) rest.
Proof.
  intros Hfit. apply take_app_length'.
  rewrite length_app. simpl. rewrite length_app, length_drop. lia.
Qed.

(** X17: the plain reslice shares the array.  For every path with a '/'
    and every suffix that is not empty and not longer than what follows
    [dir1] in [path], whatever room the runtime leaves: [append] writes
    the suffix into the array of [path], so [dir2] then shows the suffix
    without its first byte followed by what is left of its old bytes,
    and the first [path] shows the suffix in place of the separator and
    of the bytes behind it. *)
Theorem X17_reslice_shares_the_array
    spare extra (p suffix : string) pre rest c sf :
  list_byte_of_string p = pre ++ "/"%byte :: rest ->
  "/"%byte ∉ pre ->
  list_byte_of_string suffix = c :: sf ->
  length sf <= length rest ->
  exists r,
    Rewrite.main_on false spare extra p suffix = Some r /\
    Slice.out r =
      [Slice.println2 "dir1 =>" (string_of_list_byte pre);
       Slice.println2 "dir2 =>" (string_of_list_byte rest);
       Slice.println2 "dir1 =>" (string_of_list_byte (pre ++ c :: sf));
       Slice.println2 "dir2 =>"
         (string_of_list_byte (sf ++ drop (length sf) rest));
       Slice.println2 "new path =>"
         (string_of_list_byte
            ((pre ++ c :: sf) ++ "/"%byte :: sf ++ drop (length sf) rest))] /\
    Slice.arr (Slice.dir1 r) = Slice.arr (Slice.path0 r) /\
    Slice.contents (Slice.final r) (Slice.dir2 r)
      = sf ++ drop (length sf) rest /\
    Slice.contents (Slice.final r) (Slice.path0 r)
      = pre ++ c :: sf ++ drop (length sf) rest.
Proof.
  intros Hp Hpre Hs Hfit.
  unfold Rewrite.main_on, Slice.of_string, Slice.alloc.
  cbn -[Slice.contents Slice.append Slice.Join Slice.of_bytes Slice.IndexByte
        Slice.slice_to Slice.slice_from Slice.to_string].
  set (bs := list_byte_of_string p) in *.
  rewrite Hs.
  set (zs := repeat "000"%byte _).
  set (path0 := Slice.MkSlice 0 0 (length bs) (length bs + spare (length bs))).
  assert (Hn : length bs = length pre + S (length rest))
    by (rewrite Hp, length_app; reflexivity).
  assert (Hc0 : Slice.contents [bs ++ zs] path0 = bs)
    by apply contents_of_string.
  rewrite (IndexByte_first _ _ pre "/"%byte rest)
    by (exact (eq_trans Hc0 Hp) || exact Hpre).
  unfold Slice.slice_to, Slice.slice_from.
  replace (Z.of_nat (length pre) + 1)%Z
    with (Z.of_nat (S (length pre))) by lia.
  rewrite !idx_of_nat.
  cbn -[Slice.contents Slice.append Slice.Join Slice.of_bytes Slice.to_string
        Nat.leb].
  replace (length pre <=? length bs + spare (length bs)) with true
    by (symmetry; apply Nat.leb_le; lia).
  replace (S (length pre) <=? length bs) with true
    by (symmetry; apply Nat.leb_le; lia).
  cbn -[Slice.contents Slice.append Slice.Join Slice.of_bytes Slice.to_string
        Slice.reslice].
  set (d1 := Slice.reslice path0 0 (length pre) _).
  set (d2 := Slice.reslice path0 (S (length pre)) (length bs) _).
  assert (Cd1 : Slice.contents [bs ++ zs] d1 = pre).
  { unfold Slice.contents. simpl. rewrite drop_0, Nat.sub_0_r, Hp.
    apply take_front. }
  assert (Cd2 : Slice.contents [bs ++ zs] d2 = rest).
  { unfold Slice.contents. simpl.
    replace (length bs - S (length pre)) with (length rest) by lia.
    rewrite Hp. apply take_drop_behind. }
  unfold Slice.append.
  replace (Slice.len d1 + length (c :: sf) <=? Slice.cap d1) with true
    by (symmetry; apply Nat.leb_le; simpl; lia).
  unfold Slice.Join, Slice.of_bytes, Slice.alloc.
  cbn -[Slice.contents Slice.to_string Slice.write_at].
  rewrite Nat.sub_0_r.
  eexists. split; [reflexivity|].
  unfold Slice.to_string. cbn -[Slice.contents Slice.write_at].
  rewrite Cd1, Cd2.
  unfold Slice.contents, d2, path0. simpl.
  rewrite !drop_0.
  replace (length bs - S (length pre)) with (length rest) by lia.
  rewrite Hn, Hp, write_at_behind by exact Hfit.
  rewrite overwritten_dir1.
  rewrite overwritten_dir2, overwritten_path by exact Hfit.
  rewrite firstn_all.
  repeat split.
Qed.


Lemma X16_full_slice_expression_protects_witness :
  exists r,
    Rewrite.main_on true (fun _ => 0) (fun _ n => n) "AA/BC" "xyz" = Some r /\
    Slice.to_string (Slice.final r) (Slice.dir2 r) = "BC"%string.
Proof.
  destruct (X16_full_slice_expression_protects (fun _ => 0) (fun _ n => n)
              "AA/BC" "xyz" ["A"; "A"]%byte ["B"; "C"]%byte eq_refl)
    as (r & Hr & _ & _ & H2 & _).
  - rewrite !not_elem_of_cons. repeat split; try discriminate.
    apply not_elem_of_nil.
  - exists r. split; [exact Hr|]. unfold Slice.to_string. rewrite H2.
    reflexivity.
Defined.

Lemma X17_reslice_shares_the_array_witness :
  exists r,
    Rewrite.main_on false (fun _ => 0) (fun _ n => n) "AA/BCD" "xyz" = Some r /\
    Slice.to_string (Slice.final r) (Slice.dir2 r) = "yzD"%string.
Proof.
  destruct (X17_reslice_shares_the_array (fun _ => 0) (fun _ n => n)
              "AA/BCD" "xyz" ["A"; "A"]%byte ["B"; "C"; "D"]%byte
              "x"%byte ["y"; "z"]%byte eq_refl)
    as (r & Hr & _ & _ & H2 & _).
  - rewrite !not_elem_of_cons. repeat split; try discriminate.
    apply not_elem_of_nil.
  - reflexivity.
  - simpl. lia.
  - exists r. split; [exact Hr|]. unfold Slice.to_string. rewrite H2.
    reflexivity.
Defined.

Lemma X18_no_separator_panics_witness :
  Rewrite.main_on false (fun _ => 0) (fun _ n => n) "AAAA" "suffix" = None.
Proof.
  apply X18_no_separator_panics.
  change ("/"%byte ∉ ["A"; "A"; "A"; "A"]%byte).
  rewrite !not_elem_of_cons. repeat split; try discriminate.
  apply not_elem_of_nil.
Defined.

(* --------------------------------------------------------------------- *)
(** ** Runs that come to their end (lines 71-103 and 146-163)             *)
(* --------------------------------------------------------------------- *)

(** A program that can always move until it is done, and whose steps use
    up a measure, can be run to its end from every state. *)
Lemma exec_completes {A S : Type} (step : A -> S -> option S)
    (P : S -> Prop) (final : S -> bool) (mu : S -> nat) :
  (forall a s s', P s -> step a s = Some s' -> P s' /\ mu s' < mu s) ->
  (forall s, P s -> final s = false -> exists a s', step a s = Some s') ->
  forall s, P s ->
    exists more s', exec step more s = Some s' /\ final s' = true /\ P s'.
Proof.
  intros Hstep Hprog s. remember (mu s) as n eqn:En. revert s En.
  induction n as [n IH] using lt_wf_ind. intros s -> HP.
  destruct (final s) eqn:Hf.
  - exists [], s. repeat split; assumption.
  - destruct (Hprog s HP Hf) as (a & s1 & Ha).
    destruct (Hstep _ _ _ HP Ha) as [HP1 Hlt].
    destruct (IH _ Hlt s1 eq_refl HP1) as (more & s' & Hm & Hfin & HP').
    exists (a :: more), s'. simpl. rewrite Ha. repeat split; assumption.
Qed.

(** X19: the program with [done] always comes to its end.  With at
    least one goroutine, every run, however far it has got, can be
    continued until [main] has returned, without a panic, and the whole
    run has no more than [4 * count + 7] steps: no goroutine can block
    [main] or be blocked for ever while [main] is alive. *)
Theorem X19_done_program_completes
    (count : nat) (sched : list Racer.action) (s : Racer.state) :
  1 <= count ->
  exec (Racer.step Racer.CloseDone count) sched Racer.init = Some s ->
  exists more s',
    exec (Racer.step Racer.CloseDone count) (sched ++ more) Racer.init
      = Some s' /\
    Racer.main s' = Racer.MExit /\ Racer.panicked s' = None /\
    length (sched ++ more) <= 4 * count + 7.
Proof.
  intros HN H. pose proof (racer_Inv_exec _ _ _ H) as HI.
  destruct (exec_completes (Racer.step Racer.CloseDone count)
              (Racer.Inv count) racer_returned (Racer.fuel count))
    with (s := s) as (more & s' & Hm & Hfin & HI').
  - intros a t t' Ht Ha. split.
    + eapply racer_Inv_step; eassumption.
    + eapply racer_fuel_step; eassumption.
  - intros t Ht Hf. apply racer_progress; [exact HN | exact Ht |].
    intros E. unfold racer_returned in Hf. rewrite E in Hf. discriminate.
  - exact HI.
  - exists more, s'.
    assert (Hall : exec (Racer.step Racer.CloseDone count) (sched ++ more)
                     Racer.init = Some s')
      by (rewrite exec_app, H; exact Hm).
    split; [exact Hall|]. split.
    + unfold racer_returned in Hfin. destruct (Racer.main s'); congruence.
    + split; [destruct HI'; assumption|].
      pose proof (racer_exec_length _ _ _ Hall). lia.
Qed.

Lemma X19_done_program_completes_witness :
  exists more s',
    exec (Racer.step Racer.CloseDone 3)
         ([Racer.Run Racer.Main; Racer.Run Racer.Main] ++ more) Racer.init
      = Some s' /\
    Racer.main s' = Racer.MExit.
Proof.
  destruct (X19_done_program_completes 3
              [Racer.Run Racer.Main; Racer.Run Racer.Main] _
              ltac:(lia) ltac:(vm_compute; reflexivity))
    as (more & s' & H1 & H2 & _).
  exists more, s'. split; assumption.
Defined.

(** X20: the pool always comes to its end.  With at least one worker,
    every run of the pool, however far it has got, can be continued
    until [main] has returned: nothing panics, "all done!" is the last
    line, and the whole run has no more than
    [4 * workerCount + 3 * itemCount + 6] steps. *)
Theorem X20_pool_completes
    (workerCount itemCount : nat) (sched : list Pool.action) (s : Pool.state) :
  1 <= workerCount ->
  exec (Pool.step workerCount itemCount) sched Pool.init = Some s ->
  exists more s',
    exec (Pool.step workerCount itemCount) (sched ++ more) Pool.init
      = Some s' /\
    Pool.main s' = Pool.MExit /\ Pool.panicked s' = None /\
    last (Pool.out s') = Some Pool.AllDone /\
    length (sched ++ more) <= 4 * workerCount + 3 * itemCount + 6.
Proof.
  intros HN H. pose proof (Inv_exec _ _ _ _ H) as HI.
  destruct (exec_completes (Pool.step workerCount itemCount)
              (Pool.Inv workerCount itemCount) pool_returned
              (Pool.fuel workerCount itemCount))
    with (s := s) as (more & s' & Hm & Hfin & HI').
  - intros a t t' Ht Ha. apply step_sound in Ha. split.
    + eapply Inv_step; eassumption.
    + eapply fuel_step; eassumption.
  - intros t Ht Hf. apply pool_progress; [exact HN | exact Ht |].
    intros E. unfold pool_returned in Hf. rewrite E in Hf. discriminate.
  - exact HI.
  - exists more, s'.
    assert (Hall : exec (Pool.step workerCount itemCount) (sched ++ more)
                     Pool.init = Some s')
      by (rewrite exec_app, H; exact Hm).
    assert (Hmain : Pool.main s' = Pool.MExit)
      by (unfold pool_returned in Hfin; destruct (Pool.main s'); congruence).
    split; [exact Hall|]. split; [exact Hmain|]. split.
    + destruct HI'; assumption.
    + split.
      * destruct (PoolOut_exec _ _ _ _ Hall) as [_ [_ _ _ Hlast]]. auto.
      * pose proof (exec_length _ _ _ _ Hall). lia.
Qed.

Lemma X20_pool_completes_witness :
  exists more s',
    exec (Pool.step 2 2) ([Pool.Run Pool.Main] ++ more) Pool.init = Some s' /\
    last (Pool.out s') = Some Pool.AllDone.
Proof.
  destruct (X20_pool_completes 2 2 [Pool.Run Pool.Main] _
              ltac:(lia) ltac:(vm_compute; reflexivity))
    as (more & s' & H1 & _ & _ & H4 & _).
  exists more, s'. split; assumption.
Defined.
